(** * Yellow Pages scraper: the contact finder and the batch writer

    A shallow embedding of [WebsiteContactFinder.py] (extractors, contact
    resolver, stage entry point) and of the [SearchData] / [DataPipeline]
    classes of [ScrapYelp.py], followed by the properties of the
    specification that concern them.

    Conventions of the embedding:
    - a Python [str] is the list of its code points, restricted to
      U+0000..U+00FF (one [ascii] per code point);
    - a compiled pattern is a syntax tree interpreted by a backtracking
      matcher that enumerates the matches in the order Python's [re] tries
      them;
    - library collaborators (HTTP session, browser, HTML parser, URL
      helpers, the iteration order of a [set]) are fields of a record the
      functions receive;
    - the file system and the standard output are explicit state. *)

From Stdlib Require Import Ascii String ZArith Lia.
From stdpp Require Import gmap strings list pretty sorting.

(* ===================================================================== *)
(** ** Python strings *)
(* ===================================================================== *)

Module PyStr.

Abbreviation str := (list ascii).

(** String literals of the source are written [$"..."]. *)
Notation "$ s" := (list_ascii_of_string s) (at level 1, s at level 0, format "$ s").

Definition code (c : ascii) : N := N_of_ascii c.

Definition in_range (lo hi c : ascii) : bool :=
  ((code lo <=? code c) && (code c <=? code hi))%N.

(** [str.lower()] on one code point below U+0100: [A-Z] and the Latin-1
    capitals U+00C0..U+00DE (U+00D7, the multiplication sign, apart). *)
Definition lower_char (c : ascii) : ascii :=
  let n := code c in
  if ((65 <=? n) && (n <=? 90))%N then ascii_of_N (n + 32)
  else if ((192 <=? n) && (n <=? 222) && negb (n =? 215))%N then ascii_of_N (n + 32)
  else c.

Definition lower (s : str) : str := lower_char <$> s.

(** [str.isspace()] on one code point below U+0100. *)
Definition is_space (c : ascii) : bool :=
  let n := code c in
  (((9 <=? n) && (n <=? 13)) || ((28 <=? n) && (n <=? 32))
   || (n =? 133) || (n =? 160))%N.

Fixpoint lstrip (p : ascii -> bool) (s : str) : str :=
  match s with
  | c :: s' => if p c then lstrip p s' else s
  | [] => []
  end.

Definition rstrip (p : ascii -> bool) (s : str) : str :=
  reverse (lstrip p (reverse s)).

(** [s.strip()] *)
Definition strip (s : str) : str := rstrip is_space (lstrip is_space s).

(** [s.strip(chars)] *)
Definition strip_chars (chars : str) (s : str) : str :=
  let p c := bool_decide (c ∈ chars) in
  rstrip p (lstrip p s).

(** [s.startswith(p)] *)
Fixpoint startswith (p s : str) : bool :=
  match p, s with
  | [], _ => true
  | a :: p', b :: s' => bool_decide (a = b) && startswith p' s'
  | _ :: _, [] => false
  end.

(** [s.split(sep, 1)[1]]: what follows the first occurrence of [sep];
    [None] is Python's [IndexError] when [sep] does not occur. *)
Fixpoint after_first (sep s : str) : option str :=
  if startswith sep s then Some (drop (length sep) s)
  else match s with
       | [] => None
       | _ :: s' => after_first sep s'
       end.

(** [s.split(c)[0]]: what precedes the first occurrence of the character. *)
Fixpoint before_first (c : ascii) (s : str) : str :=
  match s with
  | [] => []
  | a :: s' => if bool_decide (a = c) then [] else a :: before_first c s'
  end.

(** Truth value of [None] or a string: [if x:]. *)
Definition truthy (x : option str) : bool :=
  match x with
  | Some (_ :: _) => true
  | _ => false
  end.

End PyStr.
Import PyStr.

(* ===================================================================== *)
(** ** Patterns of the [re] module *)
(* ===================================================================== *)

Module Re.

(** Members of a bracket expression. *)
Inductive citem :=
| One (c : ascii)          (* a literal character *)
| Span (lo hi : ascii)     (* lo-hi *)
| Word.                    (* \w *)

(** [\w] on a code point below U+0100: alphanumeric or underscore. *)
Definition is_word (c : ascii) : bool :=
  let n := code c in
  (in_range "a" "z" c || in_range "A" "Z" c || in_range "0" "9" c
   || (n =? 95) || (n =? 170) || (n =? 178) || (n =? 179) || (n =? 181)
   || (n =? 185) || (n =? 186) || ((188 <=? n) && (n <=? 190))
   || ((192 <=? n) && (n <=? 214)) || ((216 <=? n) && (n <=? 246))
   || (248 <=? n))%N.

Definition citem_mem (c : ascii) (i : citem) : bool :=
  match i with
  | One a => bool_decide (a = c)
  | Span lo hi => in_range lo hi c
  | Word => is_word c
  end.

Definition class_mem (cls : list citem) (c : ascii) : bool :=
  existsb (citem_mem c) cls.

Inductive regex :=
| Eps                                           (* empty pattern *)
| Chr (c : ascii)                               (* literal character *)
| Cls (cls : list citem)                        (* [...] *)
| Cat (r1 r2 : regex)                           (* r1r2 *)
| Alt (r1 r2 : regex)                           (* r1|r2 *)
| Rep (r : regex) (lo : nat) (hi : option nat)  (* greedy r{lo,hi} *)
| NotAhead (r : regex).                         (* (?!r) *)

(** Literal text. *)
Fixpoint Lit (s : str) : regex :=
  match s with
  | [] => Eps
  | [c] => Chr c
  | c :: s' => Cat (Chr c) (Lit s')
  end.

Definition Opt (r : regex) : regex := Rep r 0 (Some 1).      (* r? *)
Definition Star (r : regex) : regex := Rep r 0 None.          (* r* *)
Definition Plus (r : regex) : regex := Rep r 1 None.          (* r+ *)
Definition AtLeast (n : nat) (r : regex) : regex := Rep r n None.   (* r{n,} *)

(** r1|r2|...|rn *)
Fixpoint Alts (rs : list regex) : regex :=
  match rs with
  | [] => NotAhead Eps
  | [r] => r
  | r :: rs' => Alt r (Alts rs')
  end.

Definition may_repeat (cnt : nat) (hi : option nat) : bool :=
  match hi with
  | None => true
  | Some h => bool_decide (cnt < h)
  end.

(** The greedy loop of a quantifier. [step] enumerates the ways the body
    matches; after [cnt] iterations the loop first tries one more (as long
    as the bound allows and the body consumes input) and only then leaves,
    if [lo] iterations were made. *)
Fixpoint rep (step : str -> list str) (lo : nat) (hi : option nat)
    (fuel cnt : nat) (s : str) : list str :=
  (match fuel with
   | 0 => []
   | S fuel' =>
       if may_repeat cnt hi then
         step s ≫= (λ s', if bool_decide (length s' < length s)
                          then rep step lo hi fuel' (S cnt) s' else [])
       else []
   end) ++ (if bool_decide (lo ≤ cnt) then [s] else []).

(** [run r s]: every way [r] matches a prefix of [s], given by the text
    left after the match, in the order a backtracking matcher tries them. *)
Fixpoint run (r : regex) (s : str) : list str :=
  match r with
  | Eps => [s]
  | Chr c =>
      match s with
      | a :: s' => if bool_decide (c = a) then [s'] else []
      | [] => []
      end
  | Cls cls =>
      match s with
      | a :: s' => if class_mem cls a then [s'] else []
      | [] => []
      end
  | Cat r1 r2 => run r1 s ≫= run r2
  | Alt r1 r2 => run r1 s ++ run r2 s
  | Rep r1 lo hi => rep (run r1) lo hi (length s) 0 s
  | NotAhead r1 =>
      match run r1 s with
      | [] => [s]
      | _ :: _ => []
      end
  end.

(** The text a match consumed, given what it left. *)
Definition consumed (s rest : str) : str := take (length s - length rest) s.

(** [pattern.match(s)]: the first match at the start of [s]; the result is
    [group(0)]. *)
Definition py_match (r : regex) (s : str) : option str :=
  consumed s <$> head (run r s).

(** [pattern.fullmatch(s)], as a truth value: backtracking goes on until a
    match ends at the end of [s]. *)
Definition py_fullmatch (r : regex) (s : str) : bool :=
  bool_decide ([] ∈ run r s).

(** [pattern.search(s)]: the first match at the leftmost position that has
    one; the result is [group(0)]. *)
Fixpoint py_search (r : regex) (s : str) : option str :=
  match py_match r s with
  | Some m => Some m
  | None =>
      match s with
      | [] => None
      | _ :: s' => py_search r s'
      end
  end.

End Re.
Import Re.

(* ===================================================================== *)
(** ** WebsiteContactFinder.py: constants *)
(* ===================================================================== *)

Definition COMMON_CONTACT_PATHS : list str :=
  [ $""; $"contact"; $"contacto"; $"contact-us"; $"contactus"; $"about";
    $"about-us"; $"nosotros"; $"impressum"; $"legal"; $"aviso-legal";
    $"contactenos" ].

(** [[a-zA-Z0-9._%+-]] *)
Definition LOCAL_CLASS : list citem :=
  [Span "a" "z"; Span "A" "Z"; Span "0" "9";
   One "."; One "_"; One "%"; One "+"; One "-"].

(** [[a-zA-Z0-9.-]] *)
Definition DOMAIN_CLASS : list citem :=
  [Span "a" "z"; Span "A" "Z"; Span "0" "9"; One "."; One "-"].

(** [[a-zA-Z]] *)
Definition LETTER_CLASS : list citem := [Span "a" "z"; Span "A" "Z"].

(** [[a-zA-Z0-9._%+-]+@[a-zA-Z0-9.-]+\.[a-zA-Z]{2,}] *)
Definition EMAIL_REGEX : regex :=
  Cat (Plus (Cls LOCAL_CLASS))
  (Cat (Chr "@")
  (Cat (Plus (Cls DOMAIN_CLASS))
  (Cat (Chr ".")
       (AtLeast 2 (Cls LETTER_CLASS))))).

(** [_extraer_primer_email_valido_de_texto] *)
Definition _extraer_primer_email_valido_de_texto (texto : str) : option str :=
  match py_search EMAIL_REGEX texto with
  | Some m =>
      let email := lower m in
      if py_fullmatch EMAIL_REGEX email then Some email else None
  | None => None
  end.

Example extraer_demo :
  _extraer_primer_email_valido_de_texto $"<p>Write to Info@Acme-Dental.Example.</p>"
  = Some $"info@acme-dental.example".
Proof. vm_compute. reflexivity. Qed.

(** Sequence of patterns. *)
Fixpoint Seq (rs : list regex) : regex :=
  match rs with
  | [] => Eps
  | [r] => r
  | r :: rs' => Cat r (Seq rs')
  end.

(** [[\w.-]] *)
Definition SEGMENT_CLASS : list citem := [Word; One "."; One "-"].

(** The alternatives of the negative lookahead of [FACEBOOK_PROFILE_REGEX],
    in the order of the source. *)
Definition FACEBOOK_FUNCTIONAL_PATHS : list regex :=
  [ Lit $"sharer"; Lit $"plugins"; Lit $"dialog"; Lit $"login.php";
    Lit $"share.php";
    (* pages(?:/\w{0,15})?/badge *)
    Seq [Lit $"pages"; Opt (Cat (Chr "/") (Rep (Cls [Word]) 0 (Some 15)));
         Lit $"/badge"];
    Lit $"video.php"; Lit $"watch"; Lit $"events"; Lit $"groups";
    Lit $"search"; Lit $"help"; Lit $"legal"; Lit $"terms"; Lit $"privacy";
    Lit $"policies"; Lit $"maps"; Lit $"notes"; Lit $"photo.php";
    Lit $"photos"; Lit $"media"; Lit $"marketplace"; Lit $"jobs";
    Lit $"games"; Lit $"fundraisers"; Lit $"developers"; Lit $"careers";
    Lit $"business"; Lit $"stories"; Lit $"live"; Lit $"messages";
    Lit $"notifications"; Lit $"bookmarks"; Lit $"ads"; Lit $"gaming";
    Lit $"page_insights"; Lit $"insights"; Lit $"activity_log";
    Lit $"settings"; Lit $"recommendations"; Lit $"reviews"; Lit $"offers";
    Lit $"services"; Lit $"shop"; Lit $"community"; Lit $"menu";
    Lit $"events"; Lit $"videos"; Lit $"posts"; Lit $"questions";
    Lit $"groups"; Lit $"albums"; Lit $"applications" ].

(** The prefix [https?://(?:www\.)?facebook\.com/], the negative lookahead
    over the alternatives above, the captured group [[\w.-]+(?:/[\w.-]+)*]
    and a final [/?]. *)
Definition FACEBOOK_PROFILE_REGEX : regex :=
  Seq [ Lit $"http"; Opt (Chr "s"); Lit $"://"; Opt (Lit $"www.");
        Lit $"facebook.com/";
        NotAhead (Alts FACEBOOK_FUNCTIONAL_PATHS);
        Cat (Plus (Cls SEGMENT_CLASS))
            (Star (Cat (Chr "/") (Plus (Cls SEGMENT_CLASS))));
        Opt (Chr "/") ].

(** The paths the extractor refuses after the match. *)
Definition GENERIC_FACEBOOK_PATHS : list str :=
  [ $"facebook"; $"pg"; $"profile.php" ].

(* ===================================================================== *)
(** ** JSON values and the collaborators of the stage *)
(* ===================================================================== *)

#[warnings="-register-all"] Inductive json :=
| JNull
| JBool (b : bool)
| JNum (n : Z)
| JStr (s : str)
| JArr (l : list json)
| JObj (m : gmap str json).

(** What [requests] hands back after [raise_for_status()]. *)
Record response := { content : str; text : str }.

(** Outcome of [open] followed by [json.load]. *)
Inductive load_result :=
| Loaded (v : json)
| FileNotFoundError (cause : str)
| JSONDecodeError (cause : str)
| OtherLoadError (cause : str).

(** The attributes of the value of [urlparse] the stage reads. *)
Record ParseResult := { scheme : str; path : str }.

(** Outcome of [open(output_file, 'w')] followed by [json.dump] and the
    close of the file. *)
Inductive dump_result :=
| Dumped                      (* all go through *)
| OpenFailed (cause : str)    (* [open] raises: the file is as it was *)
| DumpFailed (cause : str).   (* the dump or the close raises: the file
                                 is left empty or cut *)

Record Env := {
  (** [urllib.parse.urljoin]; [None] is the [ValueError] it raises on a
      URL it cannot split (a bracketed host that is not closed, for
      instance) *)
  urljoin : str -> str -> option str;
  (** [urllib.parse.urlparse]; [None] is the same [ValueError] *)
  urlparse : str -> option ParseResult;
  (** the [href] values of [soup.find_all('a', href=True)], in document
      order *)
  find_all_a_href : str -> list str;
  (** [session.get(url, ...)] then [raise_for_status()]; [None] is a
      [RequestException] *)
  session_get : str -> option response;
  (** [driver.get(url)], the wait for [readyState], [driver.page_source];
      [None] when one of them raises *)
  driver_page_source : str -> option str;
  (** [list(s)] for a set [s]: some enumeration of its elements *)
  list_of_set : gset str -> list str;
  (** [configurar_driver_selenium()] returned a driver *)
  driver_available : bool;
  (** reading the input file *)
  json_load : str -> load_result;
  (** writing the output file *)
  json_dump : str -> list (gmap str json) -> dump_result
}.

(** The only thing Python promises about [list(s)]. *)
Definition set_order_ok (E : Env) : Prop :=
  ∀ X : gset str, list_of_set E X ≡ₚ elements X.

(* ===================================================================== *)
(** ** WebsiteContactFinder.py: extractors and resolver *)
(* ===================================================================== *)

Module ContactFinder.

(** How a function ends. *)
Inductive outcome (A : Type) :=
| Returned (a : A)
| Raised (cause : str).
Arguments Returned {A} a.
Arguments Raised {A} cause.

(** One turn of the loop of [buscar_facebook_links_en_html]. *)
Definition facebook_link_step (E : Env) (base_url : str)
    (links_encontrados : gset str) (href : str) : outcome (gset str) :=
  match urljoin E base_url href with
  | None => Raised $"ValueError"
  | Some url_absoluta =>
      match py_match FACEBOOK_PROFILE_REGEX url_absoluta with
      | Some _ =>
          match urlparse E url_absoluta with
          | None => Raised $"ValueError"
          | Some parsed =>
              let path := strip_chars $"/" (path parsed) in
              if bool_decide (path ≠ []) && bool_decide (path ∉ GENERIC_FACEBOOK_PATHS)
              then Returned (links_encontrados ∪ {[ url_absoluta ]})
              else Returned links_encontrados
          end
      | None => Returned links_encontrados
      end
  end.

(** The loop over the anchors: the set [links_encontrados] when it ends,
    or the exception that leaves it. *)
Fixpoint facebook_link_loop (E : Env) (base_url : str)
    (links_encontrados : gset str) (hrefs : list str) : outcome (gset str) :=
  match hrefs with
  | [] => Returned links_encontrados
  | href :: rest =>
      match facebook_link_step E base_url links_encontrados href with
      | Returned links_encontrados => facebook_link_loop E base_url links_encontrados rest
      | Raised e => Raised e
      end
  end.

Definition facebook_link_set (E : Env) (html_content base_url : str)
    : outcome (gset str) :=
  facebook_link_loop E base_url ∅ (find_all_a_href E html_content).

Definition buscar_facebook_links_en_html (E : Env)
    (html_content base_url : str) : outcome (list str) :=
  match facebook_link_set E html_content base_url with
  | Returned links_encontrados => Returned (list_of_set E links_encontrados)
  | Raised e => Raised e
  end.

(** The body of the [mailto:] branch for one anchor: the candidate address
    when the lower-cased [href] starts with the prefix. *)
Definition mailto_candidate (href : str) : option str :=
  let href_lower := lower href in
  if startswith $"mailto:" href_lower then
    (λ rest, strip (before_first "?" rest)) <$> after_first $"mailto:" href_lower
  else None.

(** The first loop of [buscar_primer_email_con_requests]: the first anchor
    whose candidate passes [EMAIL_REGEX.fullmatch] ends the function. *)
Fixpoint first_mailto (hrefs : list str) : option str :=
  match hrefs with
  | [] => None
  | href :: rest =>
      match mailto_candidate href with
      | Some email =>
          if py_fullmatch EMAIL_REGEX email then Some email
          else first_mailto rest
      | None => first_mailto rest
      end
  end.

Definition buscar_primer_email_con_requests (E : Env) (url : str) : option str :=
  match session_get E url with
  | None => None
  | Some respuesta =>
      match first_mailto (find_all_a_href E (content respuesta)) with
      | Some email => Some email
      | None =>
          let email_en_texto :=
            _extraer_primer_email_valido_de_texto (text respuesta) in
          if truthy email_en_texto then email_en_texto else None
      end
  end.

(** State of the loop of [buscar_datos_contacto_con_selenium]; [visited]
    records the arguments of [driver.get], oldest first. *)
Record deep_state := {
  email_final : option str;
  facebook_links_final : gset str;
  visited : list str
}.

(** The body of the loop, after the test at its head. The [try] covers
    all of it: an exception of the browser or of the social-link extractor
    is printed and the loop goes on. *)
Definition visit (E : Env) (st : deep_state) (url : str) : deep_state :=
  let st := {| email_final := email_final st;
               facebook_links_final := facebook_links_final st;
               visited := visited st ++ [url] |} in
  match driver_page_source E url with
  | None => st
  | Some page_source =>
      let email_encontrado := _extraer_primer_email_valido_de_texto page_source in
      if truthy email_encontrado then
        {| email_final := email_encontrado;
           facebook_links_final := facebook_links_final st;
           visited := visited st |}
      else
        match buscar_facebook_links_en_html E page_source url with
        | Returned links_fb =>
            {| email_final := email_final st;
               facebook_links_final :=
                 facebook_links_final st ∪ list_to_set links_fb;
               visited := visited st |}
        | Raised _ => st
        end
  end.

(** The loop: it is left as soon as [email_final] is set. *)
Fixpoint visit_all (E : Env) (urls : list str) (st : deep_state) : deep_state :=
  match urls with
  | [] => st
  | url :: rest =>
      if truthy (email_final st) then st
      else visit_all E rest (visit E st url)
  end.

(** The base URL after the scheme test. The test stands before the loop
    and outside every [try]. *)
Definition with_scheme (E : Env) (base_url : str) : outcome str :=
  match urlparse E base_url with
  | None => Raised $"ValueError"
  | Some parsed =>
      Returned (if bool_decide (scheme parsed = []) then $"http://" ++ base_url
                else base_url)
  end.

(** The calls of [urljoin] of the loop over [COMMON_CONTACT_PATHS], in
    order; they too stand outside every [try]. *)
Fixpoint join_paths (E : Env) (base_url : str) (paths : list str)
    : outcome (list str) :=
  match paths with
  | [] => Returned []
  | contact_path :: rest =>
      match urljoin E base_url contact_path with
      | None => Raised $"ValueError"
      | Some url =>
          match join_paths E base_url rest with
          | Returned urls => Returned (url :: urls)
          | Raised e => Raised e
          end
      end
  end.

(** The set [urls_a_visitar]. *)
Definition urls_a_visitar (E : Env) (base_url : str) : outcome (gset str) :=
  match with_scheme E base_url with
  | Returned base_url =>
      match join_paths E base_url COMMON_CONTACT_PATHS with
      | Returned urls => Returned (list_to_set urls)
      | Raised e => Raised e
      end
  | Raised e => Raised e
  end.

Definition deep_search (E : Env) (base_url : str) : outcome deep_state :=
  match urls_a_visitar E base_url with
  | Returned urls =>
      Returned (visit_all E (list_of_set E urls)
                  {| email_final := None; facebook_links_final := ∅; visited := [] |})
  | Raised e => Raised e
  end.

(** The dictionary [buscar_datos_contacto_con_selenium] returns. *)
Record deep_result := { email : option str; facebook_links : list str }.

Definition buscar_datos_contacto_con_selenium (E : Env) (base_url : str)
    : outcome deep_result :=
  match deep_search E base_url with
  | Returned st =>
      Returned {| email := email_final st;
                  facebook_links := list_of_set E (facebook_links_final st) |}
  | Raised e => Raised e
  end.

(** "no encontrado (href vacío)", the accented letter being U+00ED. *)
Definition NO_ENCONTRADO_HREF : str :=
  $"no encontrado (href vac" ++ ["237"%char] ++ $"o)".

Definition is_valid_website (url : option json) : bool :=
  match url with
  | Some (JStr (c :: s)) =>
      let url_lower := strip (lower (c :: s)) in
      if bool_decide (url_lower ∈ [ $"no encontrado"; NO_ENCONTRADO_HREF ]) then false
      else if negb (startswith $"http://" url_lower || startswith $"https://" url_lower)
      then false
      else true
  | _ => false
  end.

Definition EMAIL_KEY : str := $"email_encontrado".
Definition LINKS_KEY : str := $"facebook_links_encontrados".
Definition METHOD_KEY : str := $"metodo_extraccion".

Definition json_of_email (e : option str) : json :=
  match e with
  | Some s => JStr s
  | None => JNull
  end.

(** What one turn of the loop of [procesar_negocios] finds for a record:
    [final_email], [final_fb_links] and [method_used]. An exception of the
    deep path is not caught here. *)
Definition resolve (E : Env) (business : gmap str json)
    : outcome (option str * list str * str) :=
  let website_url := business !! $"website" in
  if is_valid_website website_url then
    match website_url with
    | Some (JStr url) =>
        let final_email := buscar_primer_email_con_requests E url in
        if truthy final_email then Returned (final_email, [], $"Requests (Email)")
        else if driver_available E then
          match buscar_datos_contacto_con_selenium E url with
          | Returned selenium_results =>
              if truthy (email selenium_results)
              then Returned (email selenium_results, [], $"Selenium (Email)")
              else match facebook_links selenium_results with
                   | _ :: _ => Returned (final_email, facebook_links selenium_results,
                                         $"Selenium (FB Links)")
                   | [] => Returned (final_email, [], $"Ninguno")
                   end
          | Raised e => Raised e
          end
        else Returned (final_email, [], $"Ninguno")
    | _ => Returned (None, [], $"Ninguno")
    end
  else Returned (None, [], $"Ninguno").

(** A copy of the record with the three keys assigned. *)
Definition with_fields (business : gmap str json)
    (found : option str * list str * str) : gmap str json :=
  let '(final_email, final_fb_links, method_used) := found in
  <[METHOD_KEY := JStr method_used]>
    (<[LINKS_KEY := JArr (JStr <$> final_fb_links)]>
      (<[EMAIL_KEY := json_of_email final_email]> business)).

(** [result_entry], when the resolution of the record returns. *)
Definition result_entry (E : Env) (business : gmap str json)
    : outcome (gmap str json) :=
  match resolve E business with
  | Returned found => Returned (with_fields business found)
  | Raised e => Raised e
  end.

(** What [enumerate(businesses)] goes through; [len()] of a number, a
    Boolean or [None] is a [TypeError]. *)
Definition iterate (v : json) : outcome (list json) :=
  match v with
  | JArr l => Returned l
  | JObj m => Returned (JStr <$> (map_to_list m).*1)
  | JStr s => Returned ((λ c, JStr [c]) <$> s)
  | _ => Raised $"TypeError"
  end.

(** The loop over the records, in order; [business.get] exists on
    dictionaries only, and the first exception ends the loop. *)
Fixpoint process_all (E : Env) (businesses : list json)
    : outcome (list (gmap str json)) :=
  match businesses with
  | [] => Returned []
  | JObj business :: rest =>
      match result_entry E business with
      | Returned entry =>
          match process_all E rest with
          | Returned final_results => Returned (entry :: final_results)
          | Raised e => Raised e
          end
      | Raised e => Raised e
      end
  | _ :: _ => Raised $"AttributeError"
  end.

(** Lines of the standard output the properties refer to. *)
Inductive message :=
| LoadError (input_json_path cause : str)
| Saved (count : nat) (output_file : str)
| SaveError (output_file cause : str)
| NothingToSave.

(** [procesar_negocios]: the records and what was printed. An exception
    other than the two the function catches leaves it. *)
Definition procesar_negocios (E : Env) (input_json_path : str)
    : outcome (list (gmap str json)) * list message :=
  match json_load E input_json_path with
  | FileNotFoundError cause | JSONDecodeError cause =>
      (Returned [], [LoadError input_json_path cause])
  | OtherLoadError cause => (Raised cause, [])
  | Loaded v =>
      match iterate v with
      | Returned businesses => (process_all E businesses, [])
      | Raised e => (Raised e, [])
      end
  end.

(** What a run of the script leaves behind: what it printed, the results
    the output file holds when it was written in full, whether the output
    file was opened for writing and left empty or cut, and the status. *)
Record run_result := {
  stdout : list message;
  output_written : option (list (gmap str json));
  output_cut : bool;
  exit_status : Z
}.

(** [main], followed by the end of the interpreter: status 0 when [main]
    returns, 1 when an exception leaves it. The call
    [selenium_driver.quit()] is taken to return. *)
Definition main (E : Env) (input_file output_file : str) : run_result :=
  match procesar_negocios E input_file with
  | (Raised _, out) =>
      {| stdout := out; output_written := None; output_cut := false;
         exit_status := 1 |}
  | (Returned [], out) =>
      {| stdout := out ++ [NothingToSave]; output_written := None;
         output_cut := false; exit_status := 0 |}
  | (Returned full_results, out) =>
      match json_dump E output_file full_results with
      | Dumped =>
          {| stdout := out ++ [Saved (length full_results) output_file];
             output_written := Some full_results; output_cut := false;
             exit_status := 0 |}
      | OpenFailed cause =>
          {| stdout := out ++ [SaveError output_file cause];
             output_written := None; output_cut := false; exit_status := 0 |}
      | DumpFailed cause =>
          {| stdout := out ++ [SaveError output_file cause];
             output_written := None; output_cut := true; exit_status := 0 |}
      end
  end.

(** The run has created or replaced the output file. *)
Definition output_touched (r : run_result) : bool :=
  match output_written r with
  | Some _ => true
  | None => output_cut r
  end.

End ContactFinder.

(* ===================================================================== *)
(** ** ScrapYelp.py: [SearchData] and [DataPipeline] *)
(* ===================================================================== *)

Module ScrapYelp.

(** The value of a field: a string, or [None] (an attribute the page does
    not have). *)
Inductive pyval :=
| PNone
| PStr (s : str).

Global Instance pyval_eq_dec : EqDecision pyval.
Proof. solve_decision. Defined.

Record SearchData := { name : pyval; url : pyval }.

Global Instance SearchData_eq_dec : EqDecision SearchData.
Proof. solve_decision. Defined.

(** The body of the loop of [check_string_fields] for the field called
    [field_name]. *)
Definition check_field (field_name : str) (value : pyval) : pyval :=
  match value with
  | PStr s =>
      if bool_decide (s = []) then PStr ($"No " ++ field_name)
      else PStr (strip s)
  | PNone => PNone
  end.

Definition check_string_fields (d : SearchData) : SearchData :=
  {| name := check_field $"name" (name d);
     url := check_field $"url" (url d) |}.

(** [SearchData(name=..., url=...)]: the generated [__init__], then
    [__post_init__]. *)
Definition new_SearchData (name url : pyval) : SearchData :=
  check_string_fields {| name := name; url := url |}.

(** [[field.name for field in fields(item)]] and the values of
    [asdict(item)] in that order. *)
Definition FIELD_NAMES : list str := [ $"name"; $"url" ].
Definition asdict (item : SearchData) : list pyval := [name item; url item].

(** A line of the file: the header, a record, or a line that was cut
    short, of which the file has the first [kept] bytes and no more
    ([writeheader] writes the field names as a row of cells). *)
Inductive csv_row :=
| HeaderRow (keys : list str)
| DataRow (cells : list pyval)
| CutRow (cells : list pyval) (kept : nat).

Global Instance csv_row_eq_dec : EqDecision csv_row.
Proof. solve_decision. Defined.

(** What the file system was asked to do. *)
Inductive io_event :=
| Opened (filename : str)
| Wrote (filename : str) (row : csv_row).

(** The file system: the rows of every file, the events so far (oldest
    first), and the two ways a write fails: [open] is refused, or the
    device runs out of room. With [room = Some (n, k)] it takes [n] more
    whole rows, then the first [k] bytes of the next row ([k] being less
    than the length of that line), and nothing after that. *)
Record World := {
  files : gmap str (list csv_row);
  trace : list io_event;
  open_denied : bool;
  room : option (nat * nat)
}.

Record DataPipeline := {
  names_seen : list pyval;
  storage_queue : list SearchData;
  storage_queue_limit : Z;
  csv_filename : str;
  csv_file_open : bool
}.

(** [DataPipeline(csv_filename=..., storage_queue_limit=...)] *)
Definition new_DataPipeline (csv_filename : str) (storage_queue_limit : Z) : DataPipeline :=
  {| names_seen := []; storage_queue := [];
     storage_queue_limit := storage_queue_limit;
     csv_filename := csv_filename; csv_file_open := false |}.

Definition set_flag (b : bool) (p : DataPipeline) : DataPipeline :=
  {| names_seen := names_seen p; storage_queue := storage_queue p;
     storage_queue_limit := storage_queue_limit p;
     csv_filename := csv_filename p; csv_file_open := b |}.

Definition set_queue (q : list SearchData) (p : DataPipeline) : DataPipeline :=
  {| names_seen := names_seen p; storage_queue := q;
     storage_queue_limit := storage_queue_limit p;
     csv_filename := csv_filename p; csv_file_open := csv_file_open p |}.

Definition set_seen (l : list pyval) (p : DataPipeline) : DataPipeline :=
  {| names_seen := l; storage_queue := storage_queue p;
     storage_queue_limit := storage_queue_limit p;
     csv_filename := csv_filename p; csv_file_open := csv_file_open p |}.

(** The rows of a file; a file that does not exist has none. *)
Definition file_rows (w : World) (filename : str) : list csv_row :=
  default [] (files w !! filename).

(** [os.path.isfile(f) and os.path.getsize(f) > 0] *)
Definition file_exists (w : World) (filename : str) : bool :=
  match files w !! filename with
  | Some (_ :: _) => true
  | _ => false
  end.

(** [open(filename, mode="a")]: creates the file when it is missing. *)
Definition open_append (w : World) (filename : str) : option World :=
  if open_denied w then None
  else Some {| files := <[filename := file_rows w filename]> (files w);
               trace := trace w ++ [Opened filename];
               open_denied := open_denied w; room := room w |}.

(** The cells of a row as [writerow] gets them. *)
Definition cells_of (row : csv_row) : list pyval :=
  match row with
  | HeaderRow keys => PStr <$> keys
  | DataRow cells => cells
  | CutRow cells _ => cells
  end.

(** One row reaches the file whole, unless the device has no room for
    it. *)
Definition write_row (w : World) (filename : str) (row : csv_row) : option World :=
  let w' r := {| files := <[filename := file_rows w filename ++ [row]]> (files w);
                 trace := trace w ++ [Wrote filename row];
                 open_denied := open_denied w; room := r |} in
  match room w with
  | None => Some (w' None)
  | Some (0, _) => None
  | Some (S n, k) => Some (w' (Some (n, k)))
  end.

(** What the device keeps of a row it has no room for: the first bytes of
    its line, if any. The device is full afterwards. *)
Definition cut_short (w : World) (filename : str) (row : csv_row) : World :=
  match room w with
  | Some (_, S k) =>
      {| files := <[filename := file_rows w filename ++ [CutRow (cells_of row) (S k)]]>
                    (files w);
         trace := trace w ++ [Wrote filename (CutRow (cells_of row) (S k))];
         open_denied := open_denied w; room := Some (0, 0) |}
  | _ => w
  end.

Import ContactFinder.

(** The body of the [with] block and the close that ends it:
    [writeheader()] when asked for, then the loop of [writerow]. The file
    object is buffered, so the rows reach the device when the buffer is
    flushed, at the latest by the close; the device takes them in order as
    long as it has room, and of the first row that does not fit the bytes
    that do. [OSError] is then raised, by the [writerow] that flushed or
    by the close: in both cases it leaves the block, and what was written
    stays in the file. *)
Fixpoint write_rows (w : World) (filename : str) (rows : list csv_row)
    : outcome unit * World :=
  match rows with
  | [] => (Returned (), w)
  | row :: rest =>
      match write_row w filename row with
      | None => (Raised $"OSError", cut_short w filename row)
      | Some w' => write_rows w' filename rest
      end
  end.

(** The rows a flush sends to the file. *)
Definition batch (header : bool) (data_to_save : list SearchData) : list csv_row :=
  (if header then [HeaderRow FIELD_NAMES] else [])
  ++ ((λ item, DataRow (asdict item)) <$> data_to_save).

Definition save_to_csv (p : DataPipeline) (w : World)
    : outcome unit * DataPipeline * World :=
  let data_to_save := storage_queue p in
  let p := set_queue [] (set_flag true p) in
  match data_to_save with
  | [] => (Returned (), p, w)
  | _ :: _ =>
      let exists_ := file_exists w (csv_filename p) in
      match open_append w (csv_filename p) with
      | None => (Raised $"OSError", p, w)
      | Some w =>
          match write_rows w (csv_filename p) (batch (negb exists_) data_to_save) with
          | (Raised e, w) => (Raised e, p, w)
          | (Returned _, w) => (Returned (), set_flag false p, w)
          end
      end
  end.

Definition is_duplicate (input_data : SearchData) (p : DataPipeline)
    : bool * DataPipeline :=
  if bool_decide (name input_data ∈ names_seen p) then (true, p)
  else (false, set_seen (names_seen p ++ [name input_data]) p).

Definition add_data (scraped_data : SearchData) (p : DataPipeline) (w : World)
    : outcome unit * DataPipeline * World :=
  match is_duplicate scraped_data p with
  | (false, p) =>
      let p := set_queue (storage_queue p ++ [scraped_data]) p in
      if bool_decide (storage_queue_limit p ≤ Z.of_nat (length (storage_queue p)))%Z
         && negb (csv_file_open p)
      then save_to_csv p w
      else (Returned (), p, w)
  | (true, p) => (Returned (), p, w)
  end.

(** The pause [close_pipeline] makes when the flag is up changes no
    state. *)
Definition close_pipeline (p : DataPipeline) (w : World)
    : outcome unit * DataPipeline * World :=
  if bool_decide (0 < length (storage_queue p)) then save_to_csv p w
  else (Returned (), p, w).

(** Successive calls of [add_data]; an exception ends the sequence. *)
Fixpoint add_all (items : list SearchData) (p : DataPipeline) (w : World)
    : outcome unit * DataPipeline * World :=
  match items with
  | [] => (Returned (), p, w)
  | item :: rest =>
      match add_data item p w with
      | (Returned _, p', w') => add_all rest p' w'
      | (Raised e, p', w') => (Raised e, p', w')
      end
  end.

(** A file system on which no write fails. *)
Definition healthy (w : World) : Prop :=
  open_denied w = false ∧ room w = None.

(** Number of times a file was opened in a sequence of events. *)
Definition opens (evs : list io_event) : nat :=
  length (evs ≫= (λ ev, match ev with
                        | Opened filename => [filename]
                        | _ => []
                        end)).

(** The records among the rows of a file. *)
Definition data_cells (rows : list csv_row) : list (list pyval) :=
  rows ≫= (λ row, match row with
                  | DataRow cells => [cells]
                  | HeaderRow _ => []
                  | CutRow _ _ => []
                  end).

(** The records the writer has taken and not dropped: those in the file
    and those in the queue. *)
Definition pending (p : DataPipeline) (w : World) : list (list pyval) :=
  data_cells (file_rows w (csv_filename p)) ++ (asdict <$> storage_queue p).

(** The records [add_data] lets through, [seen] being [names_seen]. *)
Fixpoint accepted (seen : list pyval) (items : list SearchData) : list SearchData :=
  match items with
  | [] => []
  | item :: rest =>
      if bool_decide (name item ∈ seen) then accepted seen rest
      else item :: accepted (seen ++ [name item]) rest
  end.

(** The claim that a flush that fails loses no record, in its weakest
    reading: each record of the queue is afterwards still in the queue (so
    that the flush can be tried again) or whole in the file. The exception that
    leaves [save_to_csv] carries the cause of the failure and names no
    record. *)
Definition failed_flush_keeps_records (p : DataPipeline) (w : World) : Prop :=
  ∀ cause p' w' item,
    save_to_csv p w = (ContactFinder.Raised cause, p', w') →
    item ∈ storage_queue p →
    item ∈ storage_queue p'
    ∨ DataRow (asdict item) ∈ file_rows w' (csv_filename p).

(** Following the words of the specification: of the records sharing a
    key the first one stays, the later ones go. *)
Fixpoint first_seen_wins (items : list SearchData) : list SearchData :=
  match items with
  | [] => []
  | item :: rest =>
      item :: filter (λ x, name x ≠ name item) (first_seen_wins rest)
  end.

End ScrapYelp.

(* ===================================================================== *)
(** ** The email pattern in the words of the specification *)
(* ===================================================================== *)

(** [local-part@domain.tld]: a local part of one or more letters, digits
    or [._%+-]; a domain of one or more letters, digits or [.-]; a final
    label of two or more letters. *)
Definition is_email (m : str) : Prop :=
  ∃ local_part domain tld,
    m = local_part ++ "@"%char :: domain ++ "."%char :: tld
    ∧ local_part ≠ []
    ∧ Forall (λ a, class_mem LOCAL_CLASS a = true) local_part
    ∧ domain ≠ []
    ∧ Forall (λ a, class_mem DOMAIN_CLASS a = true) domain
    ∧ 2 ≤ length tld
    ∧ Forall (λ a, class_mem LETTER_CLASS a = true) tld.

(** [m] occurs in [texto] at offset [i]. *)
Definition occurs_at (i : nat) (m texto : str) : Prop :=
  ∃ post, drop i texto = m ++ post ∧ i ≤ length texto.

(** The target of a [mailto:] anchor in the words of the specification:
    the prefix stripped, the query component removed, trimmed,
    lower-cased. *)
Definition mailto_target (href : str) : str :=
  lower (strip (before_first "?" (drop (length $"mailto:") href))).

(** An anchor the first loop of the fast path accepts. *)
Definition valid_mailto (href : str) : Prop :=
  startswith $"mailto:" (lower href) = true ∧ is_email (mailto_target href).

(** The four ways a URL that [FACEBOOK_PROFILE_REGEX] accepts may start. *)
Definition FACEBOOK_ROOTS : list str :=
  [ $"http://facebook.com/"; $"http://www.facebook.com/";
    $"https://facebook.com/"; $"https://www.facebook.com/" ].

(** What the loop of [buscar_facebook_links_en_html] checks before it
    keeps the link [u], [hrefs] being the anchors gone through. *)
Definition kept (E : Env) (hrefs : list str) (base_url u : str) : Prop :=
  (∃ href, href ∈ hrefs ∧ urljoin E base_url href = Some u)
  ∧ is_Some (py_match FACEBOOK_PROFILE_REGEX u)
  ∧ ∃ parsed, urlparse E u = Some parsed
      ∧ strip_chars $"/" (path parsed) ≠ []
      ∧ strip_chars $"/" (path parsed) ∉ GENERIC_FACEBOOK_PATHS.

(** An anchor at which the loop of [buscar_facebook_links_en_html] raises:
    its [href] cannot be joined to the base URL, or the joined URL matches
    the pattern and cannot be parsed. *)
Definition breaks (E : Env) (base_url href : str) : Prop :=
  urljoin E base_url href = None
  ∨ ∃ u, urljoin E base_url href = Some u
      ∧ is_Some (py_match FACEBOOK_PROFILE_REGEX u) ∧ urlparse E u = None.

(** The email the deep path finds on the page at [url], if the page loads
    and has one. *)
Definition page_email (E : Env) (url : str) : option str :=
  driver_page_source E url ≫= _extraer_primer_email_valido_de_texto.

(** The candidate URLs of the deep path in the configured order, when
    they can all be built. *)
Definition configured_candidates (E : Env) (base_url : str)
    : ContactFinder.outcome (list str) :=
  match ContactFinder.with_scheme E base_url with
  | ContactFinder.Returned base_url =>
      ContactFinder.join_paths E base_url COMMON_CONTACT_PATHS
  | ContactFinder.Raised e => ContactFinder.Raised e
  end.

(** The claim that the deep path goes through the candidates in the
    configured order: what was visited is an initial part of the list. *)
Definition visits_in_configured_order (E : Env) (base_url : str) : Prop :=
  ∀ st candidates,
    ContactFinder.deep_search E base_url = ContactFinder.Returned st →
    configured_candidates E base_url = ContactFinder.Returned candidates →
    ContactFinder.visited st `prefix_of` candidates.

(** The resolution of the record raises: its website passes
    [is_valid_website], the fast path finds nothing, a driver is at hand,
    and the candidate URLs of the deep path cannot all be built. *)
Definition deep_path_breaks (E : Env) (business : gmap str json) (cause : str) : Prop :=
  ∃ url, business !! $"website" = Some (JStr url)
    ∧ ContactFinder.is_valid_website (Some (JStr url)) = true
    ∧ truthy (ContactFinder.buscar_primer_email_con_requests E url) = false
    ∧ driver_available E = true
    ∧ configured_candidates E url = ContactFinder.Raised cause.

(** The three fields the stage adds. *)
Definition NEW_KEYS : list str :=
  [ ContactFinder.EMAIL_KEY; ContactFinder.LINKS_KEY; ContactFinder.METHOD_KEY ].



(* ===================================================================== *)
(** ** Sample environments *)
(* ===================================================================== *)

Module Demo.

(** [urljoin] for a base of the form [scheme://host] and a reference that
    is empty, an absolute [http(s)] URL, or one relative path segment. *)
Definition join (base ref : str) : str :=
  match ref with
  | [] => base
  | _ => if startswith $"http://" ref || startswith $"https://" ref then ref
         else base ++ "/"%char :: ref
  end.

(** [urlparse(u).path] for [scheme://host/path?query#fragment]. *)
Definition path_of (u : str) : str :=
  match after_first $"://" u with
  | Some rest =>
      before_first "#" (before_first "?" (drop (length (before_first "/" rest)) rest))
  | None => before_first "#" (before_first "?" u)
  end.

(** [urlparse(u).scheme] for such a URL. *)
Definition scheme_of (u : str) : str :=
  match after_first $"://" u with
  | Some _ => before_first ":" u
  | None => []
  end.

(** A URL with a bracket that opens and none that closes, as
    [http://[]: [urlparse] and [urljoin] raise on it. *)
Definition unclosed (u : str) : bool :=
  bool_decide ("["%char ∈ u) && bool_decide ("]"%char ∉ u).

Definition parse (u : str) : option ParseResult :=
  if unclosed u then None
  else Some {| scheme := scheme_of u; path := path_of u |}.

Definition join_checked (base ref : str) : option str :=
  if unclosed base || unclosed ref then None else Some (join base ref).

(** No network, no browser, no files. *)
Definition offline : Env :=
  {| urljoin := join_checked;
     urlparse := parse;
     find_all_a_href := λ _, [];
     session_get := λ _, None;
     driver_page_source := λ _, None;
     list_of_set := elements;
     driver_available := false;
     json_load := λ _, FileNotFoundError $"No such file or directory";
     json_dump := λ _ _, Dumped |}.

(** A page with a share button, the profile of the business (twice) and
    the bare root of the social site. *)
Definition acme_about : Env :=
  {| urljoin := join_checked;
     urlparse := parse;
     find_all_a_href :=
       λ _, [ $"https://www.facebook.com/sharer/sharer.php?u=acme";
              $"https://www.facebook.com/acmedental/";
              $"team";
              $"https://www.facebook.com/acmedental/";
              $"https://www.facebook.com/profile.php" ];
     session_get := λ _, None;
     driver_page_source := λ _, None;
     list_of_set := elements;
     driver_available := false;
     json_load := λ _, FileNotFoundError $"No such file or directory";
     json_dump := λ _ _, Dumped |}.

(** A browser on which every page loads and none shows an address; the
    two environments differ in the order in which a set is enumerated. *)
Definition browser : Env :=
  {| urljoin := join_checked;
     urlparse := parse;
     find_all_a_href := λ _, [];
     session_get := λ _, None;
     driver_page_source := λ _, Some $"<html><body>Welcome</body></html>";
     list_of_set := elements;
     driver_available := true;
     json_load := λ _, FileNotFoundError $"No such file or directory";
     json_dump := λ _ _, Dumped |}.

Definition browser_rev : Env :=
  {| urljoin := join_checked;
     urlparse := parse;
     find_all_a_href := λ _, [];
     session_get := λ _, None;
     driver_page_source := λ _, Some $"<html><body>Welcome</body></html>";
     list_of_set := λ X, reverse (elements X);
     driver_available := true;
     json_load := λ _, FileNotFoundError $"No such file or directory";
     json_dump := λ _ _, Dumped |}.



(** A record whose website has a bracketed host that is not closed, and
    an input file made of it, read with a browser at hand. *)
Definition bracket_record : gmap str json :=
  <[ $"nombre" := JStr $"Acme Dental" ]>
    (<[ $"website" := JStr $"http://[" ]> ∅).

Definition bracket : Env :=
  {| urljoin := join_checked;
     urlparse := parse;
     find_all_a_href := λ _, [];
     session_get := λ _, None;
     driver_page_source := λ _, None;
     list_of_set := elements;
     driver_available := true;
     json_load := λ _, Loaded (JArr (JObj <$> [bracket_record]));
     json_dump := λ _ _, Dumped |}.

(** Two records of the crawl, a writer that has them in its queue, and
    the devices: one that takes every write, one that refuses [open],
    one with room for two more rows, one with a quota of bytes. *)
Definition acme_item : ScrapYelp.SearchData :=
  ScrapYelp.new_SearchData (ScrapYelp.PStr $"Acme Dental")
    (ScrapYelp.PStr $"https://www.yelp.com/biz/acme-dental").

Definition bright_item : ScrapYelp.SearchData :=
  ScrapYelp.new_SearchData (ScrapYelp.PStr $"Bright Smiles")
    (ScrapYelp.PStr $"https://www.yelp.com/biz/bright-smiles").

Definition gentle_item : ScrapYelp.SearchData :=
  ScrapYelp.new_SearchData (ScrapYelp.PStr $"Gentle Care")
    (ScrapYelp.PStr $"https://www.yelp.com/biz/gentle-care").

Definition queued : ScrapYelp.DataPipeline :=
  {| ScrapYelp.names_seen := [ScrapYelp.name acme_item; ScrapYelp.name bright_item];
     ScrapYelp.storage_queue := [acme_item; bright_item];
     ScrapYelp.storage_queue_limit := 50;
     ScrapYelp.csv_filename := $"Chiropractors.csv";
     ScrapYelp.csv_file_open := false |}.

Definition blank_disk : ScrapYelp.World :=
  {| ScrapYelp.files := ∅; ScrapYelp.trace := [];
     ScrapYelp.open_denied := false; ScrapYelp.room := None |}.

Definition read_only : ScrapYelp.World :=
  {| ScrapYelp.files := ∅; ScrapYelp.trace := [];
     ScrapYelp.open_denied := true; ScrapYelp.room := None |}.

Definition nearly_full : ScrapYelp.World :=
  {| ScrapYelp.files := ∅; ScrapYelp.trace := [];
     ScrapYelp.open_denied := false; ScrapYelp.room := Some (2, 0) |}.

(** A device with a quota: room for the header and for the first thirty
    bytes of the next line. *)
Definition quota : ScrapYelp.World :=
  {| ScrapYelp.files := ∅; ScrapYelp.trace := [];
     ScrapYelp.open_denied := false; ScrapYelp.room := Some (1, 30) |}.

(** The home page of a dentist: a [mailto:] anchor, and the address of the
    hosting company in the footer. *)
Definition acme_home : response :=
  {| content := $"<a href=/about>About</a> <a href=MAILTO:...>Mail us</a>";
     text := $"<a href=/about>About</a> <a href=MAILTO:...>Mail us</a> webmaster@hosting.example" |}.

Definition acme : Env :=
  {| urljoin := join_checked;
     urlparse := parse;
     find_all_a_href :=
       λ _, [ $"/about"; $"MAILTO:Info@Acme-Dental.Example?subject=Hello" ];
     session_get := λ _, Some acme_home;
     driver_page_source := λ _, None;
     list_of_set := elements;
     driver_available := false;
     json_load := λ _, FileNotFoundError $"No such file or directory";
     json_dump := λ _ _, Dumped |}.

End Demo.


(* ===================================================================== *)
(** ** Further notions for the batch writer *)
(* ===================================================================== *)

Module Writer.
Import ScrapYelp.

(** The rows of the CSV file once [records] have been flushed to a file
    that had the rows [old], in any number of flushes: the header comes
    first when the file had no row, and only then. *)
Definition rows_after (old : list csv_row) (records : list SearchData) : list csv_row :=
  match records with
  | [] => old
  | _ :: _ => old ++ batch (bool_decide (old = [])) records
  end.

(** A string of white space only. *)
Definition blank (s : str) : Prop := Forall (λ c, is_space c = true) s.

End Writer.

(** A valid address in lower case. *)
Definition neat (e : str) : Prop := is_email e ∧ lower e = e.

(** A link the social-link extractor returns for one of the pages at
    [urls] that load, the page being read against its own URL. *)
Definition found_on (E : Env) (urls : list str) (u : str) : Prop :=
  ∃ url page_source links,
    url ∈ urls ∧ driver_page_source E url = Some page_source
    ∧ ContactFinder.buscar_facebook_links_en_html E page_source url
      = ContactFinder.Returned links
    ∧ u ∈ links.

(** [results] are the entries of [records], one per record and in order,
    the resolution of every record returning. *)
Definition entries_of (E : Env) (records results : list (gmap str json)) : Prop :=
  Forall2 (λ business entry,
             ContactFinder.result_entry E business = ContactFinder.Returned entry)
    records results.

(** The resolution of the record returns with an email. *)
Definition email_found (E : Env) (business : gmap str json) : bool :=
  match ContactFinder.resolve E business with
  | ContactFinder.Returned (Some _, _, _) => true
  | _ => false
  end.

Module Demo2.

(** A site whose pages show no address; every page that loads has the
    anchors of [Demo.acme_about], and the contact page does not load. *)
Definition social : Env :=
  {| urljoin := Demo.join_checked;
     urlparse := Demo.parse;
     find_all_a_href := find_all_a_href Demo.acme_about;
     session_get := λ _, Some {| content := $"<html>"; text := $"<html>" |};
     driver_page_source :=
       λ url, if bool_decide (url = $"http://acme.example/contact") then None
              else Some $"<html><body>Follow us</body></html>";
     list_of_set := elements;
     driver_available := true;
     json_load := λ _, FileNotFoundError $"No such file or directory";
     json_dump := λ _ _, Dumped |}.

End Demo2.

(** The loaded values the loop of [procesar_negocios] goes through without
    raising, with the records it sees: an array of objects, or an empty
    object or an empty string (no record at all). *)
Definition read_as (v : json) (records : list (gmap str json)) : Prop :=
  v = JArr (JObj <$> records)
  ∨ (records = [] ∧ (v = JObj ∅ ∨ v = JStr [])).

(* ===================================================================== *)
(** ** Convert_json_to_csv.py *)
(* ===================================================================== *)

Module ConvertCsv.
Import ContactFinder.

(** [s.split(c)] *)
Fixpoint split (c : ascii) (s : str) : list str :=
  match s with
  | [] => [[]]
  | a :: s' =>
      if bool_decide (a = c) then [] :: split c s'
      else match split c s' with
           | part :: parts => (a :: part) :: parts
           | [] => [[a]]
           end
  end.

(** The dictionary [parse_address_details_specific] returns. *)
Record address_details := { street : str; unit : str; city : str }.

Definition parse_address_details_specific (full_address_str : json) : address_details :=
  match full_address_str with
  | JStr (c :: s) =>
      let parts := strip <$> split "," (c :: s) in
      let part i := nth i parts [] in
      let '(street, unit, city) :=
        if bool_decide (length parts = 4)
           && (startswith $"suite" (lower (part 1))
               || startswith $"ste" (lower (part 1)))
        then (part 0, part 1, part 2)
        else if bool_decide (3 ≤ length parts) then (part 0, [], part 1)
        else if bool_decide (length parts = 2) then (part 0, [], part 1)
        else if bool_decide (length parts = 1) then (part 0, [], [])
        else ([], [], []) in
      {| street := strip street; unit := strip unit; city := strip city |}
  | _ => {| street := []; unit := []; city := [] |}
  end.

(** One row of the report, under the columns of [CSV_COLUMNS]. *)
Record csv_record := {
  col_name : json;
  col_address : str;
  col_unit : str;
  col_city : str;
  col_email : json;
  col_phone : json
}.

Inductive csv_line :=
| Header (columns : list str)
| Line (record : csv_record).

Definition CSV_COLUMNS : list str :=
  [ $"Name"; $"Address"; $"unit number"; $"city"; $"email"; $"phone number" ].

(** [business.get(key, default)] *)
Definition get (business : gmap str json) (key : str) (default_ : json) : json :=
  default default_ (business !! key).

(** The test [email and email.strip()], [email] being
    [business.get("email_encontrado")]: a value that is true and is not a
    string has no [strip]. *)
Definition has_email (email : option json) : outcome bool :=
  match email with
  | None | Some JNull | Some (JBool false) | Some (JNum 0) | Some (JArr []) =>
      Returned false
  | Some (JStr s) => Returned (bool_decide (s ≠ []) && bool_decide (strip s ≠ []))
  | Some (JObj m) =>
      match map_to_list m with
      | [] => Returned false
      | _ :: _ => Raised $"AttributeError"
      end
  | Some _ => Raised $"AttributeError"
  end.

(** The dictionary appended to [records_for_csv]. *)
Definition record_of (business : gmap str json) : csv_record :=
  let address_details :=
    parse_address_details_specific (get business $"direccion" (JStr [])) in
  {| col_name := get business $"nombre" (JStr []);
     col_address := street address_details;
     col_unit := unit address_details;
     col_city := city address_details;
     col_email := get business $"email_encontrado" JNull;
     col_phone := get business $"telefono" (JStr []) |}.

(** The loop over [business_data]. *)
Fixpoint collect (include_all : bool) (business_data : list json)
    : outcome (list csv_record) :=
  match business_data with
  | [] => Returned []
  | JObj business :: rest =>
      let keep :=
        if include_all then Returned true
        else has_email (business !! $"email_encontrado") in
      match keep, collect include_all rest with
      | Returned true, Returned records => Returned (record_of business :: records)
      | Returned false, Returned records => Returned records
      | Raised e, _ => Raised e
      | _, Raised e => Raised e
      end
  | _ :: _ => Raised $"AttributeError"
  end.

(** The files of the conversion: reading the input, and writing the
    report ([None] when [open] and the writer go through, otherwise the
    text of the exception). *)
Record Files := {
  load : str -> load_result;
  dump : str -> list csv_line -> option str
}.

(** What a call leaves: how it ended and the report, if written. *)
Record conversion := {
  returned : outcome bool;
  report : option (list csv_line)
}.

Definition convertir_json_a_csv (F : Files) (input_json_file output_csv_file : str)
    (include_all : bool) : conversion :=
  match load F input_json_file with
  | FileNotFoundError _ | JSONDecodeError _ =>
      {| returned := Returned false; report := None |}
  | OtherLoadError cause => {| returned := Raised cause; report := None |}
  | Loaded business_data =>
      match iterate business_data with
      | Raised e => {| returned := Raised e; report := None |}
      | Returned businesses =>
          match collect include_all businesses with
          | Raised e => {| returned := Raised e; report := None |}
          | Returned records_for_csv =>
              let lines := Header CSV_COLUMNS :: (Line <$> records_for_csv) in
              match dump F output_csv_file lines with
              | None => {| returned := Returned true; report := Some lines |}
              | Some _ => {| returned := Returned false; report := None |}
              end
          end
      end
  end.


(** A record of the input that the default mode keeps: its email is a
    string with something other than white space in it. *)
Definition with_email (business : gmap str json) : Prop :=
  ∃ s, business !! $"email_encontrado" = Some (JStr s) ∧ ¬ Writer.blank s.

Global Instance with_email_dec business : Decision (with_email business).
Proof.
  unfold with_email.
  destruct (business !! $"email_encontrado") as [[| | |s| |]|];
    try (right; by intros (? & [=] & _)).
  destruct (decide (Writer.blank s)) as [Hb|Hb].
  - right. by intros (? & [= <-] & ?).
  - left. by exists s.
Defined.

(** The email of a record is absent, null or a string: the records on
    which [has_email] does not raise, as far as the stages of this
    repository produce them. *)
Definition plain_email (business : gmap str json) : Prop :=
  match business !! $"email_encontrado" with
  | None | Some JNull | Some (JStr _) => True
  | _ => False
  end.

(** Number of occurrences of a character. *)
Definition count_char (c : ascii) (s : str) : nat :=
  length (filter (λ a, a = c) s).

End ConvertCsv.

Module Demo3.

(** Two entries as the contact finder writes them, and files holding
    them. *)
Definition found : gmap str json :=
  <[ $"nombre" := JStr $"Acme Dental" ]>
    (<[ $"direccion" := JStr $"1450 Post Rd, Suite 4, Fairfield, CT 06824" ]>
      (<[ $"email_encontrado" := JStr $"info@acme-dental.example" ]> ∅)).

Definition not_found : gmap str json :=
  <[ $"nombre" := JStr $"Bright Smiles" ]>
    (<[ $"direccion" := JStr $"12 Main St, Norwalk, CT 06850" ]>
      (<[ $"email_encontrado" := JNull ]> ∅)).

Definition files : ConvertCsv.Files :=
  {| ConvertCsv.load := λ _, Loaded (JArr (JObj <$> [found; not_found]));
     ConvertCsv.dump := λ _ _, None |}.

(** Files that hold the results [results] of the contact finder. *)
Definition after (results : list (gmap str json)) : ConvertCsv.Files :=
  {| ConvertCsv.load := λ _, Loaded (JArr (JObj <$> results));
     ConvertCsv.dump := λ _ _, None |}.

(** Two records of the crawler, the first with a website whose home page
    has a [mailto:] anchor, and the contact finder reading them. *)
Definition acme_listing : gmap str json :=
  <[ $"nombre" := JStr $"Acme Dental" ]>
    (<[ $"direccion" := JStr $"1450 Post Rd, Fairfield, CT 06824" ]>
      (<[ $"website" := JStr $"https://acme-dental.example" ]> ∅)).

Definition bright_listing : gmap str json :=
  <[ $"nombre" := JStr $"Bright Smiles" ]>
    (<[ $"direccion" := JStr $"12 Main St, Norwalk, CT 06850" ]>
      (<[ $"website" := JStr $"No encontrado" ]> ∅)).

Definition finder : Env :=
  {| urljoin := Demo.join_checked;
     urlparse := Demo.parse;
     find_all_a_href := find_all_a_href Demo.acme;
     session_get := session_get Demo.acme;
     driver_page_source := λ _, None;
     list_of_set := elements;
     driver_available := false;
     json_load := λ _, Loaded (JArr (JObj <$> [acme_listing; bright_listing]));
     json_dump := λ _ _, Dumped |}.

End Demo3.

(* ===================================================================== *)
(** ** YellowPagesCrawler.py *)
(* ===================================================================== *)

Module Crawler.
Import ContactFinder.

(** A listing card as the functions use it: for a CSS selector, the text
    of the first element it finds and the value of its [href]; the outer
    [None] is [NoSuchElementException], the inner one an element without
    the attribute. *)
Record listing := {
  element_text : str -> option str;
  element_href : str -> option (option str)
}.

Definition BUSINESS_NAME_SELECTOR : str := $"a.business-name".
Definition PHONE_SELECTOR_PRIMARY : str := $"div.phones.phone.primary".
Definition PHONE_SELECTOR_FALLBACK : str := $"div.phone".
Definition STREET_ADDRESS_SELECTOR : str := $"div.street-address".
Definition LOCALITY_SELECTOR : str := $"div.locality".
Definition ADDRESS_FALLBACK_SELECTOR : str := $".adr".
Definition WEBSITE_LINK_SELECTOR : str := $"a.track-visit-website".

(** The default of both helpers. *)
Definition NO_ENCONTRADO : str := $"No encontrado".

Definition _safe_find_text (element : listing) (value default_ : str) : str :=
  match element_text element value with
  | Some t => strip t
  | None => default_
  end.

Definition _safe_get_attribute (element : listing) (value default_ : str) : str :=
  match element_href element value with
  | Some (Some attr_value) =>
      if truthy (Some attr_value) && truthy (Some (strip attr_value))
      then strip attr_value else default_
  | Some None => default_
  | None => default_
  end.

(** [s.replace(c, by)] for a one-character [c]. *)
Definition replace_char (c : ascii) (by_ : str) (s : str) : str :=
  s ≫= (λ a, if bool_decide (a = c) then by_ else [a]).

(** The dictionary [extract_listing_data] returns; [pagina_origen] is
    the key the main loop adds. *)
Record listing_data := {
  nombre : str;
  telefono : str;
  direccion : str;
  website : str
}.

Definition extract_listing_data (l : listing) : listing_data :=
  let name := _safe_find_text l BUSINESS_NAME_SELECTOR NO_ENCONTRADO in
  let phone := _safe_find_text l PHONE_SELECTOR_PRIMARY NO_ENCONTRADO in
  let phone :=
    if bool_decide (phone = $"No encontrado")
    then _safe_find_text l PHONE_SELECTOR_FALLBACK NO_ENCONTRADO else phone in
  let street := _safe_find_text l STREET_ADDRESS_SELECTOR NO_ENCONTRADO in
  let locality := _safe_find_text l LOCALITY_SELECTOR NO_ENCONTRADO in
  let address :=
    if bool_decide (street ≠ $"No encontrado") && bool_decide (locality ≠ $"No encontrado")
    then street ++ $", " ++ locality
    else replace_char "010" $", "
           (_safe_find_text l ADDRESS_FALLBACK_SELECTOR NO_ENCONTRADO) in
  let website := _safe_get_attribute l WEBSITE_LINK_SELECTOR NO_ENCONTRADO in
  {| nombre := name; telefono := phone; direccion := address; website := website |}.

(** The record as the JSON object written to the output file. *)
Definition to_json (entry : listing_data * Z) : gmap str json :=
  <[ $"pagina_origen" := JNum entry.2 ]>
    (<[ $"website" := JStr (website entry.1) ]>
      (<[ $"direccion" := JStr (direccion entry.1) ]>
        (<[ $"telefono" := JStr (telefono entry.1) ]>
          (<[ $"nombre" := JStr (nombre entry.1) ]> ∅)))).

(** [f'{nombre}-{telefono}-{direccion}'] *)
Definition fingerprint (d : listing_data) : str :=
  nombre d ++ $"-" ++ telefono d ++ $"-" ++ direccion d.

(** What the browser does for the main loop. *)
Inductive page_outcome :=
| Listings (cards : list listing)   (* the cards [find_elements] returns *)
| WaitTimeout                       (* no card within the wait *)
| PageError (cause : str).          (* any other exception *)

Inductive button_outcome :=
| Button (raw_href : option str)    (* the [href] of the next button *)
| NoButton                          (* [TimeoutException] *)
| ButtonError (cause : str).

Record Browser := {
  (** the driver could be started *)
  driver_starts : bool;
  (** [driver.get(get_scrapeops_url(url))], the wait and [find_elements] *)
  open_listings : str -> page_outcome;
  (** the search for the button of page [n], on the page at [url] *)
  next_button : str -> Z -> button_outcome;
  (** [unquote(parse_qs(urlparse(raw_href).query)['url'][0])], if the
      query has that parameter *)
  proxied_target : str -> option str;
  (** [urljoin(BASE_YP_URL, raw_href)] *)
  join_base : str -> str;
  (** writing the output file: [None] when it goes through *)
  dump_json : str -> list (gmap str json) -> option str
}.

(** [sub in s] *)
Fixpoint contains (sub s : str) : bool :=
  startswith sub s ||
  match s with
  | [] => false
  | _ :: s' => contains sub s'
  end.

Record crawl_state := {
  extracted_data : list (listing_data * Z);
  processed_business_fingerprints : gset str;
  opened : list str
}.

(** One turn of the loop over the cards. *)
Definition process_listing (current_page : Z) (st : crawl_state) (card : listing)
    : crawl_state :=
  let data := extract_listing_data card in
  if bool_decide (fingerprint data ∉ processed_business_fingerprints st) then
    {| extracted_data := extracted_data st ++ [(data, current_page)];
       processed_business_fingerprints :=
         processed_business_fingerprints st ∪ {[ fingerprint data ]};
       opened := opened st |}
  else st.

(** The value of [next_page_url] after the pagination block; [None] with
    a cause is an exception that ends the loop. *)
Definition next_url (B : Browser) (url : str) (current_page : Z)
    : outcome (option str) :=
  match next_button B url (current_page + 1) with
  | Button (Some raw_href) =>
      if truthy (Some raw_href) then
        if contains $"proxy.scrapeops.io" raw_href
        then Returned (proxied_target B raw_href)
        else Returned (Some (join_base B raw_href))
      else Returned None
  | Button None => Returned None
  | NoButton => Returned None
  | ButtonError cause => Raised cause
  end.

(** The [while] loop; [fuel] bounds the number of turns. *)
Fixpoint crawl_pages (B : Browser) (max_pages : Z) (fuel : nat)
    (current_page : Z) (next_page_url : option str) (st : crawl_state)
    : crawl_state :=
  match fuel with
  | 0 => st
  | S fuel' =>
      match next_page_url with
      | Some url =>
          if bool_decide (current_page ≤ max_pages)%Z && truthy (Some url) then
            let st := {| extracted_data := extracted_data st;
                         processed_business_fingerprints :=
                           processed_business_fingerprints st;
                         opened := opened st ++ [url] |} in
            match open_listings B url with
            | Listings cards =>
                let st := foldl (process_listing current_page) st cards in
                match next_url B url current_page with
                | Returned next => crawl_pages B max_pages fuel' (current_page + 1) next st
                | Raised _ => st
                end
            | WaitTimeout => st
            | PageError _ => st
            end
          else st
      | None => st
      end
  end.

(** What a run of the crawler leaves: the records, the pages opened, and
    the output file if written. *)
Record crawl := {
  records : list (listing_data * Z);
  pages : list str;
  written : option (list (gmap str json))
}.

Definition BASE_YP_URL : str := $"https://www.yellowpages.com".

(** The URL of the first page of results. *)
Definition initial_target_url (search_term location_term : str) : str :=
  BASE_YP_URL ++ $"/search?search_terms=" ++ replace_char " " $"+" search_term
  ++ $"&geo_location_terms=" ++ replace_char " " $"+" location_term.

(** [ejecutar_crawler_yp]. It returns in every case. *)
Definition ejecutar_crawler_yp (B : Browser) (search_term location_term : str)
    (max_pages : Z) (output_file : str) : crawl :=
  if driver_starts B then
    let st := crawl_pages B max_pages (Z.to_nat max_pages) 1
                (Some (initial_target_url search_term location_term))
                {| extracted_data := []; processed_business_fingerprints := ∅;
                   opened := [] |} in
    let out := to_json <$> extracted_data st in
    {| records := extracted_data st; pages := opened st;
       written :=
         match extracted_data st with
         | [] => None
         | _ :: _ =>
             match dump_json B output_file out with
             | None => Some out
             | Some _ => None
             end
         end |}
  else {| records := []; pages := []; written := None |}.

(** What the main loop keeps true: the set of fingerprints is that of the
    records, and no two records have the same fingerprint. *)
Definition fingerprints_ok (st : crawl_state) : Prop :=
  NoDup (fingerprint <$> (extracted_data st).*1)
  ∧ ∀ fp, fp ∈ processed_business_fingerprints st
          ↔ fp ∈ fingerprint <$> (extracted_data st).*1.

(** A record read from a card of a page of results, with a page number
    within the bounds. *)
Definition from_a_card (B : Browser) (max_pages : Z) (entry : listing_data * Z) : Prop :=
  (1 ≤ entry.2 ≤ max_pages)%Z
  ∧ ∃ url cards card, open_listings B url = Listings cards ∧ card ∈ cards
                      ∧ entry.1 = extract_listing_data card.

End Crawler.

Module Demo4.

(** A card with a name, a street, a locality and no website link. *)
Definition card : Crawler.listing :=
  {| Crawler.element_text :=
       λ value,
         if bool_decide (value = Crawler.BUSINESS_NAME_SELECTOR) then Some $"Acme Dental"
         else if bool_decide (value = Crawler.STREET_ADDRESS_SELECTOR)
              then Some $" 1450 Post Rd "
         else if bool_decide (value = Crawler.LOCALITY_SELECTOR)
              then Some $"Fairfield, CT 06824"
         else None;
     Crawler.element_href := λ _, None |}.

End Demo4.

(* ===================================================================== *)
(** ** main_pipeline.py *)
(* ===================================================================== *)

Module Orchestrator.

Definition YP_CRAWLER_SCRIPT : str := $"YellowPagesCrawler.py".
Definition SCRAP_FROM_JSON_SCRIPT : str := $"WebsiteContactFinder.py".
Definition CONVERT_JSON_TO_CSV_SCRIPT : str := $"Convert_json_to_csv.py".

(** How [subprocess.run] ends: the script ran and exited with a code, or
    an exception other than [CalledProcessError] (the interpreter not
    found, for instance). *)
Inductive run_outcome :=
| Exited (code : Z)
| NotLaunched (cause : str).

(** The system the orchestrator runs on: a command (script, then
    arguments), run where the paths [paths] exist, ends in some way and
    leaves some paths. *)
Record Shell := {
  run : list str -> gset str -> run_outcome * gset str
}.

(** [run_script]: true exactly when the script exits with code 0
    ([check=True] turns every other code into an exception). *)
Definition run_script (sh : Shell) (script_path : str) (args : list str)
    (paths : gset str) : bool * gset str :=
  match run sh (script_path :: args) paths with
  | (Exited 0, paths') => (true, paths')
  | (_, paths') => (false, paths')
  end.

(** [str(n)] *)
Definition decimal (n : Z) : str := list_ascii_of_string (pretty n).

(** [os.path.join("results", name)] *)
Definition in_results (name : str) : str := $"results/" ++ name.

Definition s_term_safe (search_term : str) : str :=
  lower (Crawler.replace_char " " $"_" search_term).

Definition l_term_safe (location_term : str) : str :=
  lower (Crawler.replace_char "," [] (Crawler.replace_char " " $"_" location_term)).

Definition yp_crawler_output_json (search_term location_term : str) : str :=
  in_results ($"step1_yp_data_" ++ s_term_safe search_term ++ $"_in_"
              ++ l_term_safe location_term ++ $".json").

Definition contact_finder_output_json (search_term location_term : str) : str :=
  in_results ($"step2_contacts_found_" ++ s_term_safe search_term ++ $"_in_"
              ++ l_term_safe location_term ++ $".json").

Definition final_csv_output (search_term location_term : str) : str :=
  in_results ($"step3_report_" ++ s_term_safe search_term ++ $"_in_"
              ++ l_term_safe location_term ++ $".csv").

(** The three commands, in order. *)
Definition crawler_command (search_term location_term : str) (max_pages : Z) : list str :=
  [ YP_CRAWLER_SCRIPT; search_term; location_term; decimal max_pages;
    yp_crawler_output_json search_term location_term ].

Definition finder_command (search_term location_term : str) : list str :=
  [ SCRAP_FROM_JSON_SCRIPT; yp_crawler_output_json search_term location_term;
    contact_finder_output_json search_term location_term ].

Definition converter_command (search_term location_term : str) : list str :=
  [ CONVERT_JSON_TO_CSV_SCRIPT; contact_finder_output_json search_term location_term;
    final_csv_output search_term location_term ].

(** What a run of the orchestrator leaves: its exit status, the commands
    it launched (oldest first) and the paths that exist. *)
Record pipeline_run := {
  status : Z;
  launched : list (list str);
  paths_after : gset str
}.

(** One step of [main]: [run_script] and the test that the output
    exists. *)
Definition stage (sh : Shell) (command : list str) (output : str) (paths : gset str)
    : bool * gset str :=
  match command with
  | script_path :: args =>
      let '(ok, paths') := run_script sh script_path args paths in
      (ok && bool_decide (output ∈ paths'), paths')
  | [] => (false, paths)
  end.

(** [main]; [os.makedirs("results", exist_ok=True)] leaves the directory
    in place. *)
Definition main (sh : Shell) (search_term location_term : str) (max_pages : Z)
    (paths : gset str) : pipeline_run :=
  let paths := paths ∪ {[ $"results" ]} in
  let c1 := crawler_command search_term location_term max_pages in
  let c2 := finder_command search_term location_term in
  let c3 := converter_command search_term location_term in
  let '(ok1, paths1) := stage sh c1 (yp_crawler_output_json search_term location_term) paths in
  if negb ok1 then {| status := 1; launched := [c1]; paths_after := paths1 |}
  else
    let '(ok2, paths2) :=
      stage sh c2 (contact_finder_output_json search_term location_term) paths1 in
    if negb ok2 then {| status := 1; launched := [c1; c2]; paths_after := paths2 |}
    else
      let '(ok3, paths3) := stage sh c3 (final_csv_output search_term location_term) paths2 in
      if negb ok3 then {| status := 1; launched := [c1; c2; c3]; paths_after := paths3 |}
      else {| status := 0; launched := [c1; c2; c3]; paths_after := paths3 |}.

(** The shell runs the contact finder as [ContactFinder.main] does in the
    environment [E]: the exit code is its status, and the only path it
    may add is its output file, when it creates or replaces it. *)
Definition runs_contact_finder (sh : Shell) (E : Env) : Prop :=
  ∀ input_file output_file paths,
    run sh [SCRAP_FROM_JSON_SCRIPT; input_file; output_file] paths
    = (Exited (ContactFinder.exit_status (ContactFinder.main E input_file output_file)),
       if ContactFinder.output_touched (ContactFinder.main E input_file output_file)
       then paths ∪ {[ output_file ]}
       else paths).

End Orchestrator.

(** The input of the contact finder gives it no record to work on: the
    file is missing or malformed, or holds no record. *)
Definition no_records (E : Env) (input_file : str) : Prop :=
  (∃ cause, json_load E input_file = FileNotFoundError cause
            ∨ json_load E input_file = JSONDecodeError cause)
  ∨ ∃ v, json_load E input_file = Loaded v ∧ read_as v [].

(** A command passes its stage: the script exits with code 0 and the
    output path exists afterwards. *)
Definition passes (sh : Orchestrator.Shell) (command : list str) (output : str)
    (paths : gset str) : Prop :=
  (Orchestrator.run sh command paths).1 = Orchestrator.Exited 0
  ∧ output ∈ (Orchestrator.run sh command paths).2.

(** The shell runs the crawler as [ejecutar_crawler_yp] does with the
    browser [B]: the script ends with code 0 in every case, and the only
    path it may add is its output file, when it writes it. *)
Definition runs_crawler (sh : Orchestrator.Shell) (B : Crawler.Browser) : Prop :=
  ∀ search_term location_term max_pages output_file paths,
    Orchestrator.run sh
      [Orchestrator.YP_CRAWLER_SCRIPT; search_term; location_term;
       Orchestrator.decimal max_pages; output_file] paths
    = (Orchestrator.Exited 0,
       match Crawler.written
               (Crawler.ejecutar_crawler_yp B search_term location_term max_pages output_file) with
       | Some _ => paths ∪ {[ output_file ]}
       | None => paths
       end).

Module Demo5.

(** The crawler's file holds an empty array. *)
Definition empty_input : Env :=
  {| urljoin := Demo.join_checked;
     urlparse := Demo.parse;
     find_all_a_href := λ _, [];
     session_get := λ _, None;
     driver_page_source := λ _, None;
     list_of_set := elements;
     driver_available := false;
     json_load := λ _, Loaded (JArr []);
     json_dump := λ _ _, Dumped |}.

(** A system on which the crawler exits with code 0 and leaves its output
    file, the contact finder behaves as in [empty_input], and any other
    command fails. *)
Definition shell : Orchestrator.Shell :=
  {| Orchestrator.run := λ command paths,
       match command with
       | script :: args =>
           if bool_decide (script = Orchestrator.YP_CRAWLER_SCRIPT) then
             (Orchestrator.Exited 0, paths ∪ {[ default [] (last args) ]})
           else if bool_decide (script = Orchestrator.SCRAP_FROM_JSON_SCRIPT) then
             match args with
             | [input_file; output_file] =>
                 (Orchestrator.Exited
                    (ContactFinder.exit_status
                       (ContactFinder.main empty_input input_file output_file)),
                  if ContactFinder.output_touched
                       (ContactFinder.main empty_input input_file output_file)
                  then paths ∪ {[ output_file ]}
                  else paths)
             | _ => (Orchestrator.Exited 2, paths)
             end
           else (Orchestrator.Exited 1, paths)
       | [] => (Orchestrator.NotLaunched $"no command", paths)
       end |}.

(** A browser that cannot be started. *)
Definition no_browser : Crawler.Browser :=
  {| Crawler.driver_starts := false;
     Crawler.open_listings := λ _, Crawler.WaitTimeout;
     Crawler.next_button := λ _ _, Crawler.NoButton;
     Crawler.proxied_target := λ _, None;
     Crawler.join_base := λ raw_href, raw_href;
     Crawler.dump_json := λ _ _, None |}.

(** A system on which the crawler runs with [no_browser] and every other
    command fails. *)
Definition crawler_shell : Orchestrator.Shell :=
  {| Orchestrator.run := λ command paths,
       match command with
       | [script; search_term; location_term; _; output_file] =>
           if bool_decide (script = Orchestrator.YP_CRAWLER_SCRIPT) then
             (Orchestrator.Exited 0,
              match Crawler.written
                      (Crawler.ejecutar_crawler_yp no_browser search_term location_term 1
                         output_file) with
              | Some _ => paths ∪ {[ output_file ]}
              | None => paths
              end)
           else (Orchestrator.Exited 1, paths)
       | _ => (Orchestrator.Exited 2, paths)
       end |}.

End Demo5.

(* ===================================================================== *)
(** ** ScrapYelp.py: [scrape_search_results] *)
(* ===================================================================== *)

Module Scraper.
Import ContactFinder ScrapYelp.

(** [s.replace(old, new)] for a non-empty [old]: the occurrences of [old]
    are taken from the left and do not overlap. *)
Fixpoint replace_from (fuel : nat) (old new s : str) : str :=
  match fuel with
  | 0 => s
  | S fuel' =>
      if startswith old s
      then new ++ replace_from fuel' old new (drop (length old) s)
      else match s with
           | [] => []
           | a :: s' => a :: replace_from fuel' old new s'
           end
  end.

Definition replace (old new s : str) : str :=
  replace_from (S (length s)) old new s.

(** What the browser gives for one card: the [alt] of its image and the
    [href] of its link, or the exception of a [find_element] that finds
    nothing. *)
Inductive card :=
| Card (alt : pyval) (href : option str)
| NoSuchElement (cause : str).

(** One turn of the [while] loop, as the browser decides it. *)
Inductive attempt :=
| Fetched (div_cards : list card)   (* the cards [find_elements] returns *)
| FetchError (cause : str)          (* [driver.get] or [find_elements] raises *)
| NoDriver (cause : str).           (* [webdriver.Chrome] raises, outside the [try] *)

Record Yelp := {
  get_scrapeops_url : str -> str;
  (** the [n]-th turn of the loop of one call, for the page at [url] *)
  driver_get : str -> nat -> attempt
}.

(** The body of the loop over the cards, up to the record it builds; a
    link without [href] makes [.replace] raise. *)
Definition search_data (c : card) : outcome SearchData :=
  match c with
  | Card title (Some href) =>
      let link := replace $"https://proxy.scrapeops.io" [] href in
      Returned (new_SearchData title (PStr ($"https://www.yelp.com" ++ link)))
  | Card _ None => Raised $"AttributeError"
  | NoSuchElement cause => Raised cause
  end.

(** The loop over the cards; an exception ends it. *)
Fixpoint parse_cards (div_cards : list card) (data_pipeline : option DataPipeline)
    (w : World) : outcome unit * option DataPipeline * World :=
  match div_cards with
  | [] => (Returned (), data_pipeline, w)
  | c :: rest =>
      match search_data c with
      | Raised e => (Raised e, data_pipeline, w)
      | Returned item =>
          match data_pipeline with
          | Some p =>
              match add_data item p w with
              | (Returned _, p', w') => parse_cards rest (Some p') w'
              | (Raised e, p', w') => (Raised e, Some p', w')
              end
          | None => parse_cards rest None w
          end
      end
  end.

Definition base_url (keyword location : str) (page_number : Z) : str :=
  $"https://www.yelp.com/search?find_desc=" ++ Crawler.replace_char " " $"+" keyword
  ++ $"&find_loc=" ++ location ++ $"&start=" ++ Orchestrator.decimal (page_number * 10).

Definition MAX_RETRIES_EXCEEDED (retries : Z) : str :=
  $"Max Retries exceeded: " ++ Orchestrator.decimal retries.

(** The [while] loop and the [raise] that follows it. [fuel] bounds the
    number of times the condition is evaluated, and the result is [None]
    when the loop is still running after that many turns; [n] counts the
    turns. The source never assigns [tries] in the loop, so [tries] is
    passed on as it is. *)
Fixpoint attempts (Y : Yelp) (url : str) (retries tries : Z) (fuel n : nat)
    (data_pipeline : option DataPipeline) (w : World)
    : option (outcome unit * option DataPipeline * World) :=
  match fuel with
  | 0 => None
  | S fuel' =>
      if bool_decide (tries ≤ retries)%Z then
        match driver_get Y url n with
        | NoDriver cause => Some (Raised cause, data_pipeline, w)
        | FetchError _ => attempts Y url retries tries fuel' (S n) data_pipeline w
        | Fetched div_cards =>
            match parse_cards div_cards data_pipeline w with
            | (Returned _, p, w') => Some (Returned (), p, w')
            | (Raised _, p, w') => attempts Y url retries tries fuel' (S n) p w'
            end
        end
      else Some (Raised (MAX_RETRIES_EXCEEDED retries), data_pipeline, w)
  end.

Definition scrape_search_results (Y : Yelp) (keyword location : str) (page_number : Z)
    (data_pipeline : option DataPipeline) (retries : Z) (w : World) (fuel : nat)
    : option (outcome unit * option DataPipeline * World) :=
  attempts Y (get_scrapeops_url Y (base_url keyword location page_number))
    retries 0 fuel 0 data_pipeline w.

(** The cards of a page on which every card has its image and its link,
    given by the pairs of [alt] and [href]. *)
Definition whole_cards (found : list (pyval * str)) : list card :=
  (λ x, Card x.1 (Some x.2)) <$> found.

(** The records built from such cards. *)
Definition items_of (found : list (pyval * str)) : list SearchData :=
  (λ x, new_SearchData x.1
          (PStr ($"https://www.yelp.com" ++ replace $"https://proxy.scrapeops.io" [] x.2)))
  <$> found.

End Scraper.

Module Demo6.

(** A page that never loads. *)
Definition down : Scraper.Yelp :=
  {| Scraper.get_scrapeops_url := λ url, $"https://proxy.scrapeops.io/v1/?url=" ++ url;
     Scraper.driver_get := λ _ _, Scraper.FetchError $"TimeoutException" |}.

Definition acme_found : ScrapYelp.pyval * str :=
  (ScrapYelp.PStr $"Acme Chiropractic", $"https://proxy.scrapeops.io/biz/acme-chiropractic").

Definition bright_found : ScrapYelp.pyval * str :=
  (ScrapYelp.PStr $"Bright Spine", $"/biz/bright-spine").

(** A page whose second card is not complete the first time it is read,
    and is whole the second time. *)
Definition flaky : Scraper.Yelp :=
  {| Scraper.get_scrapeops_url := λ url, $"https://proxy.scrapeops.io/v1/?url=" ++ url;
     Scraper.driver_get := λ _ n,
       match n with
       | 0 => Scraper.Fetched
                (Scraper.whole_cards [acme_found]
                 ++ Scraper.NoSuchElement $"NoSuchElementException" :: [])
       | _ => Scraper.Fetched (Scraper.whole_cards ([acme_found] ++ [bright_found]))
       end |}.

End Demo6.
(* ===================================================================== *)
(** ** Properties of the matcher *)
(* ===================================================================== *)

Section matcher.
Implicit Types (s rest : str) (r : regex) (cls : list citem).

Lemma elem_of_run_Cat r1 r2 s rest :
  rest ∈ run (Cat r1 r2) s ↔ ∃ mid, mid ∈ run r1 s ∧ rest ∈ run r2 mid.
Proof. simpl. rewrite list_elem_of_bind. naive_solver. Qed.

Lemma elem_of_run_Chr c s rest :
  rest ∈ run (Chr c) s ↔ s = c :: rest.
Proof.
  simpl. destruct s as [|a s']; [rewrite elem_of_nil; naive_solver|].
  case_bool_decide; subst.
  - rewrite list_elem_of_singleton. naive_solver.
  - rewrite elem_of_nil. naive_solver.
Qed.

Lemma elem_of_run_Cls cls s rest :
  rest ∈ run (Cls cls) s ↔ ∃ a, s = a :: rest ∧ class_mem cls a = true.
Proof.
  simpl. destruct s as [|a s']; [rewrite elem_of_nil; naive_solver|].
  destruct (class_mem cls a) eqn:Ha.
  - rewrite list_elem_of_singleton. split.
    + intros ->. by exists a.
    + by intros (a' & [= _ ->] & _).
  - rewrite elem_of_nil. split; [done|].
    intros (a' & [= <- _] & Ha'). congruence.
Qed.

(** An unbounded greedy loop over one class yields exactly the ways of
    cutting off a run of members of the class that is long enough. *)
Lemma elem_of_rep_Cls cls lo fuel cnt s rest :
  rest ∈ rep (run (Cls cls)) lo None fuel cnt s ↔
  ∃ pre, s = pre ++ rest ∧ Forall (λ a, class_mem cls a = true) pre
         ∧ lo ≤ cnt + length pre ∧ length pre ≤ fuel.
Proof.
  revert cnt s. induction fuel as [|fuel IH]; intros cnt s.
  - cbn [rep]. rewrite app_nil_l. split.
    + case_bool_decide; [|by rewrite elem_of_nil].
      rewrite list_elem_of_singleton. intros ->.
      exists []. repeat split; [constructor | simpl; lia | simpl; lia].
    + intros (pre & -> & _ & Hlo & Hlen).
      destruct pre; [|simpl in Hlen; lia]. simpl in *.
      rewrite bool_decide_true by lia. by apply list_elem_of_singleton.
  - cbn [rep may_repeat]. rewrite elem_of_app, list_elem_of_bind. split.
    + intros [(mid & Hrest & Hmid)|Hstop].
      * apply elem_of_run_Cls in Hmid as (a & -> & Ha).
        rewrite bool_decide_true in Hrest by (simpl; lia).
        apply IH in Hrest as (pre & -> & Hpre & Hlo & Hlen).
        exists (a :: pre). repeat split; [by constructor | simpl; lia | simpl; lia].
      * case_bool_decide; [|by rewrite elem_of_nil in Hstop].
        apply list_elem_of_singleton in Hstop as ->.
        exists []. repeat split; [constructor | simpl; lia | simpl; lia].
    + intros (pre & -> & Hpre & Hlo & Hlen). destruct pre as [|a pre].
      * right. simpl in *. rewrite bool_decide_true by lia.
        by apply list_elem_of_singleton.
      * left. exists (pre ++ rest). inversion Hpre; subst. split.
        -- rewrite bool_decide_true by (simpl; lia).
           apply IH. exists pre. repeat split; [done | simpl in *; lia | simpl in *; lia].
        -- apply elem_of_run_Cls. by exists a.
Qed.

Lemma elem_of_run_AtLeast_Cls cls lo s rest :
  rest ∈ run (AtLeast lo (Cls cls)) s ↔
  ∃ pre, s = pre ++ rest ∧ Forall (λ a, class_mem cls a = true) pre
         ∧ lo ≤ length pre.
Proof.
  change (run (AtLeast lo (Cls cls)) s)
    with (rep (run (Cls cls)) lo None (length s) 0 s).
  rewrite elem_of_rep_Cls. split.
  - intros (pre & ? & ? & ? & ?). exists pre. repeat split; [done..|lia].
  - intros (pre & -> & ? & ?). exists pre. repeat split; [done | lia |].
    rewrite length_app. lia.
Qed.

(** What a match consumed is what stands before what it left. *)
Lemma consumed_app m rest : consumed (m ++ rest) rest = m.
Proof.
  unfold consumed. rewrite length_app.
  replace (length m + length rest - length rest) with (length m) by lia.
  by rewrite take_app_length.
Qed.

Lemma py_match_Some r s m :
  py_match r s = Some m → ∃ rest, rest ∈ run r s ∧ m = consumed s rest.
Proof.
  unfold py_match. destruct (run r s) as [|rest l] eqn:Hrun; [done|].
  simpl. intros [= <-]. exists rest. split; [|done]. by left.
Qed.

Lemma py_match_None r s : py_match r s = None ↔ run r s = [].
Proof. unfold py_match. by destruct (run r s). Qed.

Lemma py_fullmatch_true r s : py_fullmatch r s = true ↔ [] ∈ run r s.
Proof. unfold py_fullmatch. by rewrite bool_decide_eq_true. Qed.

(** [search] returns the match found at the leftmost position that has
    one. *)
Lemma py_search_Some r s m :
  py_search r s = Some m →
  ∃ pre, py_match r (drop (length pre) s) = Some m
         ∧ pre = take (length pre) s ∧ length pre ≤ length s
         ∧ ∀ i, i < length pre → run r (drop i s) = [].
Proof.
  induction s as [|a s IH]; cbn [py_search].
  - destruct (py_match r []) eqn:Hm; [|done]. intros [= <-].
    exists []. simpl. split_and!; [done | done | done | intros; lia].
  - destruct (py_match r (a :: s)) eqn:Hm.
    + intros [= <-]. exists []. simpl. split_and!; [done | done | lia | intros; lia].
    + intros (pre & H1 & H2 & H3 & H4)%IH.
      exists (a :: pre). simpl. split_and!; [done | by f_equal | lia |].
      intros [|i] Hi; simpl; [by apply py_match_None|]. apply H4. lia.
Qed.

Lemma py_search_None r s :
  py_search r s = None ↔ ∀ i, run r (drop i s) = [].
Proof.
  induction s as [|a s IH]; cbn [py_search].
  - destruct (py_match r []) eqn:Hm.
    + split; [done|]. intros H. specialize (H 0). simpl in H.
      apply py_match_None in H. congruence.
    + split; [|done]. intros _ i. rewrite drop_nil. by apply py_match_None.
  - destruct (py_match r (a :: s)) eqn:Hm.
    + split; [done|]. intros H. specialize (H 0). simpl in H.
      apply py_match_None in H. congruence.
    + rewrite IH. split.
      * intros H [|i]; simpl; [by apply py_match_None | apply H].
      * intros H i. apply (H (S i)).
Qed.

End matcher.

(* ===================================================================== *)
(** ** The email extractor *)
(* ===================================================================== *)

Section email.
Implicit Types (s m rest texto : str).

Lemma nonempty_length {A} (l : list A) : l ≠ [] ↔ 1 ≤ length l.
Proof. destruct l; simpl; split; (done || lia). Qed.

(** The matches of [EMAIL_REGEX] at the start of [s] are the prefixes of
    [s] that have the shape of an address. *)
Lemma elem_of_run_EMAIL s rest :
  rest ∈ run EMAIL_REGEX s ↔ ∃ m, s = m ++ rest ∧ is_email m.
Proof.
  unfold EMAIL_REGEX, Plus. split.
  - intros (s1 & (L & -> & HL & HLn)%elem_of_run_AtLeast_Cls
            & (s2 & ->%elem_of_run_Chr
            & (s3 & (D & -> & HD & HDn)%elem_of_run_AtLeast_Cls
            & (s4 & ->%elem_of_run_Chr
            & (T & -> & HT & HTn)%elem_of_run_AtLeast_Cls
            )%elem_of_run_Cat)%elem_of_run_Cat)%elem_of_run_Cat)%elem_of_run_Cat.
    exists (L ++ "@"%char :: D ++ "."%char :: T). split.
    + by rewrite <-!app_assoc, <-!app_comm_cons, <-!app_assoc.
    + exists L, D, T. by rewrite !nonempty_length.
  - intros (m & -> & L & D & T & -> & HLn & HL & HDn & HD & HTn & HT).
    rewrite nonempty_length in HLn, HDn.
    apply elem_of_run_Cat.
    exists ("@"%char :: D ++ "."%char :: T ++ rest). split.
    { apply elem_of_run_AtLeast_Cls. exists L. split_and!; [|done..].
      by rewrite <-!app_assoc, <-!app_comm_cons, <-!app_assoc. }
    apply elem_of_run_Cat.
    exists (D ++ "."%char :: T ++ rest). split; [by apply elem_of_run_Chr|].
    apply elem_of_run_Cat.
    exists ("."%char :: T ++ rest).
    split; [apply elem_of_run_AtLeast_Cls; by exists D|].
    apply elem_of_run_Cat.
    exists (T ++ rest). split; [by apply elem_of_run_Chr|].
    apply elem_of_run_AtLeast_Cls. by exists T.
Qed.

Lemma py_fullmatch_EMAIL m : py_fullmatch EMAIL_REGEX m = true ↔ is_email m.
Proof.
  rewrite py_fullmatch_true, elem_of_run_EMAIL. split.
  - intros (m' & Hm & ?). rewrite app_nil_r in Hm. by subst.
  - intros ?. exists m. by rewrite app_nil_r.
Qed.

Lemma lower_char_class cls a :
  cls = LOCAL_CLASS ∨ cls = DOMAIN_CLASS ∨ cls = LETTER_CLASS →
  class_mem cls a = true → class_mem cls (lower_char a) = true.
Proof.
  intros Hcls. destruct a as [b0 b1 b2 b3 b4 b5 b6 b7].
  destruct Hcls as [->|[->| ->]];
    destruct b0, b1, b2, b3, b4, b5, b6, b7; vm_compute; done.
Qed.

Lemma lower_Forall_class cls m :
  cls = LOCAL_CLASS ∨ cls = DOMAIN_CLASS ∨ cls = LETTER_CLASS →
  Forall (λ a, class_mem cls a = true) m →
  Forall (λ a, class_mem cls a = true) (lower m).
Proof.
  intros Hcls Hm. unfold lower. apply Forall_fmap.
  eapply Forall_impl; [done|]. intros a. by apply lower_char_class.
Qed.

(** Lower-casing an address gives an address. *)
Lemma is_email_lower m : is_email m → is_email (lower m).
Proof.
  intros (L & D & T & -> & HLn & HL & HDn & HD & HTn & HT).
  exists (lower L), (lower D), (lower T). split_and!.
  - unfold lower. by rewrite !fmap_app, !fmap_cons, !fmap_app, !fmap_cons.
  - by destruct L.
  - apply lower_Forall_class; auto.
  - by destruct D.
  - apply lower_Forall_class; auto.
  - unfold lower. by rewrite length_fmap.
  - apply lower_Forall_class; auto.
Qed.

Lemma py_match_EMAIL_Some s m :
  py_match EMAIL_REGEX s = Some m → is_email m ∧ ∃ post, s = m ++ post.
Proof.
  intros (rest & (m' & -> & Hm')%elem_of_run_EMAIL & ->)%py_match_Some.
  rewrite consumed_app. eauto.
Qed.

Lemma run_EMAIL_nil s :
  run EMAIL_REGEX s = [] ↔ ∀ m post, s = m ++ post → ¬ is_email m.
Proof.
  split.
  - intros Hrun m post -> Hm.
    assert (post ∈ run EMAIL_REGEX (m ++ post)) as Hin
      by (apply elem_of_run_EMAIL; eauto).
    rewrite Hrun in Hin. by apply elem_of_nil in Hin.
  - intros Hno. destruct (run EMAIL_REGEX s) as [|rest l] eqn:Hrun; [done|].
    assert (rest ∈ run EMAIL_REGEX s) as (m & -> & Hm)%elem_of_run_EMAIL
      by (rewrite Hrun; by left).
    by destruct (Hno m rest).
Qed.

(** The matches of a greedy loop over one class come longest first:
    what they leave gets strictly longer down the list. *)
Lemma rep_Cls_longest_first cls lo fuel cnt s :
  StronglySorted (λ x y : str, length x < length y)
    (rep (run (Cls cls)) lo None fuel cnt s).
Proof.
  revert cnt s. induction fuel as [|fuel IH]; intros cnt s.
  - cbn [rep]. rewrite app_nil_l. case_bool_decide; repeat constructor.
  - cbn [rep may_repeat]. apply StronglySorted_app. split_and!.
    + intros x y (mid & Hx & Hmid)%list_elem_of_bind Hy.
      apply elem_of_run_Cls in Hmid as (a & -> & _).
      rewrite bool_decide_true in Hx by (simpl; lia).
      destruct (bool_decide (lo ≤ cnt)); [|by apply elem_of_nil in Hy].
      apply list_elem_of_singleton in Hy as ->.
      apply elem_of_rep_Cls in Hx as (pre & -> & _). simpl.
      rewrite length_app. lia.
    + cbn [run]. destruct s as [|a s']; [constructor|].
      destruct (class_mem cls a); [|constructor].
      cbn [mbind list_bind]. rewrite app_nil_r.
      case_bool_decide; [apply IH|constructor].
    + case_bool_decide; repeat constructor.
Qed.

(** Sequencing keeps that order when the continuations of a longer match
    all leave less than those of a shorter one. *)
Lemma bind_longest_first (l : list str) (f : str → list str) :
  StronglySorted (λ x y : str, length x < length y) l →
  (∀ x, x ∈ l → StronglySorted (λ x y : str, length x < length y) (f x)) →
  (∀ x y a b, x ∈ l → y ∈ l → length x < length y → a ∈ f x → b ∈ f y →
              length a < length b) →
  StronglySorted (λ x y : str, length x < length y) (l ≫= f).
Proof.
  induction l as [|x l IH]; intros Hl Hf Hcross; [constructor|].
  apply StronglySorted_cons in Hl as [Hx Hl]. rewrite Forall_forall in Hx.
  cbn [mbind list_bind]. apply StronglySorted_app. split_and!.
  - intros a b Ha (y & Hb & Hy)%list_elem_of_bind.
    apply (Hcross x y); [by left|by right|by apply Hx|done|done].
  - apply Hf. by left.
  - apply IH; [done|..].
    + intros y Hy. apply Hf. by right.
    + intros y z a b Hy Hz. apply Hcross; by right.
Qed.

Lemma bind_Chr_longest_first c (f : str → list str) s :
  (∀ x, StronglySorted (λ x y : str, length x < length y) (f x)) →
  StronglySorted (λ x y : str, length x < length y) (run (Chr c) s ≫= f).
Proof.
  intros Hf. cbn [run]. destruct s as [|a s']; [constructor|].
  case_bool_decide; [|constructor]. cbn [mbind list_bind]. rewrite app_nil_r. apply Hf.
Qed.

(** Two ways of cutting the same text: the one that leaves more cuts
    earlier. *)
Lemma cut_earlier (p1 x p2 y : str) :
  p1 ++ x = p2 ++ y → length x < length y →
  ∃ k, k ≠ [] ∧ p1 = p2 ++ k ∧ y = k ++ x.
Proof.
  intros Heq Hlen. apply app_eq_inv in Heq as [(k & -> & ->)|(k & -> & ->)].
  - exists k. split_and!; [|done..]. intros ->. simpl in Hlen. lia.
  - rewrite length_app in Hlen. lia.
Qed.

(** The matches of [EMAIL_REGEX] at the start of a text come longest
    first. *)
Lemma run_EMAIL_longest_first s :
  StronglySorted (λ x y : str, length x < length y) (run EMAIL_REGEX s).
Proof.
  unfold EMAIL_REGEX, Plus, AtLeast.
  change (run (Cat ?r1 ?r2) s) with (run r1 s ≫= run r2).
  apply bind_longest_first.
  - apply rep_Cls_longest_first.
  - intros x _. change (run (Cat ?r1 ?r2) x) with (run r1 x ≫= run r2).
    apply bind_Chr_longest_first. intros x2.
    change (run (Cat ?r1 ?r2) x2) with (run r1 x2 ≫= run r2).
    apply bind_longest_first.
    + apply rep_Cls_longest_first.
    + intros x3 _. change (run (Cat ?r1 ?r2) x3) with (run r1 x3 ≫= run r2).
      apply bind_Chr_longest_first. intros x4. apply rep_Cls_longest_first.
    + intros x3 y3 a b
        (Dx & Hx & HDx & _)%elem_of_run_AtLeast_Cls
        (Dy & Hy & HDy & _)%elem_of_run_AtLeast_Cls Hlen
        (x4 & ->%elem_of_run_Chr & (Ta & -> & HTa & HTan)%elem_of_run_AtLeast_Cls
        )%elem_of_run_Cat
        (y4 & ->%elem_of_run_Chr & (Tb & -> & HTb & HTbn)%elem_of_run_AtLeast_Cls
        )%elem_of_run_Cat.
      rewrite Hx in Hy.
      destruct (cut_earlier _ _ _ _ Hy Hlen) as (k & Hk & _ & Hyk).
      destruct (decide (length a < length b)) as [|Hge]; [done|exfalso].
      assert (1 ≤ length k) as Hk1 by (destruct k; simpl; [done|lia]).
      assert (length k + length Ta + length a = length Tb + length b) as Hsum.
      { apply (f_equal length) in Hyk. simpl in Hyk.
        rewrite !length_app in Hyk. simpl in Hyk. rewrite length_app in Hyk. lia. }
      assert (("."%char :: Tb ++ b) !! length k = Some "."%char) as Hdot.
      { rewrite Hyk. by rewrite list_lookup_middle. }
      destruct (length k) as [|n] eqn:Hn; [lia|]. simpl in Hdot.
      rewrite lookup_app_l in Hdot by lia.
      rewrite Forall_lookup in HTb. specialize (HTb _ _ Hdot). by vm_compute in HTb.
  - intros x y a b
      (Lx & Hx & HLx & _)%elem_of_run_AtLeast_Cls
      (Ly & Hy & HLy & _)%elem_of_run_AtLeast_Cls Hlen _
      (y2 & ->%elem_of_run_Chr & _)%elem_of_run_Cat.
    exfalso. rewrite Hx in Hy.
    destruct (cut_earlier _ _ _ _ Hy Hlen) as (k & Hk & -> & Hyk).
    destruct k as [|c k]; [done|]. injection Hyk as <- _.
    apply Forall_app in HLx as [_ HLx]. apply Forall_cons in HLx as [HLx _].
    by vm_compute in HLx.
Qed.

(** The match at the start of a text is the longest address that starts
    there. *)
Lemma py_match_EMAIL_longest s m m' post :
  py_match EMAIL_REGEX s = Some m → s = m' ++ post → is_email m' →
  length m' ≤ length m.
Proof.
  unfold py_match. intros Hm -> Hm'.
  pose proof (run_EMAIL_longest_first (m' ++ post)) as Hsorted.
  assert (post ∈ run EMAIL_REGEX (m' ++ post)) as Hin
    by (apply elem_of_run_EMAIL; eauto).
  destruct (run EMAIL_REGEX (m' ++ post)) as [|rest l] eqn:Hrun; [done|].
  simpl in Hm. injection Hm as <-.
  assert (rest ∈ run EMAIL_REGEX (m' ++ post)) as (m0 & Hm0 & _)%elem_of_run_EMAIL
    by (rewrite Hrun; by left).
  rewrite Hm0, consumed_app.
  apply StronglySorted_cons in Hsorted as [Hall _]. rewrite Forall_forall in Hall.
  apply (f_equal length) in Hm0. rewrite !length_app in Hm0.
  apply elem_of_cons in Hin as [->|Hin]; [lia|].
  specialize (Hall _ Hin). lia.
Qed.

End email.

(** C7. For every text the email extractor either returns none, and then no
    substring of the text has the shape [local-part@domain.tld]; or it
    returns an address that itself has that shape (and passes the pattern's
    full match), and that is the lower-cased text of the first match of
    the pattern: the occurrence that starts at the leftmost offset where
    an address starts and is the longest address starting there. The
    result is thereby determined by the text. *)
Theorem extraer_primer_email_correct (texto : str) :
  match _extraer_primer_email_valido_de_texto texto with
  | None => ∀ i m, occurs_at i m texto → ¬ is_email m
  | Some email =>
      is_email email
      ∧ py_fullmatch EMAIL_REGEX email = true
      ∧ ∃ i m, occurs_at i m texto ∧ is_email m ∧ email = lower m
               ∧ (∀ j m', occurs_at j m' texto → is_email m' → i ≤ j)
               ∧ (∀ m', occurs_at i m' texto → is_email m' → length m' ≤ length m)
               ∧ (∀ i' m',
                    occurs_at i' m' texto → is_email m' →
                    (∀ j m'', occurs_at j m'' texto → is_email m'' → i' ≤ j) →
                    (∀ m'', occurs_at i' m'' texto → is_email m'' →
                            length m'' ≤ length m') →
                    email = lower m')
  end.
Proof.
  unfold _extraer_primer_email_valido_de_texto.
  destruct (py_search EMAIL_REGEX texto) as [m|] eqn:Hs.
  - apply py_search_Some in Hs as (pre & Hm & Hpre & Hlen & Hleft).
    pose proof (py_match_EMAIL_Some _ _ Hm) as (Hem & post & Hpost).
    pose proof (is_email_lower _ Hem) as Hlow.
    rewrite (proj2 (py_fullmatch_EMAIL _) Hlow).
    assert (∀ j m', occurs_at j m' texto → is_email m' → length pre ≤ j) as Hfirst.
    { intros j m' (post' & Hj & Hjlen) Hm'.
      destruct (decide (length pre ≤ j)) as [|Hlt]; [done|].
      assert (run EMAIL_REGEX (drop j texto) = []) as Hnil by (apply Hleft; lia).
      rewrite run_EMAIL_nil in Hnil. by destruct (Hnil m' post'). }
    assert (∀ m', occurs_at (length pre) m' texto → is_email m' →
                  length m' ≤ length m) as Hlong.
    { intros m' (post' & Hocc & _) Hm'. by apply (py_match_EMAIL_longest _ _ _ _ Hm Hocc). }
    split_and!; [done | by apply py_fullmatch_EMAIL |].
    exists (length pre), m. split_and!; [by exists post | done | done | done | done |].
    intros i' m' Hocc' Hm' Hfirst' Hlong'.
    assert (occurs_at (length pre) m texto) as Hocc by by exists post.
    assert (i' = length pre) as ->.
    { apply Nat.le_antisymm; [by apply (Hfirst' _ m)|by apply (Hfirst _ m')]. }
    assert (length m' = length m) as Hsame.
    { apply Nat.le_antisymm; [by apply Hlong|by apply Hlong']. }
    destruct Hocc' as (post' & Hocc' & _). rewrite Hpost in Hocc'.
    apply app_inj_1 in Hocc' as [-> _]; done.
  - intros i m (post & Hi & _) Hm.
    rewrite py_search_None in Hs. specialize (Hs i).
    rewrite run_EMAIL_nil in Hs. by destruct (Hs m post).
Qed.

(* ===================================================================== *)
(** ** The fast path *)
(* ===================================================================== *)

Section fast_path.
Import ContactFinder.
Implicit Types (s href : str).

Lemma after_first_startswith sep s :
  startswith sep s = true → after_first sep s = Some (drop (length sep) s).
Proof. intros H. destruct s; simpl; by rewrite H. Qed.

Lemma lstrip_fmap (p : ascii → bool) (f : ascii → ascii) s :
  (∀ a, p (f a) = p a) → lstrip p (f <$> s) = f <$> lstrip p s.
Proof.
  intros Hp. induction s as [|a s IH]; [done|].
  rewrite fmap_cons. simpl. rewrite Hp. by destruct (p a).
Qed.

Lemma rstrip_fmap (p : ascii → bool) (f : ascii → ascii) s :
  (∀ a, p (f a) = p a) → rstrip p (f <$> s) = f <$> rstrip p s.
Proof.
  intros Hp. unfold rstrip.
  by rewrite <-fmap_reverse, lstrip_fmap, fmap_reverse.
Qed.

Lemma is_space_lower_char a : is_space (lower_char a) = is_space a.
Proof.
  destruct a as [b0 b1 b2 b3 b4 b5 b6 b7].
  destruct b0, b1, b2, b3, b4, b5, b6, b7; vm_compute; done.
Qed.

Lemma lower_char_question a : lower_char a = "?"%char ↔ a = "?"%char.
Proof.
  destruct a as [b0 b1 b2 b3 b4 b5 b6 b7].
  destruct b0, b1, b2, b3, b4, b5, b6, b7; vm_compute; split; done.
Qed.

Lemma strip_lower s : strip (lower s) = lower (strip s).
Proof.
  unfold strip, lower.
  rewrite lstrip_fmap, rstrip_fmap by apply is_space_lower_char. done.
Qed.

Lemma before_first_lower s :
  before_first "?" (lower s) = lower (before_first "?" s).
Proof.
  unfold lower. induction s as [|a s IH]; [done|].
  rewrite fmap_cons. simpl.
  destruct (decide (a = "?"%char)) as [->|Hne].
  - by rewrite !bool_decide_true.
  - rewrite !bool_decide_false; [|done|by rewrite lower_char_question].
    by rewrite fmap_cons, IH.
Qed.

(** The candidate the code computes (lower-casing first) is the target
    the specification describes (lower-casing last). *)
Lemma mailto_candidate_target href :
  startswith $"mailto:" (lower href) = true →
  mailto_candidate href = Some (mailto_target href).
Proof.
  intros Hpre. unfold mailto_candidate, mailto_target. rewrite Hpre.
  rewrite (after_first_startswith _ _ Hpre). simpl fmap. f_equal.
  unfold lower at 1. rewrite <-fmap_drop. fold (lower (drop 7 href)).
  by rewrite before_first_lower, strip_lower.
Qed.

Lemma mailto_candidate_None href :
  startswith $"mailto:" (lower href) = false → mailto_candidate href = None.
Proof. intros Hpre. unfold mailto_candidate. by rewrite Hpre. Qed.

Lemma first_mailto_skip href hrefs :
  ¬ valid_mailto href → first_mailto (href :: hrefs) = first_mailto hrefs.
Proof.
  intros Hno. simpl.
  destruct (startswith $"mailto:" (lower href)) eqn:Hpre.
  - rewrite (mailto_candidate_target _ Hpre).
    destruct (py_fullmatch EMAIL_REGEX (mailto_target href)) eqn:Hfull; [|done].
    apply py_fullmatch_EMAIL in Hfull. by destruct Hno.
  - by rewrite (mailto_candidate_None _ Hpre).
Qed.

Lemma first_mailto_hit href hrefs :
  valid_mailto href → first_mailto (href :: hrefs) = Some (mailto_target href).
Proof.
  intros [Hpre Hem]. simpl. rewrite (mailto_candidate_target _ Hpre).
  apply py_fullmatch_EMAIL in Hem. by rewrite Hem.
Qed.

Lemma first_mailto_app pre href post :
  Forall (λ h, ¬ valid_mailto h) pre → valid_mailto href →
  first_mailto (pre ++ href :: post) = Some (mailto_target href).
Proof.
  intros Hpre Hhref. induction Hpre as [|h pre Hh _ IH].
  - by apply first_mailto_hit.
  - rewrite <-app_comm_cons. by rewrite first_mailto_skip.
Qed.

End fast_path.

(** C6. When the page fetched on the fast path has an anchor whose [href]
    starts with [mailto:] and whose target (prefix stripped, query
    component removed, trimmed, lower-cased) is a valid address, the first
    such anchor decides the result: the fast path returns its target,
    whatever address the text of the page contains. *)
Theorem fast_path_prefers_mailto (E : Env) (url : str) (respuesta : response)
    (before : list str) (href : str) (after : list str) (email_en_texto : str) :
  session_get E url = Some respuesta →
  find_all_a_href E (content respuesta) = before ++ href :: after →
  Forall (λ h, ¬ valid_mailto h) before →
  startswith $"mailto:" (lower href) = true →
  is_email (mailto_target href) →
  _extraer_primer_email_valido_de_texto (text respuesta) = Some email_en_texto →
  ContactFinder.buscar_primer_email_con_requests E url = Some (mailto_target href).
Proof.
  intros Hget Hhrefs Hbefore Hpre Hem _.
  unfold ContactFinder.buscar_primer_email_con_requests.
  rewrite Hget, Hhrefs. by rewrite first_mailto_app.
Qed.

Lemma fast_path_prefers_mailto_witness :
  ContactFinder.buscar_primer_email_con_requests Demo.acme $"https://acme-dental.example"
  = Some $"info@acme-dental.example".
Proof.
  apply (fast_path_prefers_mailto Demo.acme $"https://acme-dental.example"
           Demo.acme_home [ $"/about" ]
           $"MAILTO:Info@Acme-Dental.Example?subject=Hello" []
           $"webmaster@hosting.example").
  - reflexivity.
  - reflexivity.
  - constructor; [|constructor]. intros [H _]. vm_compute in H. discriminate.
  - reflexivity.
  - apply py_fullmatch_EMAIL. vm_compute. reflexivity.
  - vm_compute. reflexivity.
Defined.

(* ===================================================================== *)
(** ** The social-link extractor *)
(* ===================================================================== *)

Section social_links.
Import ContactFinder.
Implicit Types (s rest u : str) (r : regex).

Lemma startswith_app p s : startswith p s = true ↔ ∃ rest, s = p ++ rest.
Proof.
  revert s. induction p as [|a p IH]; intros s; simpl.
  - split; [by exists s|done].
  - destruct s as [|b s]; [split; [done|by intros (? & [=])]|].
    rewrite andb_true_iff, bool_decide_eq_true, IH. split.
    + intros [-> (rest & ->)]. by exists rest.
    + intros (rest & [= -> ->]). eauto.
Qed.

Lemma elem_of_run_Lit d s rest : rest ∈ run (Lit d) s ↔ s = d ++ rest.
Proof.
  revert s. induction d as [|c d IH]; intros s.
  - simpl. rewrite list_elem_of_singleton. naive_solver.
  - destruct d as [|c' d].
    + change (Lit [c]) with (Chr c). by rewrite elem_of_run_Chr.
    + change (Lit (c :: c' :: d)) with (Cat (Chr c) (Lit (c' :: d))).
      rewrite elem_of_run_Cat. split.
      * intros (mid & ->%elem_of_run_Chr & ->%IH). done.
      * intros ->. exists ((c' :: d) ++ rest).
        split; [by apply elem_of_run_Chr | by apply IH].
Qed.

Lemma elem_of_run_Opt r s rest :
  rest ∈ run (Opt r) s → rest ∈ run r s ∨ rest = s.
Proof.
  change (run (Opt r) s) with (rep (run r) 0 (Some 1) (length s) 0 s).
  destruct (length s) as [|fuel] eqn:Hlen; cbn [rep].
  - rewrite app_nil_l, bool_decide_true by lia.
    rewrite list_elem_of_singleton. auto.
  - rewrite elem_of_app, bool_decide_true by lia.
    rewrite list_elem_of_singleton. intros [Hmore|?]; [|by right]. left.
    simpl in Hmore. apply list_elem_of_bind in Hmore as (mid & Hrest & Hmid).
    case_bool_decide; [|by apply elem_of_nil in Hrest].
    destruct fuel; cbn [rep may_repeat] in Hrest;
      rewrite ?bool_decide_false in Hrest by lia;
      rewrite app_nil_l, bool_decide_true in Hrest by lia;
      by apply list_elem_of_singleton in Hrest as ->.
Qed.

Lemma elem_of_run_NotAhead r s rest :
  rest ∈ run (NotAhead r) s ↔ rest = s ∧ run r s = [].
Proof.
  simpl. destruct (run r s).
  - rewrite list_elem_of_singleton. naive_solver.
  - rewrite elem_of_nil. naive_solver.
Qed.

(** An alternation fails exactly when each alternative fails. *)
Lemma run_Alts_nil rs s : run (Alts rs) s = [] ↔ ∀ r, r ∈ rs → run r s = [].
Proof.
  induction rs as [|r rs IH].
  - simpl. split; [|done]. intros _ r Hr. by apply elem_of_nil in Hr.
  - destruct rs as [|r' rs].
    + simpl. split.
      * intros H r0 ->%list_elem_of_singleton. done.
      * intros H. apply H. by left.
    + change (Alts (r :: r' :: rs)) with (Alt r (Alts (r' :: rs))).
      cbn [run]. rewrite app_nil, IH. split.
      * intros [Hr Hrs] r0 [->|?]%elem_of_cons; auto.
      * intros H. split; [apply H; by left|]. intros r0 ?. apply H. by right.
Qed.

(** What a match of [FACEBOOK_PROFILE_REGEX] says about the URL. *)
Lemma run_FACEBOOK u rest :
  rest ∈ run FACEBOOK_PROFILE_REGEX u →
  ∃ root path, root ∈ FACEBOOK_ROOTS ∧ u = root ++ path ∧ path ≠ []
               ∧ ∀ r, r ∈ FACEBOOK_FUNCTIONAL_PATHS → run r path = [].
Proof.
  unfold FACEBOOK_PROFILE_REGEX. cbn [Seq].
  intros (s1 & H1 & (s2 & Hs & (s3 & H3 & (s4 & Hwww & (s5 & H5
          & (s6 & [-> Hdeny]%elem_of_run_NotAhead
          & (s7 & (s8 & (seg & Hs8 & _ & Hseg)%elem_of_run_AtLeast_Cls & _
            )%elem_of_run_Cat & _
          )%elem_of_run_Cat)%elem_of_run_Cat)%elem_of_run_Cat
          )%elem_of_run_Cat)%elem_of_run_Cat)%elem_of_run_Cat)%elem_of_run_Cat.
  apply elem_of_run_Lit in H1, H3, H5. subst.
  rewrite run_Alts_nil in Hdeny.
  assert (seg ++ s8 ≠ []) as Hne by (destruct seg; [simpl in Hseg; lia|done]).
  apply elem_of_run_Opt in Hs as [->%elem_of_run_Chr| <-];
    apply elem_of_run_Opt in Hwww as [->%elem_of_run_Lit| <-].
  - exists $"https://www.facebook.com/", (seg ++ s8).
    split_and!; [set_solver | done | done | done].
  - exists $"https://facebook.com/", (seg ++ s8).
    split_and!; [set_solver | done | done | done].
  - exists $"http://www.facebook.com/", (seg ++ s8).
    split_and!; [set_solver | done | done | done].
  - exists $"http://facebook.com/", (seg ++ s8).
    split_and!; [set_solver | done | done | done].
Qed.

Lemma facebook_link_step_Returned E base_url acc href links :
  facebook_link_step E base_url acc href = Returned links →
  ¬ breaks E base_url href
  ∧ ∀ u, u ∈ links → u ∈ acc ∨ kept E [href] base_url u.
Proof.
  unfold facebook_link_step, breaks.
  destruct (urljoin E base_url href) as [url_absoluta|] eqn:Hjoin; [|done].
  destruct (py_match _ url_absoluta) as [m|] eqn:Hm.
  - destruct (urlparse E url_absoluta) as [parsed|] eqn:Hparse; [|done].
    destruct (bool_decide _ && bool_decide _) eqn:Hpath.
    + apply andb_true_iff in Hpath as [Hne%bool_decide_eq_true Hgen%bool_decide_eq_true].
      intros [= <-]. split.
      * intros [?|(u & [= <-] & _ & ?)]; congruence.
      * intros u [?| ->%elem_of_singleton]%elem_of_union; [by left|right].
        split_and!; [|by rewrite Hm|by exists parsed].
        exists href. split; [by left|done].
    + intros [= <-]. split; [|by left].
      intros [?|(u & [= <-] & _ & ?)]; congruence.
  - intros [= <-]. split; [|by left].
    intros [?|(u & [= <-] & [? ?] & _)]; congruence.
Qed.

Lemma facebook_link_step_Raised E base_url acc href cause :
  facebook_link_step E base_url acc href = Raised cause → breaks E base_url href.
Proof.
  unfold facebook_link_step, breaks.
  destruct (urljoin E base_url href) as [url_absoluta|] eqn:Hjoin; [|by left].
  destruct (py_match _ url_absoluta) as [m|] eqn:Hm; [|done].
  destruct (urlparse E url_absoluta) as [parsed|] eqn:Hparse.
  - by destruct (bool_decide _ && bool_decide _).
  - intros _. right. exists url_absoluta. by rewrite Hm.
Qed.

Lemma facebook_link_loop_Returned E base_url hrefs acc links :
  facebook_link_loop E base_url acc hrefs = Returned links →
  (∀ href, href ∈ hrefs → ¬ breaks E base_url href)
  ∧ ∀ u, u ∈ links → u ∈ acc ∨ kept E hrefs base_url u.
Proof.
  revert acc. induction hrefs as [|href hrefs IH]; intros acc; cbn [facebook_link_loop].
  { intros [= <-]. split; [by intros ? ?%elem_of_nil|by left]. }
  destruct (facebook_link_step E base_url acc href) as [acc'|cause] eqn:Hstep; [|done].
  apply facebook_link_step_Returned in Hstep as [Hok Hstep].
  intros [Hoks Hloop]%IH. split.
  - intros h [->|?]%elem_of_cons; [done|by apply Hoks].
  - intros u [Hacc|Hk]%Hloop.
    + apply Hstep in Hacc as [?|Hk]; [by left|right].
      destruct Hk as ((h & ->%list_elem_of_singleton & ?) & ? & ?).
      split_and!; [|done..]. exists href. split; [by left|done].
    + right. destruct Hk as ((h & Hh & ?) & ? & ?).
      split_and!; [|done..]. exists h. split; [by right|done].
Qed.

Lemma facebook_link_loop_Raised E base_url hrefs acc cause :
  facebook_link_loop E base_url acc hrefs = Raised cause →
  ∃ href, href ∈ hrefs ∧ breaks E base_url href.
Proof.
  revert acc. induction hrefs as [|href hrefs IH]; intros acc; cbn [facebook_link_loop];
    [done|].
  destruct (facebook_link_step E base_url acc href) as [acc'|c] eqn:Hstep.
  - intros (h & ? & ?)%IH. exists h. split; [by right|done].
  - intros _. exists href. split; [by left|]. by eapply facebook_link_step_Raised.
Qed.

End social_links.

Example share_dialog_refused :
  py_match FACEBOOK_PROFILE_REGEX $"https://www.facebook.com/sharer/sharer.php?u=acme" = None.
Proof. vm_compute. reflexivity. Qed.

Example badge_page_refused :
  py_match FACEBOOK_PROFILE_REGEX $"http://facebook.com/pages/abc/badge" = None.
Proof. vm_compute. reflexivity. Qed.

Example profile_accepted :
  py_match FACEBOOK_PROFILE_REGEX $"https://www.facebook.com/acmedental/?ref=1"
  = Some $"https://www.facebook.com/acmedental/".
Proof. vm_compute. reflexivity. Qed.

Example links_of_about_page :
  ContactFinder.buscar_facebook_links_en_html Demo.acme_about
    $"<html>" $"https://acme-dental.example/about"
  = ContactFinder.Returned [ $"https://www.facebook.com/acmedental/" ].
Proof. vm_compute. reflexivity. Qed.

(** C8. Whatever the page and the base URL, when the social-link
    extractor returns, the links it returns are pairwise distinct, and each
    of them: is the resolution of an anchor of the page against the base
    URL; is an absolute URL on the social domain (it starts with one of
    the four roots, followed by a non-empty path); has a path at whose
    start no alternative of the denylist matches (in particular none of
    the denylisted words is a prefix of it); and has a parsed path that,
    trimmed of slashes, is neither empty nor a generic placeholder. It
    returns unless the page has an anchor that cannot be resolved against
    the base URL, or whose resolution matches the pattern and cannot be
    parsed; it then raises. *)
Theorem facebook_links_are_profiles (E : Env) (html_content base_url : str) :
  set_order_ok E →
  match ContactFinder.buscar_facebook_links_en_html E html_content base_url with
  | ContactFinder.Returned links =>
      NoDup links
      ∧ (∀ href, href ∈ find_all_a_href E html_content → ¬ breaks E base_url href)
      ∧ ∀ u, u ∈ links →
          (∃ href, href ∈ find_all_a_href E html_content
                   ∧ urljoin E base_url href = Some u)
          ∧ (∃ root path,
                root ∈ FACEBOOK_ROOTS ∧ u = root ++ path ∧ path ≠ []
                ∧ (∀ r, r ∈ FACEBOOK_FUNCTIONAL_PATHS → run r path = [])
                ∧ (∀ word, Lit word ∈ FACEBOOK_FUNCTIONAL_PATHS →
                           startswith word path = false))
          ∧ ∃ parsed, urlparse E u = Some parsed
              ∧ strip_chars $"/" (path parsed) ≠ []
              ∧ strip_chars $"/" (path parsed) ∉ GENERIC_FACEBOOK_PATHS
  | ContactFinder.Raised _ =>
      ∃ href, href ∈ find_all_a_href E html_content ∧ breaks E base_url href
  end.
Proof.
  intros Hord. unfold ContactFinder.buscar_facebook_links_en_html,
    ContactFinder.facebook_link_set.
  unfold set_order_ok in Hord.
  destruct (ContactFinder.facebook_link_loop E base_url ∅ (find_all_a_href E html_content))
    as [links|cause] eqn:Hloop.
  2:{ by eapply facebook_link_loop_Raised. }
  apply facebook_link_loop_Returned in Hloop as [Hoks Hloop]. split_and!.
  - rewrite Hord. apply NoDup_elements.
  - done.
  - intros u Hu. rewrite Hord, elem_of_elements in Hu.
    apply Hloop in Hu as [Hu|Hk]; [set_solver|].
    destruct Hk as (Hhref & [m Hm] & Hparsed).
    split_and!; [done| |done].
    apply py_match_Some in Hm as (rest & Hrest & _).
    apply run_FACEBOOK in Hrest as (root & path & Hroot & -> & Hpath & Hdeny).
    exists root, path. split_and!; [done..|].
    intros word Hword. specialize (Hdeny _ Hword).
    destruct (startswith word path) eqn:Hsw; [|done].
    apply startswith_app in Hsw as (rest' & ->).
    assert (rest' ∈ run (Lit word) (word ++ rest')) as Hin
      by by apply elem_of_run_Lit.
    rewrite Hdeny in Hin. by apply elem_of_nil in Hin.
Qed.

Lemma facebook_links_are_profiles_witness :
  match ContactFinder.buscar_facebook_links_en_html
          Demo.acme_about $"<html>" $"https://acme-dental.example/about" with
  | ContactFinder.Returned links =>
      NoDup links
      ∧ (∀ href, href ∈ find_all_a_href Demo.acme_about $"<html>" →
                 ¬ breaks Demo.acme_about $"https://acme-dental.example/about" href)
      ∧ ∀ u, u ∈ links →
          (∃ href, href ∈ find_all_a_href Demo.acme_about $"<html>"
                   ∧ urljoin Demo.acme_about $"https://acme-dental.example/about" href
                     = Some u)
          ∧ (∃ root path,
                root ∈ FACEBOOK_ROOTS ∧ u = root ++ path ∧ path ≠ []
                ∧ (∀ r, r ∈ FACEBOOK_FUNCTIONAL_PATHS → run r path = [])
                ∧ (∀ word, Lit word ∈ FACEBOOK_FUNCTIONAL_PATHS →
                           startswith word path = false))
          ∧ ∃ parsed, urlparse Demo.acme_about u = Some parsed
              ∧ strip_chars $"/" (path parsed) ≠ []
              ∧ strip_chars $"/" (path parsed) ∉ GENERIC_FACEBOOK_PATHS
  | ContactFinder.Raised _ =>
      ∃ href, href ∈ find_all_a_href Demo.acme_about $"<html>"
              ∧ breaks Demo.acme_about $"https://acme-dental.example/about" href
  end.
Proof.
  apply (facebook_links_are_profiles Demo.acme_about
           $"<html>" $"https://acme-dental.example/about").
  intros X. reflexivity.
Defined.

(* ===================================================================== *)
(** ** The deep path *)
(* ===================================================================== *)

Section deep_path.
Import ContactFinder.
Implicit Types (E : Env) (st : deep_state) (urls : list str).

Lemma is_email_nonempty m : is_email m → m ≠ [].
Proof. intros (L & D & T & -> & HL & _). by destruct L. Qed.

(** The extractor never returns the empty string, so its result passes
    the tests [if email:] of the callers. *)
Lemma extraer_truthy texto email :
  _extraer_primer_email_valido_de_texto texto = Some email →
  truthy (Some email) = true.
Proof.
  unfold _extraer_primer_email_valido_de_texto.
  destruct (py_search EMAIL_REGEX texto) as [m|] eqn:Hs; [|done].
  destruct (py_fullmatch EMAIL_REGEX (lower m)) eqn:Hfull; [|done].
  intros [= <-]. apply py_fullmatch_EMAIL, is_email_nonempty in Hfull.
  by destruct (lower m).
Qed.

Lemma visit_visited E st url : visited (visit E st url) = visited st ++ [url].
Proof.
  unfold visit. destruct (driver_page_source E url) as [page_source|]; [|done].
  destruct (truthy _); [done|].
  by destruct (buscar_facebook_links_en_html E page_source url).
Qed.

Lemma visit_email_final E st url :
  email_final st = None → email_final (visit E st url) = page_email E url.
Proof.
  intros Hst. unfold visit, page_email.
  destruct (driver_page_source E url) as [page_source|]; [|done]. simpl.
  destruct (_extraer_primer_email_valido_de_texto page_source) as [e|] eqn:He.
  - by rewrite (extraer_truthy _ _ He).
  - cbn [truthy]. by destruct (buscar_facebook_links_en_html E page_source url).
Qed.

Lemma page_email_truthy E url e : page_email E url = Some e → truthy (Some e) = true.
Proof.
  unfold page_email. destruct (driver_page_source E url); [|done].
  apply extraer_truthy.
Qed.

(** The loop visits the URLs in the order of its list and leaves right
    after the first one that shows an address. *)
Lemma visit_all_stops_at_first E urls st :
  email_final st = None →
  ∃ seen, visited (visit_all E urls st) = visited st ++ seen
    ∧ seen `prefix_of` urls
    ∧ match email_final (visit_all E urls st) with
      | Some e => ∃ earlier u, seen = earlier ++ [u]
                    ∧ page_email E u = Some e
                    ∧ Forall (λ v, page_email E v = None) earlier
      | None => seen = urls ∧ Forall (λ v, page_email E v = None) urls
      end.
Proof.
  revert st. induction urls as [|url rest IH]; intros st Hst.
  - exists []. simpl. rewrite Hst, app_nil_r. by split_and!.
  - cbn [visit_all]. rewrite Hst. cbn [truthy].
    pose proof (visit_email_final E st url Hst) as Hmail.
    pose proof (visit_visited E st url) as Hvis.
    destruct (page_email E url) as [e|] eqn:Hpage.
    + exists [url].
      assert (visit_all E rest (visit E st url) = visit E st url) as ->.
      { destruct rest; [done|]. cbn [visit_all].
        by rewrite Hmail, (page_email_truthy _ _ _ Hpage). }
      rewrite Hmail. split_and!; [done|by exists rest|].
      exists [], url. by split_and!.
    + destruct (IH _ Hmail) as (seen & Hseen & [k Hk] & Hres).
      exists (url :: seen). split_and!.
      * by rewrite Hseen, Hvis, <-app_assoc.
      * exists k. by rewrite Hk.
      * destruct (email_final (visit_all E rest (visit E st url))) as [e|].
        -- destruct Hres as (earlier & u & -> & Hu & Hearlier).
           exists (url :: earlier), u. split_and!; [done..|by constructor].
        -- destruct Hres as [Hs Hall]. split; [by f_equal|by constructor].
Qed.

(** The set of URLs to visit is that of the candidates, and it is built
    exactly when they can all be. *)
Lemma urls_a_visitar_candidates E base_url :
  urls_a_visitar E base_url
  = match configured_candidates E base_url with
    | Returned candidates => Returned (list_to_set candidates)
    | Raised e => Raised e
    end.
Proof.
  unfold urls_a_visitar, configured_candidates.
  by destruct (with_scheme E base_url).
Qed.

End deep_path.

(** C3 as the specification has it does not hold: on a site where every
    candidate page loads and none shows an address, the visits follow the
    enumeration of the set of candidates, which is not the order of
    [COMMON_CONTACT_PATHS], and two admissible enumerations of the same set
    give two different visiting orders for the same base URL. *)
Lemma deep_path_order_counterexample :
  set_order_ok Demo.browser ∧ set_order_ok Demo.browser_rev
  ∧ (∃ candidates,
       configured_candidates Demo.browser $"http://acme.example"
       = ContactFinder.Returned candidates ∧ NoDup candidates)
  ∧ ¬ visits_in_configured_order Demo.browser $"http://acme.example"
  ∧ ¬ visits_in_configured_order Demo.browser_rev $"http://acme.example"
  ∧ ∃ st st',
      ContactFinder.deep_search Demo.browser $"http://acme.example"
      = ContactFinder.Returned st
      ∧ ContactFinder.deep_search Demo.browser_rev $"http://acme.example"
        = ContactFinder.Returned st'
      ∧ ContactFinder.visited st ≠ ContactFinder.visited st'.
Proof.
  assert (∃ candidates,
            configured_candidates Demo.browser $"http://acme.example"
            = ContactFinder.Returned candidates
            ∧ configured_candidates Demo.browser_rev $"http://acme.example"
              = ContactFinder.Returned candidates
            ∧ NoDup candidates) as (candidates & Hc & Hc' & Hnodup).
  { eexists. split_and!; [vm_compute; reflexivity|vm_compute; reflexivity|].
    apply (bool_decide_unpack _). vm_compute. exact I. }
  assert (∃ st, ContactFinder.deep_search Demo.browser $"http://acme.example"
                = ContactFinder.Returned st) as [st Hst]
    by (eexists; vm_compute; reflexivity).
  assert (∃ st', ContactFinder.deep_search Demo.browser_rev $"http://acme.example"
                 = ContactFinder.Returned st') as [st' Hst']
    by (eexists; vm_compute; reflexivity).
  split_and!.
  - intros X. reflexivity.
  - intros X. simpl. by rewrite reverse_Permutation.
  - exists candidates. split; [exact Hc|exact Hnodup].
  - intros Hp. specialize (Hp _ _ Hst Hc).
    vm_compute in Hst, Hc. injection Hst as <-. injection Hc as <-.
    apply prefix_cons_inv_1 in Hp. vm_compute in Hp. discriminate.
  - intros Hp. specialize (Hp _ _ Hst' Hc').
    vm_compute in Hst', Hc'. injection Hst' as <-. injection Hc' as <-.
    destruct Hp as [k Hk]. vm_compute in Hk. destruct k; discriminate.
  - exists st, st'. split_and!; [exact Hst|exact Hst'|].
    vm_compute in Hst, Hst'. injection Hst as <-. injection Hst' as <-.
    vm_compute. discriminate.
Qed.

(** C3, amended. When the candidate URLs can all be built (the base URL
    joined with each configured path), the deep path goes through the set
    of the distinct candidates, each at most once, in the order in which
    that set is enumerated; it stops right after the first visited
    candidate on which an email is found, and that email is its result;
    when no candidate shows one, all of them are visited. When a candidate
    cannot be built the deep path raises before any visit. *)
Theorem deep_path_first_match_wins (E : Env) (base_url : str) :
  set_order_ok E →
  match configured_candidates E base_url with
  | ContactFinder.Raised cause =>
      ContactFinder.deep_search E base_url = ContactFinder.Raised cause
  | ContactFinder.Returned candidates =>
      ∃ urls st,
        ContactFinder.urls_a_visitar E base_url = ContactFinder.Returned urls
        ∧ ContactFinder.deep_search E base_url = ContactFinder.Returned st
        ∧ let order := list_of_set E urls in
          NoDup order
          ∧ (∀ u, u ∈ order ↔ u ∈ candidates)
          ∧ ContactFinder.visited st `prefix_of` order
          ∧ match ContactFinder.email_final st with
            | Some e => ∃ earlier u, ContactFinder.visited st = earlier ++ [u]
                          ∧ page_email E u = Some e
                          ∧ Forall (λ v, page_email E v = None) earlier
            | None => ContactFinder.visited st = order
                      ∧ Forall (λ v, page_email E v = None) order
            end
  end.
Proof.
  intros Hord. unfold set_order_ok in Hord.
  unfold ContactFinder.deep_search. rewrite urls_a_visitar_candidates.
  destruct (configured_candidates E base_url) as [candidates|cause]; [|done].
  eexists _, _. split; [reflexivity|]. split; [reflexivity|]. cbv zeta.
  destruct (visit_all_stops_at_first E (list_of_set E (list_to_set candidates))
              {| ContactFinder.email_final := None;
                 ContactFinder.facebook_links_final := ∅;
                 ContactFinder.visited := [] |} eq_refl)
    as (seen & Hseen & Hpre & Hres).
  split_and!.
  - rewrite Hord. apply NoDup_elements.
  - intros u. by rewrite Hord, elem_of_elements, elem_of_list_to_set.
  - by rewrite Hseen.
  - rewrite Hseen. simpl. exact Hres.
Qed.

Lemma deep_path_first_match_wins_witness :
  match configured_candidates Demo.browser_rev $"http://acme.example" with
  | ContactFinder.Raised cause =>
      ContactFinder.deep_search Demo.browser_rev $"http://acme.example"
      = ContactFinder.Raised cause
  | ContactFinder.Returned candidates =>
      ∃ urls st,
        ContactFinder.urls_a_visitar Demo.browser_rev $"http://acme.example"
        = ContactFinder.Returned urls
        ∧ ContactFinder.deep_search Demo.browser_rev $"http://acme.example"
          = ContactFinder.Returned st
        ∧ let order := list_of_set Demo.browser_rev urls in
          NoDup order
          ∧ (∀ u, u ∈ order ↔ u ∈ candidates)
          ∧ ContactFinder.visited st `prefix_of` order
          ∧ match ContactFinder.email_final st with
            | Some e => ∃ earlier u, ContactFinder.visited st = earlier ++ [u]
                          ∧ page_email Demo.browser_rev u = Some e
                          ∧ Forall (λ v, page_email Demo.browser_rev v = None) earlier
            | None => ContactFinder.visited st = order
                      ∧ Forall (λ v, page_email Demo.browser_rev v = None) order
            end
  end.
Proof.
  apply (deep_path_first_match_wins Demo.browser_rev $"http://acme.example").
  intros X. simpl. by rewrite reverse_Permutation.
Defined.

(* ===================================================================== *)
(** ** The stage: records and exit status *)
(* ===================================================================== *)

Section stage.
Import ContactFinder.
Implicit Types (E : Env) (business entry : gmap str json).

Lemma new_keys_distinct :
  EMAIL_KEY ≠ LINKS_KEY ∧ EMAIL_KEY ≠ METHOD_KEY ∧ LINKS_KEY ≠ METHOD_KEY.
Proof. by split_and!. Qed.

(** The three assignments, read back. *)
Lemma with_fields_fields business final_email final_fb_links method_used :
  with_fields business (final_email, final_fb_links, method_used) !! EMAIL_KEY
  = Some (json_of_email final_email)
  ∧ with_fields business (final_email, final_fb_links, method_used) !! LINKS_KEY
    = Some (JArr (JStr <$> final_fb_links))
  ∧ with_fields business (final_email, final_fb_links, method_used) !! METHOD_KEY
    = Some (JStr method_used).
Proof.
  destruct new_keys_distinct as (H1 & H2 & H3). unfold with_fields. split_and!.
  - by rewrite lookup_insert_ne, lookup_insert_ne, lookup_insert_eq.
  - by rewrite lookup_insert_ne, lookup_insert_eq.
  - by rewrite lookup_insert_eq.
Qed.

(** Every other key is as in the input record. *)
Lemma with_fields_frame business found k :
  k ∉ NEW_KEYS → with_fields business found !! k = business !! k.
Proof.
  intros Hk. destruct found as [[final_email final_fb_links] method_used].
  unfold with_fields, NEW_KEYS in *.
  rewrite !lookup_insert_ne; [done|set_solver..].
Qed.


Lemma result_entry_Returned E business entry :
  result_entry E business = Returned entry ↔
  ∃ found, resolve E business = Returned found ∧ entry = with_fields business found.
Proof.
  unfold result_entry. destruct (resolve E business) as [found|cause].
  - split; [intros [= <-]; by exists found|by intros (? & [= <-] & ->)].
  - split; [done|by intros (? & ? & _)].
Qed.


Lemma result_entry_fields E business entry :
  result_entry E business = Returned entry →
  ∃ final_email final_fb_links method_used,
    resolve E business = Returned (final_email, final_fb_links, method_used)
    ∧ entry !! EMAIL_KEY = Some (json_of_email final_email)
    ∧ entry !! LINKS_KEY = Some (JArr (JStr <$> final_fb_links))
    ∧ entry !! METHOD_KEY = Some (JStr method_used).
Proof.
  intros ([[final_email final_fb_links] method_used] & Hres & ->)%result_entry_Returned.
  exists final_email, final_fb_links, method_used. split; [done|].
  apply with_fields_fields.
Qed.

Lemma result_entry_frame E business entry k :
  result_entry E business = Returned entry → k ∉ NEW_KEYS →
  entry !! k = business !! k.
Proof.
  intros (found & _ & ->)%result_entry_Returned. apply with_fields_frame.
Qed.


(** The deep path raises exactly when its candidate URLs cannot all be
    built. *)
Lemma deep_path_Raised E base_url cause :
  buscar_datos_contacto_con_selenium E base_url = Raised cause ↔
  configured_candidates E base_url = Raised cause.
Proof.
  unfold buscar_datos_contacto_con_selenium, deep_search.
  rewrite urls_a_visitar_candidates.
  destruct (configured_candidates E base_url); simpl; [by split|].
  split; by intros [= ->].
Qed.

Lemma deep_path_Returned E base_url r :
  buscar_datos_contacto_con_selenium E base_url = Returned r →
  ∃ candidates, configured_candidates E base_url = Returned candidates.
Proof.
  unfold buscar_datos_contacto_con_selenium, deep_search.
  rewrite urls_a_visitar_candidates.
  destruct (configured_candidates E base_url) as [candidates|]; [|done].
  intros _. by exists candidates.
Qed.

(** The resolution of a record raises exactly when the deep path is
    reached and raises. *)
Lemma resolve_Raised E business cause :
  resolve E business = Raised cause ↔ deep_path_breaks E business cause.
Proof.
  unfold resolve, deep_path_breaks.
  destruct (is_valid_website (business !! $"website")) eqn:Hvalid.
  2:{ split; [done|]. intros (url & Hw & Hv & _). rewrite Hw in Hvalid. congruence. }
  destruct (business !! $"website") as [[| | |url| |]|] eqn:Hw;
    try (split; [done|by intros (? & ? & _)]).
  destruct (truthy (buscar_primer_email_con_requests E url)) eqn:Hfast.
  { split; [done|]. intros (url' & [= <-] & _ & ? & _). congruence. }
  destruct (driver_available E) eqn:Hdrv.
  2:{ split; [done|]. by intros (url' & _ & _ & _ & ? & _). }
  destruct (buscar_datos_contacto_con_selenium E url) as [r|c] eqn:Hdeep.
  - split.
    + destruct (truthy (email r)); [done|]. by destruct (facebook_links r).
    + intros (url' & [= <-] & _ & _ & _ & Hc). apply deep_path_Raised in Hc. congruence.
  - apply deep_path_Raised in Hdeep. split.
    + intros [= <-]. by exists url.
    + intros (url' & [= <-] & _ & _ & _ & Hc). congruence.
Qed.


End stage.


(** A record whose website cannot be parsed ends the stage when a driver
    is at hand: the exception leaves [procesar_negocios] and [main]. *)
Example bracket_record_ends_the_stage :
  ContactFinder.procesar_negocios Demo.bracket $"step1.json"
  = (ContactFinder.Raised $"ValueError", [])
  ∧ ContactFinder.exit_status (ContactFinder.main Demo.bracket $"step1.json" $"step2.json")
    = 1%Z.
Proof.
  assert (ContactFinder.resolve Demo.bracket Demo.bracket_record
          = ContactFinder.Raised $"ValueError") as Hres.
  { unfold ContactFinder.resolve.
    assert (Demo.bracket_record !! $"website" = Some (JStr $"http://[")) as ->.
    { unfold Demo.bracket_record. by rewrite lookup_insert_ne, lookup_insert_eq. }
    vm_compute. reflexivity. }
  assert (ContactFinder.procesar_negocios Demo.bracket $"step1.json"
          = (ContactFinder.Raised $"ValueError", [])) as Hproc.
  { unfold ContactFinder.procesar_negocios. cbn [json_load Demo.bracket ContactFinder.iterate].
    cbn [fmap list_fmap ContactFinder.process_all]. unfold ContactFinder.result_entry.
    by rewrite Hres. }
  split; [done|]. unfold ContactFinder.main. by rewrite Hproc.
Qed.






(* ===================================================================== *)
(** ** SearchData *)
(* ===================================================================== *)

Section search_data.
Import ScrapYelp.

Lemma check_field_empty field_name :
  check_field field_name (PStr []) = PStr ($"No " ++ field_name).
Proof. done. Qed.

Lemma check_field_strip field_name s :
  s ≠ [] → check_field field_name (PStr s) = PStr (strip s).
Proof. intros Hs. unfold check_field. by rewrite bool_decide_false. Qed.

End search_data.

(** C10. The claim fails on the code: a name made of white space only is
    not the empty string, so it is not replaced by the placeholder, and
    stripping it then leaves the empty string as the name and dedup key. *)
Theorem blank_name_becomes_empty :
  ScrapYelp.name (ScrapYelp.new_SearchData (ScrapYelp.PStr $" ")
                    (ScrapYelp.PStr $"https://www.yelp.com/biz/acme-dental"))
  = ScrapYelp.PStr [].
Proof. vm_compute. reflexivity. Qed.

(* ===================================================================== *)
(** ** DataPipeline *)
(* ===================================================================== *)

Section pipeline.
Import ContactFinder ScrapYelp.
Implicit Types (p : DataPipeline) (w : World) (rows : list csv_row)
  (q items : list SearchData) (filename : str).

Lemma file_rows_open_append w w' filename f :
  open_append w filename = Some w' → file_rows w' f = file_rows w f.
Proof.
  unfold open_append. destruct (open_denied w); [done|]. intros [= <-].
  unfold file_rows at 1. simpl. destruct (decide (filename = f)) as [->|Hne].
  - by rewrite lookup_insert_eq.
  - by rewrite lookup_insert_ne.
Qed.

Lemma file_rows_write_row w w' filename row :
  write_row w filename row = Some w' →
  file_rows w' filename = file_rows w filename ++ [row].
Proof.
  unfold write_row. destruct (room w) as [[[|n] k]|]; [done|..];
    intros [= <-]; unfold file_rows at 1; simpl; by rewrite lookup_insert_eq.
Qed.

(** Of a row that does not fit the file gets nothing, or the first bytes
    of its line. *)
Lemma file_rows_cut_short w filename row :
  ∃ cut, file_rows (cut_short w filename row) filename = file_rows w filename ++ cut
    ∧ (cut = [] ∨ ∃ kept, 0 < kept ∧ cut = [CutRow (cells_of row) kept]).
Proof.
  unfold cut_short. destruct (room w) as [[n [|k]]|].
  - exists []. by rewrite app_nil_r; split; [|left].
  - exists [CutRow (cells_of row) (S k)]. split.
    + unfold file_rows at 1. simpl. by rewrite lookup_insert_eq.
    + right. exists (S k). split; [lia|done].
  - exists []. by rewrite app_nil_r; split; [|left].
Qed.

(** The block leaves in the file an initial part of the rows: all of
    them when it returns; when it raises, not all of them, followed by
    what the device kept of the first row that did not fit. *)
Lemma write_rows_prefix w filename rows :
  ∃ written cut,
    written `prefix_of` rows
    ∧ file_rows (write_rows w filename rows).2 filename
      = file_rows w filename ++ written ++ cut
    ∧ match (write_rows w filename rows).1 with
      | Returned _ => written = rows ∧ cut = []
      | Raised _ =>
          ∃ row, rows !! length written = Some row
            ∧ (cut = [] ∨ ∃ kept, 0 < kept ∧ cut = [CutRow (cells_of row) kept])
      end.
Proof.
  revert w. induction rows as [|row rows IH]; intros w.
  - exists [], []. simpl. by rewrite app_nil_r.
  - cbn [write_rows]. destruct (write_row w filename row) as [w'|] eqn:Hw.
    + destruct (IH w') as (written & cut & [k Hk] & Hfile & Hres).
      exists (row :: written), cut. split_and!.
      * exists k. by rewrite Hk.
      * rewrite Hfile, (file_rows_write_row _ _ _ _ Hw). by rewrite <-!app_assoc.
      * destruct (write_rows w' filename rows).1; simpl.
        -- destruct Hres as [-> ->]. done.
        -- done.
    + destruct (file_rows_cut_short w filename row) as (cut & Hfile & Hcut).
      exists [], cut. simpl. split_and!; [by exists (row :: rows)|done|].
      by exists row.
Qed.

End pipeline.

(** C1 as the specification has it does not hold. With two records in the
    queue, a flush on a device that refuses [open] raises with the queue
    already emptied and nothing written, so that both records are gone; on
    a device with room for the header and thirty more bytes it raises
    with the header and the first thirty bytes of the first record in the
    file, no record being whole in the file nor in the queue. *)
Lemma failed_flush_counterexample :
  let '(r1, p1, w1) := ScrapYelp.save_to_csv Demo.queued Demo.read_only in
  let '(r2, p2, w2) := ScrapYelp.save_to_csv Demo.queued Demo.quota in
  r1 = ContactFinder.Raised $"OSError"
  ∧ ScrapYelp.storage_queue p1 = []
  ∧ ScrapYelp.file_rows w1 $"Chiropractors.csv" = []
  ∧ r2 = ContactFinder.Raised $"OSError"
  ∧ ScrapYelp.storage_queue p2 = []
  ∧ ScrapYelp.file_rows w2 $"Chiropractors.csv"
    = [ScrapYelp.HeaderRow ScrapYelp.FIELD_NAMES;
       ScrapYelp.CutRow (ScrapYelp.asdict Demo.acme_item) 30]
  ∧ ¬ ScrapYelp.failed_flush_keeps_records Demo.queued Demo.read_only
  ∧ ¬ ScrapYelp.failed_flush_keeps_records Demo.queued Demo.quota.
Proof.
  destruct (ScrapYelp.save_to_csv Demo.queued Demo.read_only)
    as [[r1 p1] w1] eqn:H1.
  destruct (ScrapYelp.save_to_csv Demo.queued Demo.quota)
    as [[r2 p2] w2] eqn:H2.
  assert (r1 = ContactFinder.Raised $"OSError" ∧ ScrapYelp.storage_queue p1 = []
          ∧ ScrapYelp.file_rows w1 $"Chiropractors.csv" = []) as (Hr1 & Hq1 & Hf1).
  { vm_compute in H1. by injection H1 as <- <- <-. }
  assert (r2 = ContactFinder.Raised $"OSError" ∧ ScrapYelp.storage_queue p2 = []
          ∧ ScrapYelp.file_rows w2 $"Chiropractors.csv"
            = [ScrapYelp.HeaderRow ScrapYelp.FIELD_NAMES;
               ScrapYelp.CutRow (ScrapYelp.asdict Demo.acme_item) 30])
    as (Hr2 & Hq2 & Hf2).
  { vm_compute in H2. injection H2 as <- <- <-. split_and!; [done|done|].
    vm_compute. reflexivity. }
  split_and!; [done..| |].
  - intros Hkeep. subst r1.
    destruct (Hkeep _ _ _ Demo.acme_item H1) as [Hin|Hin]; [by left|..].
    + rewrite Hq1 in Hin. by apply elem_of_nil in Hin.
    + change (ScrapYelp.csv_filename Demo.queued) with $"Chiropractors.csv" in Hin.
      rewrite Hf1 in Hin. by apply elem_of_nil in Hin.
  - intros Hkeep. subst r2.
    destruct (Hkeep _ _ _ Demo.acme_item H2) as [Hin|Hin]; [by left|..].
    + rewrite Hq2 in Hin. by apply elem_of_nil in Hin.
    + change (ScrapYelp.csv_filename Demo.queued) with $"Chiropractors.csv" in Hin.
      rewrite Hf2 in Hin.
      apply elem_of_cons in Hin as [Hin|Hin]; [discriminate|].
      apply list_elem_of_singleton in Hin. discriminate.
Qed.

(** C1, amended. A flush empties the queue before it writes. When the
    write fails the failure is raised to the caller, the records of that
    flush are no longer in the writer's state, the flag of the open file
    stays up, and what the file has gained is a proper initial part of the
    rows of the flush (the header when the file was empty, then the
    records in arrival order), followed at most by the first bytes of the
    next of those rows; when the flush returns, the file has gained all of
    them. *)
Theorem flush_clears_queue_then_writes (p : ScrapYelp.DataPipeline) (w : ScrapYelp.World) :
  let '(result, p', w') := ScrapYelp.save_to_csv p w in
  let filename := ScrapYelp.csv_filename p in
  let rows := ScrapYelp.batch (negb (ScrapYelp.file_exists w filename))
                (ScrapYelp.storage_queue p) in
  ScrapYelp.storage_queue p' = []
  ∧ ScrapYelp.names_seen p' = ScrapYelp.names_seen p
  ∧ match result with
    | ContactFinder.Raised _ =>
        ScrapYelp.csv_file_open p' = true
        ∧ ∃ written cut,
            written `prefix_of` rows ∧ length written < length rows
            ∧ (cut = []
               ∨ ∃ row kept, rows !! length written = Some row ∧ 0 < kept
                   ∧ cut = [ScrapYelp.CutRow (ScrapYelp.cells_of row) kept])
            ∧ ScrapYelp.file_rows w' filename
              = ScrapYelp.file_rows w filename ++ written ++ cut
    | ContactFinder.Returned _ =>
        (ScrapYelp.storage_queue p = [] ∧ w' = w)
        ∨ ScrapYelp.file_rows w' filename = ScrapYelp.file_rows w filename ++ rows
    end.
Proof.
  unfold ScrapYelp.save_to_csv.
  destruct (ScrapYelp.storage_queue p) as [|item q] eqn:Hq.
  { simpl. split_and!; [done|done|by left]. }
  cbn [ScrapYelp.csv_filename ScrapYelp.set_queue ScrapYelp.set_flag].
  destruct (ScrapYelp.open_append w (ScrapYelp.csv_filename p)) as [w1|] eqn:Hopen.
  - pose proof (file_rows_open_append _ _ _ (ScrapYelp.csv_filename p) Hopen) as Hsame.
    destruct (write_rows_prefix w1 (ScrapYelp.csv_filename p)
                (ScrapYelp.batch (negb (ScrapYelp.file_exists w (ScrapYelp.csv_filename p)))
                   (item :: q))) as (written & cut & Hpre & Hfile & Hres).
    destruct (ScrapYelp.write_rows w1 _ _) as [[u|cause] w2]; simpl in *.
    + split_and!; [done|done|]. right. destruct Hres as [-> ->].
      by rewrite Hfile, Hsame, app_nil_r.
    + split_and!; [done|done|done|]. destruct Hres as (row & Hrow & Hcut).
      exists written, cut. split_and!; [done| | |by rewrite Hfile, Hsame].
      * by apply lookup_lt_Some in Hrow.
      * destruct Hcut as [->|(kept & ? & ->)]; [by left|right]. by exists row, kept.
  - simpl. split_and!; [done|done|done|]. exists [], []. rewrite !app_nil_r.
    split_and!; [apply prefix_nil| |by left|done].
    unfold ScrapYelp.batch. rewrite length_app, length_fmap. simpl. lia.
Qed.

Section healthy_pipeline.
Import ContactFinder ScrapYelp.
Implicit Types (p : DataPipeline) (w : World) (rows : list csv_row)
  (q items : list SearchData) (filename : str).

Lemma opens_app evs evs' : opens (evs ++ evs') = opens evs + opens evs'.
Proof. unfold opens. by rewrite bind_app, length_app. Qed.

Lemma data_cells_app rows rows' :
  data_cells (rows ++ rows') = data_cells rows ++ data_cells rows'.
Proof. unfold data_cells. by rewrite bind_app. Qed.

Lemma data_cells_batch header q : data_cells (batch header q) = asdict <$> q.
Proof.
  unfold batch. rewrite data_cells_app.
  assert (data_cells (if header then [HeaderRow FIELD_NAMES] else []) = []) as ->
    by by destruct header.
  simpl. induction q as [|item q IH]; [done|].
  rewrite !fmap_cons. cbn. by f_equal.
Qed.

(** On a healthy device the loop of [writerow] writes every row. *)
Lemma write_rows_healthy w filename rows :
  healthy w →
  ∃ w', write_rows w filename rows = (Returned (), w')
    ∧ healthy w'
    ∧ file_rows w' filename = file_rows w filename ++ rows
    ∧ opens (trace w') = opens (trace w).
Proof.
  revert w. induction rows as [|row rows IH]; intros w [Hden Hroom].
  - exists w. simpl. by rewrite app_nil_r.
  - cbn [write_rows]. unfold write_row. rewrite Hroom.
    edestruct IH as (w' & -> & Hh & Hfile & Hopens); [by split|].
    exists w'. split_and!; [done|done|..].
    + rewrite Hfile. unfold file_rows at 1. simpl.
      rewrite lookup_insert_eq. simpl. by rewrite <-app_assoc.
    + rewrite Hopens. simpl. rewrite opens_app. unfold opens at 2. simpl. lia.
Qed.

(** On a healthy device a flush of a non-empty queue opens the file
    once, writes the whole queue and lowers the flag again. *)
Lemma save_to_csv_healthy p w :
  healthy w → storage_queue p ≠ [] →
  ∃ w', save_to_csv p w = (Returned (), set_flag false (set_queue [] (set_flag true p)), w')
    ∧ healthy w'
    ∧ opens (trace w') = S (opens (trace w))
    ∧ data_cells (file_rows w' (csv_filename p))
      = data_cells (file_rows w (csv_filename p)) ++ (asdict <$> storage_queue p).
Proof.
  intros [Hden Hroom] Hq. unfold save_to_csv.
  destruct (storage_queue p) as [|item q] eqn:Hqueue; [done|].
  cbn [csv_filename set_queue set_flag].
  unfold open_append. rewrite Hden.
  edestruct (write_rows_healthy
    {| files := <[csv_filename p := file_rows w (csv_filename p)]> (files w);
       trace := trace w ++ [Opened (csv_filename p)];
       open_denied := false; room := room w |}
    (csv_filename p)
    (batch (negb (file_exists w (csv_filename p))) (item :: q)))
    as (w' & -> & Hh & Hfile & Hopens); [by split|].
  exists w'. split_and!; [done|done|..].
  - rewrite Hopens. simpl. rewrite opens_app. unfold opens at 2. simpl. lia.
  - rewrite Hfile, data_cells_app, data_cells_batch.
    unfold file_rows at 1. simpl. by rewrite lookup_insert_eq.
Qed.

(** One call of [add_data] on a healthy device, the flag being down. *)
Lemma add_data_healthy item p w :
  healthy w → csv_file_open p = false →
  ∃ p' w', add_data item p w = (Returned (), p', w')
    ∧ healthy w' ∧ csv_file_open p' = false
    ∧ csv_filename p' = csv_filename p
    ∧ storage_queue_limit p' = storage_queue_limit p
    ∧ if decide (name item ∈ names_seen p) then p' = p ∧ w' = w
      else names_seen p' = names_seen p ++ [name item]
           ∧ pending p' w' = pending p w ++ [asdict item]
           ∧ if decide (storage_queue_limit p ≤ Z.of_nat (S (length (storage_queue p))))%Z
             then storage_queue p' = []
                  ∧ opens (trace w') = S (opens (trace w))
             else storage_queue p' = storage_queue p ++ [item]
                  ∧ w' = w.
Proof.
  intros Hw Hflag. unfold add_data, is_duplicate.
  destruct (decide (name item ∈ names_seen p)) as [Hdup|Hnew].
  - rewrite bool_decide_true by done. by exists p, w.
  - rewrite bool_decide_false by done.
    cbn [storage_queue storage_queue_limit csv_file_open set_queue set_seen].
    rewrite Hflag, length_app, Nat.add_comm. cbn [negb length Nat.add].
    rewrite andb_true_r.
    destruct (decide (storage_queue_limit p
                      ≤ Z.of_nat (S (length (storage_queue p))))%Z) as [Hfull|Hroom].
    + rewrite bool_decide_true by done.
      edestruct (save_to_csv_healthy
        (set_queue (storage_queue p ++ [item])
           (set_seen (names_seen p ++ [name item]) p)) w)
        as (w' & -> & Hh & Hopens & Hfile); [done|by destruct (storage_queue p)|].
      eexists _, w'. split_and!; [done..| |done|done].
      unfold pending. simpl in *. rewrite Hfile, app_nil_r, fmap_app.
      by rewrite <-app_assoc.
    + rewrite bool_decide_false by done.
      eexists _, w. split_and!; [done..| |done|done].
      unfold pending. simpl. by rewrite fmap_app, <-app_assoc.
Qed.

End healthy_pipeline.

Section submissions.
Import ContactFinder ScrapYelp.
Implicit Types (p : DataPipeline) (w : World) (items : list SearchData)
  (seen : list pyval).

(** Successive submissions on a healthy device: nothing raises, and the
    records taken and not dropped grow by those [add_data] lets through. *)
Lemma add_all_healthy items p w :
  healthy w → csv_file_open p = false →
  ∃ p' w', add_all items p w = (Returned (), p', w')
    ∧ healthy w' ∧ csv_file_open p' = false
    ∧ csv_filename p' = csv_filename p
    ∧ pending p' w' = pending p w ++ (asdict <$> accepted (names_seen p) items).
Proof.
  revert p w. induction items as [|item items IH]; intros p w Hw Hflag.
  - exists p, w. simpl. by rewrite app_nil_r.
  - destruct (add_data_healthy item p w Hw Hflag)
      as (p1 & w1 & Hadd & Hw1 & Hflag1 & Hname1 & _ & Hstep).
    destruct (IH p1 w1 Hw1 Hflag1) as (p' & w' & Hall & Hw' & Hflag' & Hname' & Hpend).
    exists p', w'. cbn [add_all accepted]. rewrite Hadd, Hall.
    split_and!; [done|done|done|congruence|].
    rewrite Hpend. destruct (decide (name item ∈ names_seen p)) as [Hdup|Hnew].
    + destruct Hstep as [-> ->]. by rewrite bool_decide_true.
    + destruct Hstep as (-> & -> & _). rewrite bool_decide_false by done.
      by rewrite fmap_cons, <-app_assoc.
Qed.

Lemma close_pipeline_healthy p w :
  healthy w → csv_file_open p = false →
  ∃ p' w', close_pipeline p w = (Returned (), p', w')
    ∧ storage_queue p' = []
    ∧ csv_filename p' = csv_filename p
    ∧ pending p' w' = pending p w
    ∧ opens (trace w')
      = opens (trace w) + (if decide (storage_queue p = []) then 0 else 1).
Proof.
  intros Hw Hflag. unfold close_pipeline.
  destruct (decide (storage_queue p = [])) as [Hq|Hq].
  - rewrite Hq. simpl. exists p, w. split_and!; [done..|lia].
  - rewrite bool_decide_true by (destruct (storage_queue p); [done|simpl; lia]).
    destruct (save_to_csv_healthy p w Hw Hq) as (w' & -> & _ & Hopens & Hfile).
    eexists _, w'. split_and!; [done|done|done| |lia].
    unfold pending. simpl. by rewrite Hfile, app_nil_r.
Qed.

Lemma filter_all (P : SearchData → Prop) `{!∀ x, Decision (P x)} items :
  (∀ x, x ∈ items → P x) → filter P items = items.
Proof.
  induction items as [|item items IH]; intros HP; [done|].
  rewrite filter_cons_True by (apply HP; by left).
  f_equal. apply IH. intros x Hx. apply HP. by right.
Qed.

(** The loop of the code and the words of the specification agree. *)
Lemma accepted_first_seen seen items :
  accepted seen items = filter (λ x, name x ∉ seen) (first_seen_wins items).
Proof.
  revert seen. induction items as [|item items IH]; intros seen; [done|].
  cbn [accepted first_seen_wins].
  destruct (decide (name item ∈ seen)) as [Hdup|Hnew].
  - rewrite bool_decide_true, filter_cons_False by auto.
    rewrite IH, list_filter_filter. apply list_filter_iff.
    intros x. split; [|tauto]. intros Hx. split; [done|]. congruence.
  - rewrite bool_decide_false, filter_cons_True by done. f_equal.
    rewrite IH, list_filter_filter. apply list_filter_iff.
    intros x. rewrite elem_of_app, list_elem_of_singleton. tauto.
Qed.

Lemma accepted_nil_first_seen items : accepted [] items = first_seen_wins items.
Proof.
  rewrite accepted_first_seen. apply filter_all.
  intros x _. apply not_elem_of_nil.
Qed.

Lemma first_seen_wins_NoDup items : NoDup (name <$> first_seen_wins items).
Proof.
  induction items as [|item items IH]; [constructor|].
  cbn [first_seen_wins]. rewrite fmap_cons. constructor.
  - rewrite list_elem_of_fmap. intros (x & Hname & Hx).
    apply list_elem_of_filter in Hx as [Hne _]. congruence.
  - apply (sublist_NoDup _ (name <$> first_seen_wins items)); [done|].
    apply fmap_sublist, sublist_filter.
Qed.

(** Records with pairwise distinct keys all go through. *)
Lemma first_seen_wins_distinct items :
  NoDup (name <$> items) → first_seen_wins items = items.
Proof.
  induction items as [|item items IH]; [done|].
  rewrite fmap_cons, NoDup_cons. intros [Hnew Hnd].
  cbn [first_seen_wins]. rewrite (IH Hnd). f_equal.
  apply filter_all. intros x Hx Heq. apply Hnew.
  rewrite <-Heq. apply list_elem_of_fmap. by exists x.
Qed.

(** With capacity [K] and records with fresh, pairwise distinct keys, the
    file is opened once every [K] records. *)
Lemma add_all_batches (K : nat) items p w :
  healthy w → csv_file_open p = false →
  storage_queue_limit p = Z.of_nat K → 1 ≤ K →
  length (storage_queue p) < K →
  NoDup (name <$> items) →
  (∀ x, x ∈ items → name x ∉ names_seen p) →
  ∃ p' w' f, add_all items p w = (Returned (), p', w')
    ∧ opens (trace w') = opens (trace w) + f
    ∧ length (storage_queue p) + length items = K * f + length (storage_queue p')
    ∧ length (storage_queue p') < K
    ∧ storage_queue p' `suffix_of` (storage_queue p ++ items).
Proof.
  revert p w. induction items as [|item items IH];
    intros p w Hw Hflag Hlim HK Hlen Hnd Hfresh.
  - exists p, w, 0. simpl. rewrite app_nil_r. split_and!; [done|lia|lia|done|done].
  - rewrite fmap_cons, NoDup_cons in Hnd. destruct Hnd as [Hnew Hnd].
    destruct (add_data_healthy item p w Hw Hflag)
      as (p1 & w1 & Hadd & Hw1 & Hflag1 & _ & Hlim1 & Hstep).
    rewrite decide_False in Hstep by (apply Hfresh; by left).
    destruct Hstep as (Hseen1 & _ & Hstep).
    assert (∀ x, x ∈ items → name x ∉ names_seen p1) as Hfresh1.
    { intros x Hx. rewrite Hseen1, elem_of_app, list_elem_of_singleton.
      intros [Hin|Heq]; [by apply (Hfresh x); [right|]|].
      apply Hnew. rewrite <-Heq. apply list_elem_of_fmap. by exists x. }
    cbn [add_all]. rewrite Hadd.
    destruct (decide (storage_queue_limit p
                      ≤ Z.of_nat (S (length (storage_queue p))))%Z) as [Hfull|Hroom].
    + destruct Hstep as [Hq1 Hopens1].
      destruct (IH p1 w1) as (p' & w' & f & Hall & Hopens & Hcount & Hlt & Hsuf);
        [done|done|congruence|done|rewrite Hq1; simpl; lia|done|done|].
      exists p', w', (S f). rewrite Hall. split_and!; [done|lia| |done|].
      * rewrite Hq1 in Hcount. simpl in *. rewrite Nat.mul_succ_r. lia.
      * rewrite Hq1 in Hsuf. simpl in Hsuf. destruct Hsuf as [k ->].
        exists (storage_queue p ++ item :: k).
        by rewrite <-app_assoc, <-app_comm_cons.
    + destruct Hstep as [Hq1 ->].
      destruct (IH p1 w) as (p' & w' & f & Hall & Hopens & Hcount & Hlt & Hsuf);
        [done|done|congruence|done|rewrite Hq1, length_app; simpl; lia|done|done|].
      exists p', w', f. rewrite Hall. split_and!; [done|done| |done|].
      * rewrite Hq1, length_app in Hcount. simpl in *. lia.
      * rewrite Hq1, <-app_assoc in Hsuf. done.
Qed.

End submissions.

Section first_seen.
Import ScrapYelp.

Lemma first_seen_wins_sublist items : first_seen_wins items `sublist_of` items.
Proof.
  induction items as [|item items IH]; [done|].
  cbn [first_seen_wins]. apply sublist_skip.
  etrans; [apply sublist_filter|done].
Qed.

(** Every key submitted is the key of a record that stays. *)
Lemma first_seen_wins_keys items x :
  x ∈ items → name x ∈ name <$> first_seen_wins items.
Proof.
  induction items as [|item items IH]; [by intros ?%elem_of_nil|].
  cbn [first_seen_wins]. rewrite fmap_cons.
  intros [->|Hx]%elem_of_cons; [by left|].
  destruct (decide (name x = name item)) as [->|Hne]; [by left|right].
  apply IH, list_elem_of_fmap in Hx as (y & Hy & Hin).
  apply list_elem_of_fmap. exists y. split; [done|].
  apply list_elem_of_filter. split; [congruence|done].
Qed.

End first_seen.

(** C5. Whatever is submitted in one run (on a device that takes every
    write) and whatever the capacity, after [close_pipeline] the records
    the run has added to the file are, in order, those left when of the
    records sharing a name only the first submitted stays: no two of them
    share a name, each is one of the submitted records, every submitted
    name is the name of one of them, and nothing stays in the queue. *)
Theorem no_two_persisted_share_a_key (items : list ScrapYelp.SearchData)
    (filename : str) (limit : Z) (w : ScrapYelp.World) :
  ScrapYelp.healthy w →
  let '(r1, p1, w1) :=
    ScrapYelp.add_all items (ScrapYelp.new_DataPipeline filename limit) w in
  let '(r2, p2, w2) := ScrapYelp.close_pipeline p1 w1 in
  let kept := ScrapYelp.first_seen_wins items in
  r1 = ContactFinder.Returned () ∧ r2 = ContactFinder.Returned ()
  ∧ ScrapYelp.data_cells (ScrapYelp.file_rows w2 filename)
    = ScrapYelp.data_cells (ScrapYelp.file_rows w filename) ++ (ScrapYelp.asdict <$> kept)
  ∧ ScrapYelp.storage_queue p2 = []
  ∧ NoDup (ScrapYelp.name <$> kept)
  ∧ kept `sublist_of` items
  ∧ ∀ x, x ∈ items → ScrapYelp.name x ∈ ScrapYelp.name <$> kept.
Proof.
  intros Hw.
  destruct (add_all_healthy items (ScrapYelp.new_DataPipeline filename limit) w Hw eq_refl)
    as (p1 & w1 & -> & Hw1 & Hflag1 & Hname1 & Hpend1).
  destruct (close_pipeline_healthy p1 w1 Hw1 Hflag1)
    as (p2 & w2 & -> & Hq2 & Hname2 & Hpend2 & _).
  cbn zeta. split_and!; [done|done| |done|..].
  - simpl in Hname1. unfold ScrapYelp.pending in Hpend1, Hpend2.
    rewrite Hq2, Hname2, Hname1 in Hpend2. rewrite Hname1 in Hpend1.
    simpl in Hpend1, Hpend2. rewrite app_nil_r in Hpend1, Hpend2.
    by rewrite Hpend2, Hpend1, accepted_nil_first_seen.
  - apply first_seen_wins_NoDup.
  - apply first_seen_wins_sublist.
  - apply first_seen_wins_keys.
Qed.

Lemma no_two_persisted_share_a_key_witness :
  let items := [Demo.acme_item; Demo.bright_item; Demo.acme_item] in
  let '(r1, p1, w1) :=
    ScrapYelp.add_all items (ScrapYelp.new_DataPipeline $"Chiropractors.csv" 2)
      Demo.blank_disk in
  let '(r2, p2, w2) := ScrapYelp.close_pipeline p1 w1 in
  let kept := ScrapYelp.first_seen_wins items in
  r1 = ContactFinder.Returned () ∧ r2 = ContactFinder.Returned ()
  ∧ ScrapYelp.data_cells (ScrapYelp.file_rows w2 $"Chiropractors.csv")
    = ScrapYelp.data_cells (ScrapYelp.file_rows Demo.blank_disk $"Chiropractors.csv")
      ++ (ScrapYelp.asdict <$> kept)
  ∧ ScrapYelp.storage_queue p2 = []
  ∧ NoDup (ScrapYelp.name <$> kept)
  ∧ kept `sublist_of` items
  ∧ ∀ x, x ∈ items → ScrapYelp.name x ∈ ScrapYelp.name <$> kept.
Proof.
  apply (no_two_persisted_share_a_key
           [Demo.acme_item; Demo.bright_item; Demo.acme_item]
           $"Chiropractors.csv" 2 Demo.blank_disk).
  split; reflexivity.
Defined.

Example second_submission_dropped :
  ScrapYelp.data_cells
    (ScrapYelp.file_rows
       (ScrapYelp.close_pipeline
          (ScrapYelp.add_all [Demo.acme_item; Demo.acme_item]
             (ScrapYelp.new_DataPipeline $"Chiropractors.csv" 50) Demo.blank_disk).1.2
          (ScrapYelp.add_all [Demo.acme_item; Demo.acme_item]
             (ScrapYelp.new_DataPipeline $"Chiropractors.csv" 50) Demo.blank_disk).2).2
       $"Chiropractors.csv")
  = [ScrapYelp.asdict Demo.acme_item].
Proof. vm_compute. reflexivity. Qed.

(** C4. With a capacity [K] of at least one and [N > K] records with
    pairwise distinct names, submitted in one run on a device that takes
    every write: before [close_pipeline] the file has been opened for
    exactly [N / K] flushes and the last [N mod K] records wait in the
    queue; [close_pipeline] flushes them (opening the file once more when
    there are any); and the run has added exactly the [N] records to the
    file, in the order of submission. *)
Theorem batches_of_capacity (items : list ScrapYelp.SearchData) (filename : str)
    (K : nat) (w : ScrapYelp.World) :
  ScrapYelp.healthy w →
  NoDup (ScrapYelp.name <$> items) →
  1 ≤ K → K < length items →
  let N := length items in
  let '(r1, p1, w1) :=
    ScrapYelp.add_all items (ScrapYelp.new_DataPipeline filename (Z.of_nat K)) w in
  let '(r2, p2, w2) := ScrapYelp.close_pipeline p1 w1 in
  r1 = ContactFinder.Returned () ∧ r2 = ContactFinder.Returned ()
  ∧ ScrapYelp.opens (ScrapYelp.trace w1) = ScrapYelp.opens (ScrapYelp.trace w) + N / K
  ∧ ScrapYelp.storage_queue p1 = drop (N - N mod K) items
  ∧ ScrapYelp.data_cells (ScrapYelp.file_rows w1 filename)
    = ScrapYelp.data_cells (ScrapYelp.file_rows w filename)
      ++ (ScrapYelp.asdict <$> take (N - N mod K) items)
  ∧ ScrapYelp.opens (ScrapYelp.trace w2)
    = ScrapYelp.opens (ScrapYelp.trace w1) + (if decide (N mod K = 0) then 0 else 1)
  ∧ ScrapYelp.storage_queue p2 = []
  ∧ ScrapYelp.data_cells (ScrapYelp.file_rows w2 filename)
    = ScrapYelp.data_cells (ScrapYelp.file_rows w filename) ++ (ScrapYelp.asdict <$> items)
  ∧ length (ScrapYelp.data_cells (ScrapYelp.file_rows w2 filename))
    = length (ScrapYelp.data_cells (ScrapYelp.file_rows w filename)) + N.
Proof.
  intros Hw Hnd HK HN N.
  destruct (add_all_healthy items (ScrapYelp.new_DataPipeline filename (Z.of_nat K)) w Hw eq_refl)
    as (p1 & w1 & Hall & Hw1 & Hflag1 & Hname1 & Hpend1).
  destruct (add_all_batches K items (ScrapYelp.new_DataPipeline filename (Z.of_nat K)) w)
    as (p1' & w1' & f & Hall' & Hopens & Hcount & Hlt & Hsuf);
    [done|done|done|done|simpl; lia|done|intros x _; apply not_elem_of_nil|].
  rewrite Hall in Hall'. injection Hall' as <- <-. rewrite Hall.
  destruct (close_pipeline_healthy p1 w1 Hw1 Hflag1)
    as (p2 & w2 & -> & Hq2 & Hname2 & Hpend2 & Hopens2).
  simpl in Hcount, Hsuf, Hname1, Hpend1. fold N in Hcount.
  assert (f = N / K) as Hf by (apply (Nat.div_unique N K f _ Hlt); lia).
  assert (length (ScrapYelp.storage_queue p1) = N mod K) as Hq
    by (apply (Nat.mod_unique N K f _ Hlt); lia).
  assert (ScrapYelp.storage_queue p1 = drop (N - N mod K) items) as Hdrop.
  { destruct Hsuf as [k Hk].
    replace (N - N mod K) with (length k).
    - by rewrite Hk, drop_app_length.
    - rewrite <-Hq. unfold N. rewrite Hk at 1. rewrite length_app. lia. }
  rewrite accepted_nil_first_seen, first_seen_wins_distinct in Hpend1 by done.
  unfold ScrapYelp.pending in Hpend1, Hpend2.
  rewrite Hname1 in Hpend1. rewrite Hq2, Hname2, Hname1 in Hpend2.
  simpl in Hpend1, Hpend2. rewrite app_nil_r in Hpend1, Hpend2.
  assert (ScrapYelp.data_cells (ScrapYelp.file_rows w2 filename)
          = ScrapYelp.data_cells (ScrapYelp.file_rows w filename)
            ++ (ScrapYelp.asdict <$> items)) as Hfinal by by rewrite Hpend2, Hpend1.
  split_and!; [done|done|by rewrite Hopens, Hf|done| | |done|done|].
  - rewrite Hdrop in Hpend1.
    rewrite <-(take_drop (N - N mod K) items) in Hpend1 at 2.
    rewrite fmap_app, app_assoc in Hpend1. by apply app_inv_tail in Hpend1.
  - rewrite Hopens2. f_equal.
    destruct (decide (ScrapYelp.storage_queue p1 = [])) as [Hnil|Hne].
    + rewrite Hnil in Hq. simpl in Hq. by rewrite decide_True.
    + rewrite decide_False; [done|]. intros H0. rewrite H0 in Hq.
      by destruct (ScrapYelp.storage_queue p1).
  - rewrite Hfinal, length_app, length_fmap. done.
Qed.

Lemma batches_of_capacity_witness :
  let items := [Demo.acme_item; Demo.bright_item; Demo.gentle_item] in
  let N := length items in
  let '(r1, p1, w1) :=
    ScrapYelp.add_all items (ScrapYelp.new_DataPipeline $"Chiropractors.csv" (Z.of_nat 2))
      Demo.blank_disk in
  let '(r2, p2, w2) := ScrapYelp.close_pipeline p1 w1 in
  r1 = ContactFinder.Returned () ∧ r2 = ContactFinder.Returned ()
  ∧ ScrapYelp.opens (ScrapYelp.trace w1)
    = ScrapYelp.opens (ScrapYelp.trace Demo.blank_disk) + N / 2
  ∧ ScrapYelp.storage_queue p1 = drop (N - N mod 2) items
  ∧ ScrapYelp.data_cells (ScrapYelp.file_rows w1 $"Chiropractors.csv")
    = ScrapYelp.data_cells (ScrapYelp.file_rows Demo.blank_disk $"Chiropractors.csv")
      ++ (ScrapYelp.asdict <$> take (N - N mod 2) items)
  ∧ ScrapYelp.opens (ScrapYelp.trace w2)
    = ScrapYelp.opens (ScrapYelp.trace w1) + (if decide (N mod 2 = 0) then 0 else 1)
  ∧ ScrapYelp.storage_queue p2 = []
  ∧ ScrapYelp.data_cells (ScrapYelp.file_rows w2 $"Chiropractors.csv")
    = ScrapYelp.data_cells (ScrapYelp.file_rows Demo.blank_disk $"Chiropractors.csv")
      ++ (ScrapYelp.asdict <$> items)
  ∧ length (ScrapYelp.data_cells (ScrapYelp.file_rows w2 $"Chiropractors.csv"))
    = length (ScrapYelp.data_cells (ScrapYelp.file_rows Demo.blank_disk $"Chiropractors.csv")) + N.
Proof.
  apply (batches_of_capacity [Demo.acme_item; Demo.bright_item; Demo.gentle_item]
           $"Chiropractors.csv" 2 Demo.blank_disk).
  - split; reflexivity.
  - apply (bool_decide_unpack _). vm_compute. exact I.
  - lia.
  - simpl. lia.
Defined.

(* ===================================================================== *)
(** ** More on SearchData and DataPipeline *)
(* ===================================================================== *)

Section strip_facts.
Implicit Types (s : str) (p : ascii → bool).

Lemma lstrip_nil_iff p s : lstrip p s = [] ↔ Forall (λ c, p c = true) s.
Proof.
  induction s as [|c s IH]; simpl; [by split|].
  destruct (p c) eqn:Hc.
  - rewrite IH. split; [by constructor|by inversion 1].
  - split; [done|]. inversion 1; congruence.
Qed.

Lemma rstrip_nil_iff p s : rstrip p s = [] ↔ Forall (λ c, p c = true) s.
Proof.
  unfold rstrip. rewrite <-(Forall_reverse _ s), <-lstrip_nil_iff. split.
  - intros H. apply (f_equal reverse) in H. by rewrite reverse_involutive in H.
  - by intros ->.
Qed.

(** What [lstrip] leaves does not start with a stripped character. *)
Lemma lstrip_head p s c t : lstrip p s = c :: t → p c = false.
Proof.
  induction s as [|a s IH]; simpl; [done|].
  destruct (p a) eqn:Ha; [done|]. by intros [= -> _].
Qed.

Lemma lstrip_suffix p s : lstrip p s `suffix_of` s.
Proof.
  induction s as [|a s IH]; simpl; [done|].
  destruct (p a); [|done]. by apply suffix_cons_r.
Qed.

Lemma strip_nil_iff s : strip s = [] ↔ Writer.blank s.
Proof.
  unfold strip, Writer.blank. rewrite rstrip_nil_iff. split.
  - intros Hall. apply lstrip_nil_iff.
    destruct (lstrip is_space s) as [|c t] eqn:Hl; [done|].
    apply lstrip_head in Hl. inversion Hall; congruence.
  - intros Hs. apply lstrip_nil_iff in Hs. by rewrite Hs.
Qed.

End strip_facts.

Lemma check_field_empty_iff (field_name : str) (value : ScrapYelp.pyval) :
  (ScrapYelp.check_field field_name value = ScrapYelp.PStr [] ↔
     ∃ s, value = ScrapYelp.PStr s ∧ s ≠ [] ∧ Writer.blank s)
  ∧ (value = ScrapYelp.PStr [] →
     ScrapYelp.check_field field_name value = ScrapYelp.PStr ($"No " ++ field_name))
  ∧ (value = ScrapYelp.PNone → ScrapYelp.check_field field_name value = ScrapYelp.PNone).
Proof.
  split_and!.
  - destruct value as [|s]; simpl.
    + split; [done|]. by intros (s & [=] & _).
    + case_bool_decide as Hs.
      * subst. split; [done|]. by intros (s & [= <-] & Hne & _).
      * split.
        -- intros [= Hstrip]. exists s. by rewrite <-strip_nil_iff.
        -- intros (s' & [= <-] & _ & Hb). f_equal. by apply strip_nil_iff.
  - by intros ->.
  - by intros ->.
Qed.

(** X1. A string field of a constructed [SearchData] is the empty string
    exactly when it was given as a non-empty string of white space only;
    a field given as the empty string becomes the placeholder. *)
Theorem search_data_empty_field_iff (name url : ScrapYelp.pyval) :
  let d := ScrapYelp.new_SearchData name url in
  (ScrapYelp.name d = ScrapYelp.PStr [] ↔
     ∃ s, name = ScrapYelp.PStr s ∧ s ≠ [] ∧ Writer.blank s)
  ∧ (ScrapYelp.url d = ScrapYelp.PStr [] ↔
     ∃ s, url = ScrapYelp.PStr s ∧ s ≠ [] ∧ Writer.blank s)
  ∧ (name = ScrapYelp.PStr [] → ScrapYelp.name d = ScrapYelp.PStr $"No name")
  ∧ (url = ScrapYelp.PStr [] → ScrapYelp.url d = ScrapYelp.PStr $"No url").
Proof.
  simpl. split_and!.
  - apply check_field_empty_iff.
  - apply check_field_empty_iff.
  - by intros ->.
  - by intros ->.
Qed.

Section pipeline_any_device.
Import ContactFinder ScrapYelp.
Implicit Types (p : DataPipeline) (w : World) (items : list SearchData).

Lemma save_to_csv_state p w :
  storage_queue (save_to_csv p w).1.2 = []
  ∧ names_seen (save_to_csv p w).1.2 = names_seen p
  ∧ csv_filename (save_to_csv p w).1.2 = csv_filename p
  ∧ storage_queue_limit (save_to_csv p w).1.2 = storage_queue_limit p.
Proof.
  unfold save_to_csv. destruct (storage_queue p); [done|].
  destruct (open_append w _); [|done].
  by destruct (write_rows _ _ _) as [[]].
Qed.

(** A flush that raises, or that finds the queue empty, leaves the flag
    up. *)
Lemma save_to_csv_flag_up p w :
  (∃ cause, (save_to_csv p w).1.1 = Raised cause) ∨ storage_queue p = [] →
  csv_file_open (save_to_csv p w).1.2 = true.
Proof.
  unfold save_to_csv. destruct (storage_queue p) as [|item q]; [done|].
  intros [[cause Hc]|?]; [|done].
  destruct (open_append w _); [|done].
  by destruct (write_rows _ _ _) as [[]].
Qed.

End pipeline_any_device.

(** X2. [close_pipeline] is idempotent on every device: whatever the first
    call did (nothing, a flush, or a flush that raised), the queue is
    empty afterwards and a second call returns at once, leaving the
    writer and the files as they are. *)
Theorem close_pipeline_twice (p : ScrapYelp.DataPipeline) (w : ScrapYelp.World) :
  let '(r, p', w') := ScrapYelp.close_pipeline p w in
  ScrapYelp.storage_queue p' = []
  ∧ ScrapYelp.close_pipeline p' w' = (ContactFinder.Returned (), p', w').
Proof.
  destruct (ScrapYelp.close_pipeline p w) as [[r p'] w'] eqn:Hclose.
  assert (ScrapYelp.storage_queue p' = []) as Hq.
  { unfold ScrapYelp.close_pipeline in Hclose. case_bool_decide as Hlen.
    - pose proof (save_to_csv_state p w) as (Hq & _). by rewrite Hclose in Hq.
    - injection Hclose as _ <- _. destruct (ScrapYelp.storage_queue p); [done|].
      simpl in Hlen. lia. }
  split; [done|]. unfold ScrapYelp.close_pipeline. by rewrite Hq.
Qed.

Section stuck_flag.
Import ContactFinder ScrapYelp.
Implicit Types (p : DataPipeline) (w : World) (items : list SearchData).

(** While the flag is up [add_data] only queues. *)
Lemma add_data_flag_up item p w :
  csv_file_open p = true →
  ∃ p', add_data item p w = (Returned (), p', w)
    ∧ csv_file_open p' = true
    ∧ storage_queue p' = storage_queue p ++ accepted (names_seen p) [item]
    ∧ names_seen p' = names_seen p ++ (name <$> accepted (names_seen p) [item]).
Proof.
  intros Hflag. unfold add_data, is_duplicate. cbn [accepted].
  case_bool_decide as Hdup.
  - exists p. by rewrite !app_nil_r.
  - cbn [storage_queue storage_queue_limit csv_file_open set_queue set_seen].
    rewrite Hflag, andb_false_r. eexists. split_and!; done.
Qed.

Lemma accepted_app seen items items' :
  accepted seen (items ++ items')
  = accepted seen items ++ accepted (seen ++ (name <$> accepted seen items)) items'.
Proof.
  revert seen. induction items as [|item items IH]; intros seen.
  - simpl. by rewrite app_nil_r.
  - cbn [app accepted]. case_bool_decide; [apply IH|].
    rewrite IH. cbn [fmap list_fmap]. by rewrite <-!app_assoc.
Qed.

Lemma add_all_flag_up items p w :
  csv_file_open p = true →
  ∃ p', add_all items p w = (Returned (), p', w)
    ∧ csv_file_open p' = true
    ∧ storage_queue p' = storage_queue p ++ accepted (names_seen p) items
    ∧ names_seen p' = names_seen p ++ (name <$> accepted (names_seen p) items).
Proof.
  revert p. induction items as [|item items IH]; intros p Hflag.
  - exists p. simpl. by rewrite !app_nil_r.
  - destruct (add_data_flag_up item p w Hflag) as (p1 & Hadd & Hflag1 & Hq1 & Hs1).
    destruct (IH p1 Hflag1) as (p' & Hall & Hflag' & Hq' & Hs').
    exists p'. cbn [add_all]. rewrite Hadd, Hall. split_and!; [done|done|..].
    + rewrite Hq', Hq1, Hs1, <-app_assoc. f_equal.
      by rewrite (accepted_app _ [item] items).
    + rewrite Hs', Hs1, <-app_assoc. f_equal.
      by rewrite (accepted_app _ [item] items), fmap_app.
Qed.

(** Names once seen stay seen, and the name of a submitted record is seen
    afterwards, however [add_data] ends. *)
Lemma add_data_names_seen item p w :
  names_seen p ⊆ names_seen (add_data item p w).1.2
  ∧ name item ∈ names_seen (add_data item p w).1.2.
Proof.
  unfold add_data, is_duplicate. case_bool_decide as Hdup; [done|].
  cbn [storage_queue storage_queue_limit csv_file_open set_queue set_seen].
  destruct (_ && _).
  - destruct (save_to_csv_state
                (set_queue (storage_queue p ++ [item])
                   (set_seen (names_seen p ++ [name item]) p)) w) as (_ & -> & _).
    simpl. set_solver.
  - simpl. set_solver.
Qed.

Lemma add_all_names_seen items p w :
  names_seen p ⊆ names_seen (add_all items p w).1.2.
Proof.
  revert p w. induction items as [|item items IH]; intros p w; [done|].
  cbn [add_all]. pose proof (add_data_names_seen item p w) as [Hsub _].
  destruct (add_data item p w) as [[[u|cause] p1] w1]; simpl in *; [|done].
  etrans; [done|apply IH].
Qed.

(** A record whose name is seen is dropped without any effect. *)
Lemma add_all_seen items p w :
  (∀ x, x ∈ items → name x ∈ names_seen p) →
  add_all items p w = (Returned (), p, w).
Proof.
  induction items as [|item items IH]; intros Hseen; [done|].
  cbn [add_all]. unfold add_data, is_duplicate.
  rewrite bool_decide_true by (apply Hseen; by left).
  apply IH. intros x Hx. apply Hseen. by right.
Qed.

(** What [add_all] went through when it raised: a non-empty initial part
    of the submissions, all of whose names are seen. *)
Lemma add_all_raised items p w cause p' w' :
  add_all items p w = (Raised cause, p', w') →
  ∃ consumed rest, items = consumed ++ rest ∧ consumed ≠ []
    ∧ (∀ x, x ∈ consumed → name x ∈ names_seen p')
    ∧ storage_queue p' = [] ∧ csv_file_open p' = true.
Proof.
  revert p w. induction items as [|item items IH]; intros p w; [done|].
  cbn [add_all]. pose proof (add_data_names_seen item p w) as [Hsub Hin].
  destruct (add_data item p w) as [[[u|cause1] p1] w1] eqn:Hadd; simpl in *.
  - intros Hall. pose proof (add_all_names_seen items p1 w1) as Hmono.
    rewrite Hall in Hmono. simpl in Hmono.
    destruct (IH _ _ Hall) as (consumed & rest & -> & Hne & Hseen & Hq & Hflag).
    exists (item :: consumed), rest. split_and!; [done|done| |done|done].
    intros x [->|Hx]%elem_of_cons; [by apply Hmono|by apply Hseen].
  - intros [= <- <- <-]. exists [item], items. split_and!; [done|done| | |].
    + by intros x ->%list_elem_of_singleton.
    + unfold add_data, is_duplicate in Hadd. case_bool_decide; [done|].
      cbn [storage_queue storage_queue_limit csv_file_open set_queue set_seen] in Hadd.
      destruct (_ && _); [|done].
      pose proof (save_to_csv_state
                    (set_queue (storage_queue p ++ [item])
                       (set_seen (names_seen p ++ [name item]) p)) w) as (Hq & _).
      by rewrite Hadd in Hq.
    + unfold add_data, is_duplicate in Hadd. case_bool_decide; [done|].
      cbn [storage_queue storage_queue_limit csv_file_open set_queue set_seen] in Hadd.
      destruct (_ && _); [|done].
      pose proof (save_to_csv_flag_up
                    (set_queue (storage_queue p ++ [item])
                       (set_seen (names_seen p ++ [name item]) p)) w) as Hflag.
      rewrite Hadd in Hflag. apply Hflag. left. by exists cause1.
Qed.

End stuck_flag.

(** X3. Once the flag [csv_file_open] is up (as a flush that raised, or a
    flush of an empty queue, leaves it) [add_data] never flushes again,
    whatever the capacity: every submission returns without touching the
    files, and the queue grows by the records that are not duplicates. *)
Theorem raised_flag_stops_automatic_flushes (items : list ScrapYelp.SearchData)
    (p : ScrapYelp.DataPipeline) (w : ScrapYelp.World) :
  ScrapYelp.csv_file_open p = true →
  ∃ p', ScrapYelp.add_all items p w = (ContactFinder.Returned (), p', w)
    ∧ ScrapYelp.csv_file_open p' = true
    ∧ ScrapYelp.storage_queue p'
      = ScrapYelp.storage_queue p ++ ScrapYelp.accepted (ScrapYelp.names_seen p) items.
Proof.
  intros Hflag. destruct (add_all_flag_up items p w Hflag) as (p' & ? & ? & ? & _).
  by exists p'.
Qed.

Lemma raised_flag_stops_automatic_flushes_witness :
  ∃ p', ScrapYelp.add_all [Demo.acme_item; Demo.bright_item; Demo.gentle_item]
          (ScrapYelp.save_to_csv Demo.queued Demo.read_only).1.2 Demo.blank_disk
        = (ContactFinder.Returned (), p', Demo.blank_disk)
    ∧ ScrapYelp.csv_file_open p' = true
    ∧ ScrapYelp.storage_queue p'
      = ScrapYelp.storage_queue (ScrapYelp.save_to_csv Demo.queued Demo.read_only).1.2
        ++ ScrapYelp.accepted
             (ScrapYelp.names_seen (ScrapYelp.save_to_csv Demo.queued Demo.read_only).1.2)
             [Demo.acme_item; Demo.bright_item; Demo.gentle_item].
Proof.
  apply (raised_flag_stops_automatic_flushes
           [Demo.acme_item; Demo.bright_item; Demo.gentle_item]
           (ScrapYelp.save_to_csv Demo.queued Demo.read_only).1.2 Demo.blank_disk).
  reflexivity.
Defined.

(** X4. When a sequence of submissions is cut short by a flush that
    raises, the records gone through so far (a non-empty initial part of
    the sequence) cannot be recovered by submitting them again: the queue
    is empty, the flag is up, and submitting them again is refused for
    each of them as a duplicate, with no effect at all. *)
Theorem raised_submissions_cannot_be_retried (items : list ScrapYelp.SearchData)
    (p : ScrapYelp.DataPipeline) (w : ScrapYelp.World)
    (cause : str) (p' : ScrapYelp.DataPipeline) (w' : ScrapYelp.World) :
  ScrapYelp.add_all items p w = (ContactFinder.Raised cause, p', w') →
  ∃ consumed rest,
    items = consumed ++ rest ∧ consumed ≠ []
    ∧ ScrapYelp.storage_queue p' = []
    ∧ ScrapYelp.csv_file_open p' = true
    ∧ ScrapYelp.add_all consumed p' w' = (ContactFinder.Returned (), p', w').
Proof.
  intros (consumed & rest & -> & Hne & Hseen & Hq & Hflag)%add_all_raised.
  exists consumed, rest. split_and!; [done..|]. by apply add_all_seen.
Qed.

Lemma raised_submissions_cannot_be_retried_witness :
  ∃ consumed rest,
    [Demo.acme_item; Demo.bright_item; Demo.gentle_item] = consumed ++ rest
    ∧ consumed ≠ []
    ∧ ScrapYelp.storage_queue
        (ScrapYelp.add_all [Demo.acme_item; Demo.bright_item; Demo.gentle_item]
           (ScrapYelp.new_DataPipeline $"Chiropractors.csv" 2) Demo.nearly_full).1.2 = []
    ∧ ScrapYelp.csv_file_open
        (ScrapYelp.add_all [Demo.acme_item; Demo.bright_item; Demo.gentle_item]
           (ScrapYelp.new_DataPipeline $"Chiropractors.csv" 2) Demo.nearly_full).1.2 = true
    ∧ ScrapYelp.add_all consumed
        (ScrapYelp.add_all [Demo.acme_item; Demo.bright_item; Demo.gentle_item]
           (ScrapYelp.new_DataPipeline $"Chiropractors.csv" 2) Demo.nearly_full).1.2
        (ScrapYelp.add_all [Demo.acme_item; Demo.bright_item; Demo.gentle_item]
           (ScrapYelp.new_DataPipeline $"Chiropractors.csv" 2) Demo.nearly_full).2
      = (ContactFinder.Returned (),
         (ScrapYelp.add_all [Demo.acme_item; Demo.bright_item; Demo.gentle_item]
            (ScrapYelp.new_DataPipeline $"Chiropractors.csv" 2) Demo.nearly_full).1.2,
         (ScrapYelp.add_all [Demo.acme_item; Demo.bright_item; Demo.gentle_item]
            (ScrapYelp.new_DataPipeline $"Chiropractors.csv" 2) Demo.nearly_full).2).
Proof.
  apply (raised_submissions_cannot_be_retried
           [Demo.acme_item; Demo.bright_item; Demo.gentle_item]
           (ScrapYelp.new_DataPipeline $"Chiropractors.csv" 2) Demo.nearly_full
           $"OSError").
  vm_compute. reflexivity.
Defined.

(** X5. Submitting again records that were all submitted before, on any
    device and whether or not they reached the file, changes neither the
    writer nor the files. *)
Theorem resubmission_is_dropped (items : list ScrapYelp.SearchData)
    (p : ScrapYelp.DataPipeline) (w : ScrapYelp.World)
    (p' : ScrapYelp.DataPipeline) (w' : ScrapYelp.World) :
  ScrapYelp.add_all items p w = (ContactFinder.Returned (), p', w') →
  ScrapYelp.add_all items p' w' = (ContactFinder.Returned (), p', w').
Proof.
  intros Hall. apply add_all_seen. intros x Hx.
  revert p w Hall. induction items as [|item items IH]; intros p w Hall.
  - by apply elem_of_nil in Hx.
  - cbn [ScrapYelp.add_all] in Hall.
    pose proof (add_data_names_seen item p w) as [_ Hin].
    destruct (ScrapYelp.add_data item p w) as [[[u|c] p1] w1]; [|done].
    simpl in Hin. apply elem_of_cons in Hx as [->|Hx].
    + pose proof (add_all_names_seen items p1 w1) as Hmono.
      rewrite Hall in Hmono. by apply Hmono.
    + by apply (IH Hx p1 w1).
Qed.

Lemma resubmission_is_dropped_witness :
  ScrapYelp.add_all [Demo.acme_item; Demo.bright_item]
    (ScrapYelp.add_all [Demo.acme_item; Demo.bright_item]
       (ScrapYelp.new_DataPipeline $"Chiropractors.csv" 50) Demo.blank_disk).1.2
    (ScrapYelp.add_all [Demo.acme_item; Demo.bright_item]
       (ScrapYelp.new_DataPipeline $"Chiropractors.csv" 50) Demo.blank_disk).2
  = (ContactFinder.Returned (),
     (ScrapYelp.add_all [Demo.acme_item; Demo.bright_item]
        (ScrapYelp.new_DataPipeline $"Chiropractors.csv" 50) Demo.blank_disk).1.2,
     (ScrapYelp.add_all [Demo.acme_item; Demo.bright_item]
        (ScrapYelp.new_DataPipeline $"Chiropractors.csv" 50) Demo.blank_disk).2).
Proof.
  apply (resubmission_is_dropped [Demo.acme_item; Demo.bright_item]
           (ScrapYelp.new_DataPipeline $"Chiropractors.csv" 50) Demo.blank_disk).
  vm_compute. reflexivity.
Defined.

Section header_once.
Import ContactFinder ScrapYelp Writer.
Implicit Types (p : DataPipeline) (w : World) (items q : list SearchData)
  (old : list csv_row).

Lemma batch_app header q q' :
  batch header (q ++ q') = batch header q ++ batch false q'.
Proof. unfold batch. by rewrite fmap_app, app_assoc. Qed.

(** Flushing in two goes gives the rows of one flush of everything. *)
Lemma rows_after_app old q q' :
  rows_after (rows_after old q) q' = rows_after old (q ++ q').
Proof.
  destruct q as [|x q]; [done|]. destruct q' as [|y q'].
  - by rewrite app_nil_r.
  - cbn [rows_after app]. rewrite (app_comm_cons q (y :: q') x), batch_app.
    rewrite <-app_assoc. do 2 f_equal.
    rewrite bool_decide_false; [done|].
    unfold batch. destruct (bool_decide (old = [])), old; done.
Qed.

Lemma file_exists_rows w filename :
  negb (file_exists w filename) = bool_decide (file_rows w filename = []).
Proof.
  unfold file_exists, file_rows. by destruct (files w !! filename) as [[|]|].
Qed.

Lemma save_to_csv_healthy_rows p w :
  healthy w → storage_queue p ≠ [] →
  file_rows (save_to_csv p w).2 (csv_filename p)
  = rows_after (file_rows w (csv_filename p)) (storage_queue p).
Proof.
  intros [Hden Hroom] Hq. unfold save_to_csv.
  destruct (storage_queue p) as [|item q] eqn:Hqueue; [done|].
  cbn [csv_filename set_queue set_flag rows_after].
  unfold open_append. rewrite Hden, file_exists_rows.
  edestruct (write_rows_healthy
    {| files := <[csv_filename p := file_rows w (csv_filename p)]> (files w);
       trace := trace w ++ [Opened (csv_filename p)];
       open_denied := false; room := room w |}
    (csv_filename p)
    (batch (bool_decide (file_rows w (csv_filename p) = [])) (item :: q)))
    as (w' & -> & _ & Hfile & _); [by split|].
  simpl. rewrite Hfile. unfold file_rows at 1. simpl. by rewrite lookup_insert_eq.
Qed.

(** The rows of the file and the queue, along healthy submissions. *)
Lemma add_all_healthy_rows items p w :
  healthy w → csv_file_open p = false →
  ∃ flushed,
    file_rows (add_all items p w).2 (csv_filename p)
    = rows_after (file_rows w (csv_filename p)) flushed
    ∧ flushed ++ storage_queue (add_all items p w).1.2
      = storage_queue p ++ accepted (names_seen p) items.
Proof.
  revert p w. induction items as [|item items IH]; intros p w Hw Hflag.
  - exists []. simpl. by rewrite app_nil_r.
  - destruct (add_data_healthy item p w Hw Hflag)
      as (p1 & w1 & Hadd & Hw1 & Hflag1 & Hname1 & _ & Hstep).
    destruct (IH p1 w1 Hw1 Hflag1) as (flushed & Hrows & Hqueue).
    cbn [add_all accepted]. rewrite Hadd. rewrite Hname1 in Hrows.
    destruct (decide (name item ∈ names_seen p)) as [Hdup|Hnew].
    + destruct Hstep as [-> ->]. rewrite bool_decide_true by done. by exists flushed.
    + rewrite bool_decide_false by done.
      destruct Hstep as (Hseen1 & _ & Hstep). rewrite Hseen1 in Hqueue.
      destruct (decide (storage_queue_limit p
                        ≤ Z.of_nat (S (length (storage_queue p))))%Z) as [Hfull|Hroom].
      * destruct Hstep as [Hq1 _].
        exists ((storage_queue p ++ [item]) ++ flushed). split.
        -- rewrite Hrows, <-rows_after_app. f_equal.
           unfold add_data, is_duplicate in Hadd.
           rewrite bool_decide_false in Hadd by done.
           cbn [storage_queue storage_queue_limit csv_file_open set_queue set_seen] in Hadd.
           rewrite Hflag, length_app, Nat.add_comm in Hadd.
           cbn [negb length Nat.add] in Hadd.
           rewrite andb_true_r, bool_decide_true in Hadd by done.
           pose proof (save_to_csv_healthy_rows
                         (set_queue (storage_queue p ++ [item])
                            (set_seen (names_seen p ++ [name item]) p)) w Hw) as Hsave.
           rewrite Hadd in Hsave. apply Hsave. by destruct (storage_queue p).
        -- rewrite Hq1 in Hqueue. simpl in Hqueue.
           by rewrite <-!app_assoc, Hqueue.
      * destruct Hstep as [Hq1 ->]. exists flushed. split; [done|].
        rewrite Hq1, <-app_assoc in Hqueue. done.
Qed.

End header_once.

(** X6. The header is written exactly once. After a run on a device that
    takes every write (submissions, then [close_pipeline]), whatever the
    capacity and the number of flushes: a file that had no row holds the
    header followed by one row per kept record, in order; a file that had
    rows has gained the rows of the kept records and no header; and with
    nothing kept the file is as it was. *)
Theorem header_written_once (items : list ScrapYelp.SearchData)
    (filename : str) (limit : Z) (w : ScrapYelp.World) :
  ScrapYelp.healthy w →
  let '(r1, p1, w1) :=
    ScrapYelp.add_all items (ScrapYelp.new_DataPipeline filename limit) w in
  let '(r2, p2, w2) := ScrapYelp.close_pipeline p1 w1 in
  let kept := ScrapYelp.first_seen_wins items in
  let old := ScrapYelp.file_rows w filename in
  let data := (λ item, ScrapYelp.DataRow (ScrapYelp.asdict item)) <$> kept in
  ScrapYelp.file_rows w2 filename
  = match kept, old with
    | [], _ => old
    | _ :: _, [] => ScrapYelp.HeaderRow ScrapYelp.FIELD_NAMES :: data
    | _ :: _, _ :: _ => old ++ data
    end.
Proof.
  intros Hw.
  destruct (add_all_healthy_rows items (ScrapYelp.new_DataPipeline filename limit) w Hw eq_refl)
    as (flushed & Hrows & Hqueue).
  destruct (add_all_healthy items (ScrapYelp.new_DataPipeline filename limit) w Hw eq_refl)
    as (p1 & w1 & Hall & Hw1 & Hflag1 & Hname1 & _).
  rewrite Hall in Hrows, Hqueue |- *. simpl in Hrows, Hqueue, Hname1.
  rewrite accepted_nil_first_seen in Hqueue.
  assert (ScrapYelp.file_rows (ScrapYelp.close_pipeline p1 w1).2 filename
          = Writer.rows_after (ScrapYelp.file_rows w filename)
              (ScrapYelp.first_seen_wins items)) as Hfinal.
  { rewrite <-Hqueue, <-rows_after_app, <-Hrows.
    unfold ScrapYelp.close_pipeline.
    destruct (ScrapYelp.storage_queue p1) as [|x q] eqn:Hq; [done|].
    rewrite bool_decide_true by (simpl; lia).
    rewrite <-Hq, <-Hname1. apply save_to_csv_healthy_rows; [done|by rewrite Hq]. }
  destruct (ScrapYelp.close_pipeline p1 w1) as [[r2 p2] w2]. simpl in Hfinal.
  cbn zeta. rewrite Hfinal. unfold Writer.rows_after, ScrapYelp.batch.
  destruct (ScrapYelp.first_seen_wins items) as [|x kept]; [done|].
  by destruct (ScrapYelp.file_rows w filename).
Qed.

Lemma header_written_once_witness :
  let items := [Demo.acme_item; Demo.bright_item; Demo.acme_item; Demo.gentle_item] in
  let '(r1, p1, w1) :=
    ScrapYelp.add_all items (ScrapYelp.new_DataPipeline $"Chiropractors.csv" 1)
      Demo.blank_disk in
  let '(r2, p2, w2) := ScrapYelp.close_pipeline p1 w1 in
  let kept := ScrapYelp.first_seen_wins items in
  let old := ScrapYelp.file_rows Demo.blank_disk $"Chiropractors.csv" in
  let data := (λ item, ScrapYelp.DataRow (ScrapYelp.asdict item)) <$> kept in
  ScrapYelp.file_rows w2 $"Chiropractors.csv"
  = match kept, old with
    | [], _ => old
    | _ :: _, [] => ScrapYelp.HeaderRow ScrapYelp.FIELD_NAMES :: data
    | _ :: _, _ :: _ => old ++ data
    end.
Proof.
  apply (header_written_once
           [Demo.acme_item; Demo.bright_item; Demo.acme_item; Demo.gentle_item]
           $"Chiropractors.csv" 1 Demo.blank_disk).
  split; reflexivity.
Defined.

(* ===================================================================== *)
(** ** More on the contact finder *)
(* ===================================================================== *)

Section found_emails.
Import ContactFinder.
Implicit Types (E : Env) (s e : str).

Lemma lower_char_idemp a : lower_char (lower_char a) = lower_char a.
Proof.
  destruct a as [b0 b1 b2 b3 b4 b5 b6 b7].
  destruct b0, b1, b2, b3, b4, b5, b6, b7; vm_compute; done.
Qed.

Lemma lower_idemp s : lower (lower s) = lower s.
Proof.
  unfold lower. rewrite <-list_fmap_compose. apply list_fmap_ext.
  intros i a _. apply lower_char_idemp.
Qed.

Lemma extraer_neat texto e :
  _extraer_primer_email_valido_de_texto texto = Some e → neat e.
Proof.
  unfold _extraer_primer_email_valido_de_texto.
  destruct (py_search EMAIL_REGEX texto) as [m|]; [|done].
  destruct (py_fullmatch EMAIL_REGEX (lower m)) eqn:Hfull; [|done].
  intros [= <-]. split; [by apply py_fullmatch_EMAIL|apply lower_idemp].
Qed.


Lemma first_mailto_Some hrefs e :
  first_mailto hrefs = Some e →
  ∃ href, href ∈ hrefs ∧ valid_mailto href ∧ e = mailto_target href.
Proof.
  induction hrefs as [|href hrefs IH]; [done|]. cbn [first_mailto].
  destruct (startswith $"mailto:" (lower href)) eqn:Hpre.
  - rewrite (mailto_candidate_target _ Hpre).
    destruct (py_fullmatch EMAIL_REGEX (mailto_target href)) eqn:Hfull.
    + intros [= <-]. exists href. split_and!; [by left| |done].
      split; [done|by apply py_fullmatch_EMAIL].
    + intros (h & ? & ?)%IH. exists h. split; [by right|done].
  - rewrite (mailto_candidate_None _ Hpre).
    intros (h & ? & ?)%IH. exists h. split; [by right|done].
Qed.


Lemma mailto_target_lower href : lower (mailto_target href) = mailto_target href.
Proof. unfold mailto_target. apply lower_idemp. Qed.

(** What the fast path returns is a valid address in lower case. *)
Lemma fast_path_neat E url e :
  buscar_primer_email_con_requests E url = Some e → neat e.
Proof.
  unfold buscar_primer_email_con_requests.
  destruct (session_get E url) as [respuesta|]; [|done].
  destruct (first_mailto _) as [m|] eqn:Hm.
  - intros [= <-]. apply first_mailto_Some in Hm as (href & _ & [_ Hem] & ->).
    split; [done|apply mailto_target_lower].
  - destruct (_extraer_primer_email_valido_de_texto _) as [t|] eqn:Ht; [|done].
    rewrite (extraer_truthy _ _ Ht). intros [= <-]. by apply extraer_neat in Ht.
Qed.

Lemma neat_truthy e : neat e → truthy (Some e) = true.
Proof. intros [Hem%is_email_nonempty _]. by destruct e. Qed.

(** What the deep path returns as email is a valid address in lower
    case. *)
Lemma deep_path_neat E base_url r e :
  buscar_datos_contacto_con_selenium E base_url = Returned r →
  email r = Some e → neat e.
Proof.
  unfold buscar_datos_contacto_con_selenium, deep_search.
  destruct (urls_a_visitar E base_url) as [urls|]; [|done].
  intros [= <-]. cbn [email].
  destruct (visit_all_stops_at_first E (list_of_set E urls)
              {| email_final := None; facebook_links_final := ∅; visited := [] |}
              eq_refl) as (seen & _ & _ & Hres).
  intros He. rewrite He in Hres. destruct Hres as (earlier & u & _ & Hu & _).
  unfold page_email in Hu. destruct (driver_page_source E u); [|done].
  by apply extraer_neat in Hu.
Qed.

End found_emails.

(** The cases of [resolve]. *)
Lemma resolve_cases (E : Env) (business : gmap str json) :
  match ContactFinder.resolve E business with
  | ContactFinder.Returned (final_email, final_fb_links, method_used) =>
      (method_used = $"Requests (Email)"
       ∧ (∃ e, final_email = Some e ∧ neat e) ∧ final_fb_links = [])
      ∨ (method_used = $"Selenium (Email)" ∧ driver_available E = true
         ∧ (∃ e, final_email = Some e ∧ neat e) ∧ final_fb_links = [])
      ∨ (method_used = $"Selenium (FB Links)" ∧ driver_available E = true
         ∧ final_email = None ∧ final_fb_links ≠ [])
      ∨ (method_used = $"Ninguno" ∧ final_email = None ∧ final_fb_links = [])
  | ContactFinder.Raised cause => deep_path_breaks E business cause
  end.
Proof.
  destruct (ContactFinder.resolve E business) as [[[final_email final_fb_links] method_used]|cause]
    eqn:Hres; [|by apply resolve_Raised].
  revert Hres. unfold ContactFinder.resolve.
  destruct (ContactFinder.is_valid_website _); [|intros [= <- <- <-]; by do 3 right].
  destruct (business !! $"website") as [[| | |url| |]|];
    try (intros [= <- <- <-]; by do 3 right).
  destruct (ContactFinder.buscar_primer_email_con_requests E url) as [e|] eqn:Hfast.
  - pose proof (fast_path_neat _ _ _ Hfast) as Hneat.
    rewrite (neat_truthy _ Hneat). intros [= <- <- <-].
    left. split_and!; [done| |done]. by exists e.
  - cbn [truthy]. destruct (driver_available E); [|intros [= <- <- <-]; by do 3 right].
    destruct (ContactFinder.buscar_datos_contacto_con_selenium E url) as [r|c] eqn:Hdeep;
      [|done].
    destruct (ContactFinder.email r) as [e|] eqn:Hmail.
    + pose proof (deep_path_neat _ _ _ _ Hdeep Hmail) as Hneat.
      rewrite (neat_truthy _ Hneat). intros [= <- <- <-].
      right; left. split_and!; [done|done| |done]. by exists e.
    + cbn [truthy]. destruct (ContactFinder.facebook_links r) eqn:Hl.
      * intros [= <- <- <-]. by do 3 right.
      * intros [= <- <- <-]. right; right; left. by split_and!.
Qed.



Section deep_links.
Import ContactFinder.
Implicit Types (E : Env) (st : deep_state) (urls : list str).

Lemma visit_all_email_kept E urls st e :
  email_final st = Some e → truthy (Some e) = true →
  visit_all E urls st = st.
Proof. intros He Ht. destruct urls; [done|]. cbn [visit_all]. by rewrite He, Ht. Qed.

Lemma visit_links E st url u :
  email_final st = None → page_email E url = None →
  u ∈ facebook_links_final (visit E st url) ↔
  u ∈ facebook_links_final st ∨ found_on E [url] u.
Proof.
  intros Hst Hpage. unfold visit, page_email, found_on in *.
  destruct (driver_page_source E url) as [page_source|] eqn:Hsrc.
  - simpl in Hpage. rewrite Hpage. cbn [truthy].
    destruct (buscar_facebook_links_en_html E page_source url) as [links|cause] eqn:Hlinks.
    + cbn [facebook_links_final].
      rewrite elem_of_union, elem_of_list_to_set. split.
      * intros [?|?]; [by left|right]. exists url, page_source, links.
        split_and!; [by left|done|done|done].
      * intros [?|(url' & src & ls & ->%list_elem_of_singleton & Hs & Hl & ?)];
          [by left|right].
        rewrite Hsrc in Hs. injection Hs as <-. rewrite Hlinks in Hl. by injection Hl as <-.
    + cbn [facebook_links_final]. split; [by left|].
      intros [?|(url' & src & ls & ->%list_elem_of_singleton & Hs & Hl & ?)]; [done|].
      rewrite Hsrc in Hs. injection Hs as <-. congruence.
  - simpl. split; [by left|].
    intros [?|(url' & src & ls & ->%list_elem_of_singleton & Hs & _)]; [done|].
    congruence.
Qed.

(** When the loop ends without an email, the links it holds are those it
    held and those found on the pages that loaded. *)
Lemma visit_all_links E urls st u :
  email_final st = None → email_final (visit_all E urls st) = None →
  u ∈ facebook_links_final (visit_all E urls st) ↔
  u ∈ facebook_links_final st ∨ found_on E urls u.
Proof.
  revert st. induction urls as [|url rest IH]; intros st Hst Hend.
  - simpl. split; [by left|]. intros [?|(? & ? & ? & ?%elem_of_nil & _)]; done.
  - cbn [visit_all] in *. rewrite Hst in *. cbn [truthy] in *.
    pose proof (visit_email_final E st url Hst) as Hmail.
    destruct (page_email E url) as [e|] eqn:Hpage.
    + rewrite (visit_all_email_kept E rest _ e Hmail) in Hend
        by by eapply page_email_truthy.
      congruence.
    + rewrite (IH _ Hmail Hend), (visit_links _ _ _ _ Hst Hpage). unfold found_on.
      split.
      * intros [[?|(url' & src & ls & ->%list_elem_of_singleton & ? & ? & ?)]
               |(url' & src & ls & ? & ? & ? & ?)]; [by left|right..].
        -- exists url, src, ls. split_and!; [by left|done..].
        -- exists url', src, ls. split_and!; [by right|done..].
      * intros [?|(url' & src & ls & [->|?]%elem_of_cons & ? & ? & ?)].
        -- by do 2 left.
        -- left; right. exists url, src, ls. split_and!; [by left|done..].
        -- right. exists url', src, ls. by split_and!.
Qed.

End deep_links.

(** X9. When the candidate URLs can all be built, the deep path returns;
    and when it finds no email, the links it returns are pairwise distinct
    and are exactly those the social-link extractor returns for the
    candidate pages that load, each page being read against its own URL; a
    page that fails to load, or on which the extractor raises, contributes
    nothing and does not end the search. *)
Theorem deep_path_links_union (E : Env) (base_url : str) (candidates : list str) :
  set_order_ok E →
  configured_candidates E base_url = ContactFinder.Returned candidates →
  ∃ r, ContactFinder.buscar_datos_contacto_con_selenium E base_url
       = ContactFinder.Returned r
    ∧ (ContactFinder.email r = None →
       NoDup (ContactFinder.facebook_links r)
       ∧ ∀ u, u ∈ ContactFinder.facebook_links r ↔ found_on E candidates u).
Proof.
  intros Hord Hc. unfold set_order_ok in Hord.
  unfold ContactFinder.buscar_datos_contacto_con_selenium, ContactFinder.deep_search.
  rewrite urls_a_visitar_candidates, Hc. eexists. split; [reflexivity|].
  cbn [ContactFinder.email ContactFinder.facebook_links]. intros Hnone. split.
  - rewrite Hord. apply NoDup_elements.
  - intros u. rewrite Hord, elem_of_elements.
    rewrite visit_all_links by done. cbn [ContactFinder.facebook_links_final].
    split.
    + intros [?%not_elem_of_empty|(url & src & ls & Hurl & ? & ? & ?)]; [done|].
      exists url, src, ls. split_and!; [|done..].
      rewrite Hord, elem_of_elements in Hurl.
      by apply elem_of_list_to_set in Hurl.
    + intros (url & src & ls & Hurl & ? & ? & ?). right. exists url, src, ls.
      split_and!; [|done..]. rewrite Hord, elem_of_elements.
      by apply elem_of_list_to_set.
Qed.

Lemma deep_path_links_union_witness :
  ∃ r, ContactFinder.buscar_datos_contacto_con_selenium Demo2.social $"http://acme.example"
       = ContactFinder.Returned r
    ∧ (ContactFinder.email r = None →
       NoDup (ContactFinder.facebook_links r)
       ∧ ∀ u, u ∈ ContactFinder.facebook_links r
              ↔ found_on Demo2.social
                  (default [] (match configured_candidates Demo2.social $"http://acme.example" with
                               | ContactFinder.Returned candidates => Some candidates
                               | ContactFinder.Raised _ => None
                               end)) u).
Proof.
  apply (deep_path_links_union Demo2.social $"http://acme.example").
  - intros X. reflexivity.
  - vm_compute. reflexivity.
Defined.

Example deep_path_links_of_social_site :
  ContactFinder.facebook_links
    <$> (match ContactFinder.buscar_datos_contacto_con_selenium Demo2.social
                 $"http://acme.example" with
         | ContactFinder.Returned r => Some r
         | ContactFinder.Raised _ => None
         end)
  = Some [ $"https://www.facebook.com/acmedental/" ].
Proof. vm_compute. reflexivity. Qed.

Section stage_outcomes.
Import ContactFinder.
Implicit Types (E : Env) (v : json).



Lemma process_all_Returned E (l : list json) results :
  process_all E l = Returned results ↔
  ∃ records, l = JObj <$> records ∧ entries_of E records results.
Proof.
  revert results. induction l as [|x l IH]; intros results.
  - simpl. split.
    + intros [= <-]. exists []. split; [done|constructor].
    + intros (records & Hl & Hall). destruct records; [|done]. by inversion Hall.
  - destruct x as [| | | | |business];
      try (simpl; split; [done|intros ([|? ?] & Hx & _); simplify_eq/=]).
    cbn [process_all]. destruct (result_entry E business) as [entry|cause] eqn:Hentry.
    + destruct (process_all E l) as [rs|cause] eqn:Hl.
      * split.
        -- intros [= <-]. destruct (proj1 (IH rs) eq_refl) as (records & -> & Hall).
           exists (business :: records). split; [done|by constructor].
        -- intros (records & Hrec & Hall). destruct records as [|b records]; [done|].
           rewrite fmap_cons in Hrec. injection Hrec as <- ->.
           inversion Hall as [|? entry' ? results' Hb Hrest]; subst.
           rewrite Hentry in Hb. injection Hb as <-.
           assert (Returned rs = Returned results') as Hx
             by (apply IH; by exists records).
           by injection Hx as ->.
      * split; [done|]. intros (records & Hrec & Hall).
        destruct records as [|b records]; [done|].
        rewrite fmap_cons in Hrec. injection Hrec as <- ->.
        inversion Hall as [|? entry' ? results' Hb Hrest]; subst.
        assert (@Raised (list (gmap str json)) cause = Returned results') as Hx
          by (apply IH; by exists records).
        done.
    + split; [done|]. intros (records & Hrec & Hall).
      destruct records as [|b records]; [done|].
      rewrite fmap_cons in Hrec. injection Hrec as <- ->.
      inversion Hall as [|? entry' ? results' Hb Hrest]; subst. congruence.
Qed.

(** The loop returns exactly on the values [read_as] describes, when no
    resolution raises. *)
Lemma iterate_process_Returned E v results :
  (∃ l, iterate v = Returned l ∧ process_all E l = Returned results) ↔
  ∃ records, read_as v records ∧ entries_of E records results.
Proof.
  split.
  - intros (l & Hit & (records & -> & Hall)%process_all_Returned).
    exists records. split; [|done]. destruct v as [| | |s|l'|m]; simpl in Hit; try done.
    + injection Hit as Hs. destruct s; [|by destruct records].
      destruct records; [|done]. right. auto.
    + injection Hit as ->. by left.
    + injection Hit as Hm. destruct records as [|b records].
      * right. split; [done|]. left. f_equal.
        apply fmap_nil_inv, fmap_nil_inv in Hm. by apply map_to_list_empty_iff.
      * destruct (map_to_list m) as [|[k x] kvs]; [done|]. by simpl in Hm.
  - intros (records & [->|[-> [->| ->]]] & Hall).
    + exists (JObj <$> records). split; [done|]. by apply process_all_Returned; exists records.
    + inversion Hall; subst. exists []. split; [|done]. simpl. by rewrite map_to_list_empty.
    + inversion Hall; subst. by exists [].
Qed.



Lemma procesar_negocios_Returned E input_json_path results out :
  procesar_negocios E input_json_path = (Returned results, out) ↔
  (∃ cause, (json_load E input_json_path = FileNotFoundError cause
             ∨ json_load E input_json_path = JSONDecodeError cause)
            ∧ results = [] ∧ out = [LoadError input_json_path cause])
  ∨ (∃ v records, json_load E input_json_path = Loaded v ∧ read_as v records
                  ∧ entries_of E records results ∧ out = []).
Proof.
  unfold procesar_negocios.
  destruct (json_load E input_json_path) as [v|cause|cause|cause] eqn:Hload.
  - split.
    + intros Hret. right. exists v.
      destruct (iterate v) as [l|c] eqn:Hit; [|done].
      injection Hret as Hp <-.
      destruct (proj1 (iterate_process_Returned E v results)) as (records & ? & ?);
        [by exists l|]. by exists records.
    + intros [(c & [?|?] & _)|(v' & records & [= <-] & Hread & Hall & ->)]; [done..|].
      destruct (proj2 (iterate_process_Returned E v results))
        as (l & -> & ->); [by exists records|done].
  - split.
    + intros [= <- <-]. left. exists cause. auto.
    + intros [(c & [[= <-]|?] & -> & ->)|(? & ? & ? & _)]; done.
  - split.
    + intros [= <- <-]. left. exists cause. auto.
    + intros [(c & [?|[= <-]] & -> & ->)|(? & ? & ? & _)]; done.
  - split; [done|]. intros [(c & [?|?] & _)|(? & ? & ? & _)]; done.
Qed.


End stage_outcomes.


(* ===================================================================== *)
(** ** The conversion to CSV *)
(* ===================================================================== *)

Section strip_idempotent.
Implicit Types (s : str) (p : ascii → bool).

Lemma lstrip_fixed p s :
  (∀ c t, s = c :: t → p c = false) → lstrip p s = s.
Proof. destruct s as [|c t]; [done|]. intros H. simpl. by rewrite (H c t). Qed.

Lemma rstrip_prefix p s : rstrip p s `prefix_of` s.
Proof.
  unfold rstrip. rewrite <-(reverse_involutive s) at 2.
  apply suffix_prefix_reverse, lstrip_suffix.
Qed.

Lemma rstrip_idemp p s : rstrip p (rstrip p s) = rstrip p s.
Proof.
  unfold rstrip. rewrite reverse_involutive. f_equal.
  apply lstrip_fixed. intros c t Hl. by apply lstrip_head in Hl.
Qed.

(** Stripping the right end of a string that does not start with a
    stripped character leaves a string of that kind. *)
Lemma lstrip_rstrip_fixed p s :
  (∀ c t, s = c :: t → p c = false) → lstrip p (rstrip p s) = rstrip p s.
Proof.
  intros Hs. apply lstrip_fixed. intros c t Hr.
  destruct (rstrip_prefix p s) as [k Hk]. rewrite Hr in Hk.
  by apply (Hs c (t ++ k)).
Qed.

Lemma strip_idemp s : strip (strip s) = strip s.
Proof.
  unfold strip. rewrite lstrip_rstrip_fixed.
  - apply rstrip_idemp.
  - intros c t Hl. by apply lstrip_head in Hl.
Qed.

End strip_idempotent.

Section address.
Import ConvertCsv.
Implicit Types (s : str).

Lemma split_head c s : ∃ parts, split c s = before_first c s :: parts.
Proof.
  induction s as [|a s [parts IH]]; simpl; [by exists []|].
  case_bool_decide; [by eexists|]. rewrite IH. by eexists.
Qed.

Lemma split_length c s : length (split c s) = S (count_char c s).
Proof.
  unfold count_char. induction s as [|a s IH]; [done|]. simpl.
  case_bool_decide as Ha.
  - rewrite filter_cons_True by done. simpl. by rewrite IH.
  - rewrite filter_cons_False by done.
    destruct (split c s) as [|part parts]; [done|]. simpl in *. done.
Qed.

End address.

(** The components of a non-empty address. *)
Lemma parse_address_spec (s : str) :
  s ≠ [] →
  let r := ConvertCsv.parse_address_details_specific (JStr s) in
  ConvertCsv.street r = strip (before_first "," s)
  ∧ (ConvertCsv.count_char "," s = 0 → ConvertCsv.unit r = [] ∧ ConvertCsv.city r = [])
  ∧ (ConvertCsv.unit r ≠ [] →
     ConvertCsv.count_char "," s = 3
     ∧ (startswith $"suite" (lower (ConvertCsv.unit r)) = true
        ∨ startswith $"ste" (lower (ConvertCsv.unit r)) = true))
  ∧ strip (ConvertCsv.street r) = ConvertCsv.street r
  ∧ strip (ConvertCsv.unit r) = ConvertCsv.unit r
  ∧ strip (ConvertCsv.city r) = ConvertCsv.city r.
Proof.
  intros Hs r. unfold r. destruct s as [|c s]; [done|].
  unfold ConvertCsv.parse_address_details_specific.
  pose proof (split_length "," (c :: s)) as Hlen.
  destruct (split_head "," (c :: s)) as [parts Hsplit].
  rewrite Hsplit in Hlen |- *. rewrite fmap_cons.
  set (p0 := before_first "," (c :: s)) in *.
  destruct parts as [|p1 [|p2 [|p3 [|p4 parts]]]]; simpl in Hlen;
    cbn [fmap list_fmap length nth];
    repeat (first [rewrite bool_decide_true by lia
                  |rewrite bool_decide_false by lia]);
    cbn [andb].
  - cbn [ConvertCsv.street ConvertCsv.unit ConvertCsv.city].
    rewrite !strip_idemp. split_and!; [done|done|done|done|done|done].
  - cbn [ConvertCsv.street ConvertCsv.unit ConvertCsv.city].
    rewrite !strip_idemp. split_and!; [done|intros; lia|done|done|done|done].
  - cbn [ConvertCsv.street ConvertCsv.unit ConvertCsv.city].
    rewrite !strip_idemp. split_and!; [done|intros; lia|done|done|done|done].
  - destruct (startswith $"suite" (lower (strip p1))
              || startswith $"ste" (lower (strip p1))) eqn:Hunit;
      cbn [ConvertCsv.street ConvertCsv.unit ConvertCsv.city];
      rewrite !strip_idemp.
    + split_and!; [done|intros; lia| |done|done|done].
      intros _. split; [lia|]. by apply orb_true_iff.
    + split_and!; [done|intros; lia|done|done|done|done].
  - cbn [ConvertCsv.street ConvertCsv.unit ConvertCsv.city].
    rewrite !strip_idemp. split_and!; [done|intros; lia|done|done|done|done].
Qed.

(** X11. For a non-empty address string, [parse_address_details_specific]
    gives as street the trimmed text before the first comma, whatever the
    number of commas; without a comma there is no unit and no city; a unit
    is given only when the address has exactly three commas and its second
    part starts with "suite" or "ste" in any case; and the three
    components come without surrounding white space. *)
Theorem parse_address_components (s : str) :
  s ≠ [] →
  let r := ConvertCsv.parse_address_details_specific (JStr s) in
  ConvertCsv.street r = strip (before_first "," s)
  ∧ (ConvertCsv.count_char "," s = 0 → ConvertCsv.unit r = [] ∧ ConvertCsv.city r = [])
  ∧ (ConvertCsv.unit r ≠ [] →
     ConvertCsv.count_char "," s = 3
     ∧ (startswith $"suite" (lower (ConvertCsv.unit r)) = true
        ∨ startswith $"ste" (lower (ConvertCsv.unit r)) = true))
  ∧ strip (ConvertCsv.street r) = ConvertCsv.street r
  ∧ strip (ConvertCsv.unit r) = ConvertCsv.unit r
  ∧ strip (ConvertCsv.city r) = ConvertCsv.city r.
Proof. apply parse_address_spec. Qed.

Lemma parse_address_components_witness :
  let s := $"1450 Post Rd, Suite 4 , Fairfield, CT 06824" in
  let r := ConvertCsv.parse_address_details_specific (JStr s) in
  ConvertCsv.street r = strip (before_first "," s)
  ∧ (ConvertCsv.count_char "," s = 0 → ConvertCsv.unit r = [] ∧ ConvertCsv.city r = [])
  ∧ (ConvertCsv.unit r ≠ [] →
     ConvertCsv.count_char "," s = 3
     ∧ (startswith $"suite" (lower (ConvertCsv.unit r)) = true
        ∨ startswith $"ste" (lower (ConvertCsv.unit r)) = true))
  ∧ strip (ConvertCsv.street r) = ConvertCsv.street r
  ∧ strip (ConvertCsv.unit r) = ConvertCsv.unit r
  ∧ strip (ConvertCsv.city r) = ConvertCsv.city r.
Proof.
  apply (parse_address_components $"1450 Post Rd, Suite 4 , Fairfield, CT 06824").
  discriminate.
Defined.

Example address_with_suite :
  ConvertCsv.parse_address_details_specific
    (JStr $"1450 Post Rd, Suite 4 , Fairfield, CT 06824")
  = {| ConvertCsv.street := $"1450 Post Rd"; ConvertCsv.unit := $"Suite 4";
       ConvertCsv.city := $"Fairfield" |}.
Proof. vm_compute. reflexivity. Qed.

Example address_of_three_parts :
  ConvertCsv.parse_address_details_specific (JStr $"12 Main St, Norwalk, CT 06850")
  = {| ConvertCsv.street := $"12 Main St"; ConvertCsv.unit := [];
       ConvertCsv.city := $"Norwalk" |}.
Proof. vm_compute. reflexivity. Qed.

Section report.
Import ContactFinder ConvertCsv.
Implicit Types (business : gmap str json) (records : list (gmap str json)).

(** On a record whose email is absent, null or a string, the test of the
    default mode does not raise and says whether the email has something
    other than white space in it. *)
Lemma has_email_plain business :
  plain_email business →
  has_email (business !! $"email_encontrado") = Returned (bool_decide (with_email business)).
Proof.
  unfold plain_email.
  destruct (business !! $"email_encontrado") as [[| | |s| |]|] eqn:He; try done; intros _.
  - simpl. rewrite bool_decide_false; [done|].
    unfold with_email. rewrite He. by intros (? & [=] & _).
  - simpl. f_equal. destruct (decide (Writer.blank s)) as [Hb|Hb].
    + rewrite (bool_decide_false (with_email business))
        by (unfold with_email; rewrite He; by intros (? & [= <-] & ?)).
      apply strip_nil_iff in Hb. rewrite (bool_decide_false (strip s ≠ [])) by auto.
      apply andb_false_r.
    + rewrite (bool_decide_true (with_email business))
        by (unfold with_email; rewrite He; by exists s).
      rewrite (bool_decide_true (strip s ≠ [])) by (by rewrite strip_nil_iff).
      rewrite bool_decide_true; [done|]. intros ->. apply Hb. constructor.
  - simpl. rewrite bool_decide_false; [done|].
    unfold with_email. rewrite He. by intros (? & [=] & _).
Qed.

Lemma collect_default records :
  Forall plain_email records →
  collect false (JObj <$> records) = Returned (record_of <$> filter with_email records).
Proof.
  induction 1 as [|business records Hplain _ IH]; [done|].
  rewrite fmap_cons. cbn [collect]. rewrite (has_email_plain _ Hplain), IH.
  destruct (decide (with_email business)) as [Hw|Hw].
  - by rewrite bool_decide_true, filter_cons_True.
  - by rewrite bool_decide_false, filter_cons_False.
Qed.


End report.




Section finder_then_report.
Import ContactFinder ConvertCsv.
Implicit Types (E : Env) (business : gmap str json).

Lemma is_email_not_blank m : is_email m → ¬ Writer.blank m.
Proof.
  intros (L & D & T & -> & _) Hb. unfold Writer.blank in Hb.
  apply Forall_app in Hb as [_ Hb]. by inversion Hb.
Qed.

(** The entries the contact finder writes have an email that is null or a
    string, and it is a string exactly when an email was found. *)
Lemma result_entry_email E business entry :
  result_entry E business = Returned entry →
  plain_email entry ∧ (with_email entry ↔ email_found E business = true).
Proof.
  intros Hentry.
  destruct (result_entry_fields E business entry Hentry) as (e & l & m & Hres & He & _).
  change EMAIL_KEY with $"email_encontrado" in He.
  unfold plain_email, with_email, email_found. rewrite He, Hres.
  pose proof (resolve_cases E business) as Hcases. rewrite Hres in Hcases.
  destruct e as [e|]; simpl.
  - split; [done|]. split; [done|]. intros _. exists e. split; [done|].
    apply is_email_not_blank.
    destruct Hcases as [(_ & (e' & [= <-] & [? _]) & _)
                       |[(_ & _ & (e' & [= <-] & [? _]) & _)
                        |[(_ & _ & [=] & _)|(_ & [=] & _)]]]; done.
  - split; [done|]. split; [by intros (? & [=] & _)|done].
Qed.

Lemma filter_with_email_entries E (records results : list (gmap str json)) :
  entries_of E records results →
  Forall plain_email results
  ∧ filter with_email results
    = (filter (λ be, email_found E be.1 = true) (zip records results)).*2.
Proof.
  induction 1 as [|b entry records results Hb _ [IHp IH]]; [by split|].
  destruct (result_entry_email E b entry Hb) as [Hplain Hiff]. split; [by constructor|].
  cbn [zip zip_with].
  destruct (decide (email_found E b = true)) as [Hs|Hs].
  - rewrite !filter_cons_True by (done || by apply Hiff). by rewrite fmap_cons, IH.
  - rewrite !filter_cons_False by (done || by rewrite Hiff). done.
Qed.

End finder_then_report.

(** X14. The two stages composed. When the conversion reads the results
    the contact finder returned for an array of records and runs in its
    default mode, it does not raise, and its report holds, after the
    header, exactly the entries of the records for which an email was
    found (by either path), in the order of the input. *)
Theorem report_of_contact_finder (E : Env) (F : ConvertCsv.Files)
    (input_json_file output_csv_file : str) (records results : list (gmap str json)) :
  entries_of E records results →
  ConvertCsv.load F input_json_file = Loaded (JArr (JObj <$> results)) →
  let kept := (filter (λ be, email_found E be.1 = true) (zip records results)).*2 in
  let lines := ConvertCsv.Header ConvertCsv.CSV_COLUMNS
               :: (ConvertCsv.Line <$> (ConvertCsv.record_of <$> kept)) in
  ConvertCsv.convertir_json_a_csv F input_json_file output_csv_file false
  = match ConvertCsv.dump F output_csv_file lines with
    | None => {| ConvertCsv.returned := ContactFinder.Returned true;
                 ConvertCsv.report := Some lines |}
    | Some _ => {| ConvertCsv.returned := ContactFinder.Returned false;
                   ConvertCsv.report := None |}
    end.
Proof.
  intros Hall Hload kept lines. unfold ConvertCsv.convertir_json_a_csv.
  rewrite Hload. cbn [ContactFinder.iterate].
  destruct (filter_with_email_entries E records results Hall) as [Hplain Hfilter].
  rewrite collect_default by done. by rewrite Hfilter.
Qed.

Lemma report_of_contact_finder_witness :
  let records := [Demo3.acme_listing; Demo3.bright_listing] in
  let results :=
    [ContactFinder.with_fields Demo3.acme_listing
       (Some $"info@acme-dental.example", [], $"Requests (Email)");
     ContactFinder.with_fields Demo3.bright_listing (None, [], $"Ninguno")] in
  let kept := (filter (λ be, email_found Demo3.finder be.1 = true) (zip records results)).*2 in
  let lines := ConvertCsv.Header ConvertCsv.CSV_COLUMNS
               :: (ConvertCsv.Line <$> (ConvertCsv.record_of <$> kept)) in
  ConvertCsv.convertir_json_a_csv (Demo3.after results) $"step2.json" $"step3.csv" false
  = match ConvertCsv.dump (Demo3.after results) $"step3.csv" lines with
    | None => {| ConvertCsv.returned := ContactFinder.Returned true;
                 ConvertCsv.report := Some lines |}
    | Some _ => {| ConvertCsv.returned := ContactFinder.Returned false;
                   ConvertCsv.report := None |}
    end.
Proof.
  apply (report_of_contact_finder Demo3.finder
           (Demo3.after
              [ContactFinder.with_fields Demo3.acme_listing
                 (Some $"info@acme-dental.example", [], $"Requests (Email)");
               ContactFinder.with_fields Demo3.bright_listing (None, [], $"Ninguno")])
           $"step2.json" $"step3.csv" [Demo3.acme_listing; Demo3.bright_listing]).
  - repeat constructor.
  - reflexivity.
Defined.

(** The report of the sample holds the record with the email and not the
    other. *)
Example report_of_contact_finder_sample :
  email_found Demo3.finder Demo3.acme_listing = true
  ∧ email_found Demo3.finder Demo3.bright_listing = false.
Proof.
  unfold email_found, ContactFinder.resolve.
  assert (Demo3.acme_listing !! $"website" = Some (JStr $"https://acme-dental.example"))
    as ->.
  { unfold Demo3.acme_listing.
    by rewrite lookup_insert_ne, lookup_insert_ne, lookup_insert_eq. }
  assert (Demo3.bright_listing !! $"website" = Some (JStr $"No encontrado")) as ->.
  { unfold Demo3.bright_listing.
    by rewrite lookup_insert_ne, lookup_insert_ne, lookup_insert_eq. }
  vm_compute. done.
Qed.

(* ===================================================================== *)
(** ** The crawler *)
(* ===================================================================== *)

Section crawler.
Import ContactFinder Crawler.
Implicit Types (B : Browser) (st : crawl_state) (card : listing)
  (cards : list listing).

Lemma process_listing_spec current_page st card :
  fingerprints_ok st →
  fingerprints_ok (process_listing current_page st card)
  ∧ opened (process_listing current_page st card) = opened st
  ∧ (extracted_data (process_listing current_page st card) = extracted_data st
     ∨ extracted_data (process_listing current_page st card)
       = extracted_data st ++ [(extract_listing_data card, current_page)]).
Proof.
  intros [Hnd Hset]. unfold process_listing. case_bool_decide as Hnew.
  - split_and!; [|done|by right]. split; simpl.
    + rewrite fmap_app, fmap_app. apply NoDup_app. split_and!; [done| |].
      * intros fp Hfp [->|[]%elem_of_nil]%elem_of_cons. by apply Hnew, Hset.
      * apply NoDup_singleton.
    + intros fp. rewrite fmap_app, fmap_app, elem_of_app, elem_of_union, Hset.
      simpl. rewrite elem_of_singleton, list_elem_of_singleton. done.
  - split_and!; [done|done|by left].
Qed.

Lemma process_listings_spec B max_pages current_page url cards' cards st :
  open_listings B url = Listings cards' → cards ⊆ cards' →
  (1 ≤ current_page ≤ max_pages)%Z →
  fingerprints_ok st → Forall (from_a_card B max_pages) (extracted_data st) →
  fingerprints_ok (foldl (process_listing current_page) st cards)
  ∧ opened (foldl (process_listing current_page) st cards) = opened st
  ∧ Forall (from_a_card B max_pages)
      (extracted_data (foldl (process_listing current_page) st cards)).
Proof.
  intros Hopen Hsub Hpage. revert st.
  induction cards as [|card cards IH]; intros st Hok Hall; [done|].
  simpl. destruct (process_listing_spec current_page st card Hok) as (Hok1 & Hop1 & Hex1).
  destruct (IH ltac:(set_solver) (process_listing current_page st card) Hok1)
    as (Hok' & Hop' & Hall').
  - destruct Hex1 as [->| ->]; [done|]. apply Forall_app. split; [done|].
    constructor; [|done]. split; [done|]. exists url, cards', card.
    split_and!; [done|set_solver|done].
  - split_and!; [done|congruence|done].
Qed.

(** The loop keeps the fingerprints distinct and the records within the
    page bounds, and opens at most [fuel] pages. *)
Lemma crawl_pages_spec B max_pages fuel current_page next_page_url st :
  (1 ≤ current_page)%Z →
  fingerprints_ok st → Forall (from_a_card B max_pages) (extracted_data st) →
  let st' := crawl_pages B max_pages fuel current_page next_page_url st in
  fingerprints_ok st'
  ∧ Forall (from_a_card B max_pages) (extracted_data st')
  ∧ ∃ more, opened st' = opened st ++ more ∧ length more ≤ fuel
      ∧ (Z.of_nat (length more) ≤ Z.max 0 (max_pages - current_page + 1))%Z.
Proof.
  revert current_page next_page_url st.
  induction fuel as [|fuel IH]; intros current_page next_page_url st Hpage Hok Hall.
  { simpl. split_and!; [done|done|]. exists []. rewrite app_nil_r. simpl. split_and!; [done|lia|lia]. }
  cbn [crawl_pages].
  assert (∃ more, opened st = opened st ++ more ∧ length more ≤ S fuel
            ∧ (Z.of_nat (length more) ≤ Z.max 0 (max_pages - current_page + 1))%Z) as Hstay.
  { exists []. rewrite app_nil_r. simpl. split_and!; [done|lia|lia]. }
  destruct next_page_url as [url|]; [|by split_and!].
  case_bool_decide as Hle; cbn [andb]; [|by split_and!].
  destruct (truthy (Some url)); [|by split_and!].
  assert (∀ st1, opened st1 = opened st ++ [url] →
          ∃ more, opened st1 = opened st ++ more ∧ length more ≤ S fuel
            ∧ (Z.of_nat (length more) ≤ Z.max 0 (max_pages - current_page + 1))%Z) as Hone.
  { intros st1 ->. exists [url]. simpl. split_and!; [done|lia|lia]. }
  destruct (open_listings B url) as [cards| |cause] eqn:Hopen;
    [|split_and!; [done|done|by apply Hone]..].
  set (st0 := {| extracted_data := extracted_data st;
                 processed_business_fingerprints := processed_business_fingerprints st;
                 opened := opened st ++ [url] |}).
  destruct (process_listings_spec B max_pages current_page url cards cards st0)
    as (Hok1 & Hop1 & Hall1); [done|done|lia|done|done|].
  destruct (next_url B url current_page) as [next|cause].
  - destruct (IH (current_page + 1)%Z next _ ltac:(lia) Hok1 Hall1)
      as (Hok' & Hall' & more & Hmore & Hlen & Hbound).
    split_and!; [done|done|]. exists (url :: more). split_and!.
    + rewrite Hmore, Hop1. simpl. by rewrite <-app_assoc.
    + simpl. lia.
    + simpl length. lia.
  - split_and!; [done|done|]. by apply Hone.
Qed.

(** With the fuel [ejecutar_crawler_yp] gives it, the loop is not cut
    short: more fuel changes nothing. *)
Lemma crawl_pages_fuel B max_pages fuel fuel' current_page next_page_url st :
  (max_pages - current_page + 1 ≤ Z.of_nat fuel)%Z →
  (max_pages - current_page + 1 ≤ Z.of_nat fuel')%Z →
  crawl_pages B max_pages fuel current_page next_page_url st
  = crawl_pages B max_pages fuel' current_page next_page_url st.
Proof.
  revert fuel' current_page next_page_url st.
  induction fuel as [|fuel IH]; intros fuel' current_page next_page_url st Hf Hf'.
  - destruct fuel' as [|fuel']; [done|]. cbn [crawl_pages].
    destruct next_page_url as [url|]; [|done].
    rewrite bool_decide_false by lia. done.
  - destruct fuel' as [|fuel'].
    + cbn [crawl_pages]. destruct next_page_url as [url|]; [|done].
      rewrite bool_decide_false by lia. done.
    + cbn [crawl_pages]. destruct next_page_url as [url|]; [|done].
      case_bool_decide; cbn [andb]; [|done]. destruct (truthy _); [|done].
      destruct (open_listings B url); [|done..].
      destruct (next_url B url current_page); [|done].
      apply IH; lia.
Qed.

End crawler.

(** X15. What the crawler extracts. Whatever the browser does, the run
    returns; no two of its records have the same fingerprint (name, phone
    and address joined by hyphens); each record was read from a card of a
    page of results and carries a page number between 1 and [max_pages];
    at most [max_pages] pages are opened (none when [max_pages] is not
    positive); and the output file is written exactly when there is a
    record and the dump goes through, holding the records in order. Giving
    the loop more turns than [max_pages] changes nothing. *)
Theorem crawler_records (B : Crawler.Browser) (search_term location_term : str)
    (max_pages : Z) (output_file : str) :
  let c := Crawler.ejecutar_crawler_yp B search_term location_term max_pages output_file in
  NoDup (Crawler.fingerprint <$> (Crawler.records c).*1)
  ∧ Forall (Crawler.from_a_card B max_pages) (Crawler.records c)
  ∧ (Z.of_nat (length (Crawler.pages c)) ≤ Z.max 0 max_pages)%Z
  ∧ (∀ out, Crawler.written c = Some out ↔
       Crawler.records c ≠ [] ∧ out = Crawler.to_json <$> Crawler.records c
       ∧ Crawler.dump_json B output_file out = None)
  ∧ (∀ fuel, Z.to_nat max_pages ≤ fuel → Crawler.driver_starts B = true →
       Crawler.records c
       = Crawler.extracted_data
           (Crawler.crawl_pages B max_pages fuel 1
              (Some (Crawler.initial_target_url search_term location_term))
              {| Crawler.extracted_data := [];
                 Crawler.processed_business_fingerprints := ∅;
                 Crawler.opened := [] |})).
Proof.
  intros c. unfold c, Crawler.ejecutar_crawler_yp.
  destruct (Crawler.driver_starts B) eqn:Hstart.
  - set (st0 := {| Crawler.extracted_data := [];
                   Crawler.processed_business_fingerprints := ∅;
                   Crawler.opened := [] |}).
    destruct (crawl_pages_spec B max_pages (Z.to_nat max_pages) 1
                (Some (Crawler.initial_target_url search_term location_term)) st0)
      as ([Hnd _] & Hall & more & Hmore & _ & Hbound); [lia| |done|].
    { split; [constructor|]. intros fp. simpl. set_solver. }
    cbn [Crawler.records Crawler.pages Crawler.written].
    split_and!; [done|done| | |].
    + rewrite Hmore. simpl. lia.
    + intros out. destruct (Crawler.extracted_data _) as [|entry entries] eqn:Hex.
      * split; [done|]. by intros [? _].
      * destruct (Crawler.dump_json B output_file _) as [cause|] eqn:Hdump.
        -- split; [done|]. intros (_ & -> & Hd). congruence.
        -- split; [by intros [= <-]|]. by intros (_ & -> & _).
    + intros fuel Hfuel _. f_equal. apply crawl_pages_fuel; lia.
  - cbn. split_and!; [constructor|constructor|lia| |done].
    intros out. split; [done|]. by intros [? _].
Qed.

Section crawler_fields.
Import ContactFinder Crawler.
Implicit Types (card : listing) (entry : listing_data * Z).

Lemma to_json_lookup entry :
  to_json entry !! $"website" = Some (JStr (website entry.1))
  ∧ to_json entry !! $"direccion" = Some (JStr (direccion entry.1))
  ∧ to_json entry !! $"nombre" = Some (JStr (nombre entry.1))
  ∧ to_json entry !! $"telefono" = Some (JStr (telefono entry.1))
  ∧ to_json entry !! $"email_encontrado" = None.
Proof.
  unfold to_json. split_and!.
  - do 1 (rewrite lookup_insert_ne by done). by rewrite lookup_insert_eq.
  - do 2 (rewrite lookup_insert_ne by done). by rewrite lookup_insert_eq.
  - do 4 (rewrite lookup_insert_ne by done). by rewrite lookup_insert_eq.
  - do 3 (rewrite lookup_insert_ne by done). by rewrite lookup_insert_eq.
  - do 5 (rewrite lookup_insert_ne by done). by rewrite lookup_empty.
Qed.

(** The helper returns the default or a trimmed value that is not
    empty. *)
Lemma safe_get_attribute_cases card value default_ :
  (_safe_get_attribute card value default_ = default_
   ∧ ∀ a, element_href card value = Some (Some a) → Writer.blank a)
  ∨ ∃ a, element_href card value = Some (Some a) ∧ ¬ Writer.blank a
         ∧ _safe_get_attribute card value default_ = strip a.
Proof.
  unfold _safe_get_attribute.
  destruct (element_href card value) as [[a|]|]; [|by left..].
  destruct (decide (Writer.blank a)) as [Hb|Hb].
  - left. split; [|by intros ? [= <-]].
    apply strip_nil_iff in Hb as Hs. rewrite Hs. cbn [truthy].
    by rewrite andb_false_r.
  - right. exists a. split_and!; [done|done|].
    assert (strip a ≠ []) as Hs by by rewrite strip_nil_iff.
    assert (a ≠ []) as Ha by (intros ->; apply Hb; constructor).
    destruct a; [done|]. destruct (strip (a :: a0)); done.
Qed.

End crawler_fields.

(** X16. A listing without a usable website link (no such element, no
    [href], or an [href] of white space only) gets the website
    "No encontrado", and the contact finder then makes no request for it:
    whatever the network and the browser would answer, its entry has no
    email, no link and the method "Ninguno". With a usable link the
    website is the trimmed [href], which is not empty. *)
Theorem listing_without_website (card : Crawler.listing) (page : Z) :
  let data := Crawler.extract_listing_data card in
  ((∀ a, Crawler.element_href card Crawler.WEBSITE_LINK_SELECTOR = Some (Some a) →
         Writer.blank a) →
   Crawler.website data = $"No encontrado"
   ∧ ∀ E, ContactFinder.resolve E (Crawler.to_json (data, page))
          = ContactFinder.Returned (None, [], $"Ninguno"))
  ∧ (∀ a, Crawler.element_href card Crawler.WEBSITE_LINK_SELECTOR = Some (Some a) →
          ¬ Writer.blank a →
          Crawler.website data = strip a ∧ Crawler.website data ≠ []).
Proof.
  intros data. unfold data. cbn [Crawler.website Crawler.extract_listing_data].
  destruct (safe_get_attribute_cases card Crawler.WEBSITE_LINK_SELECTOR Crawler.NO_ENCONTRADO)
    as [[Hdef Hblank]|(a & Ha & Hnb & Hval)].
  - split.
    + intros _. split; [done|]. intros E. unfold ContactFinder.resolve.
      destruct (to_json_lookup (Crawler.extract_listing_data card, page)) as (Hw & _).
      rewrite Hw. cbn [fst Crawler.website Crawler.extract_listing_data].
      rewrite Hdef. vm_compute. reflexivity.
    + intros a Ha Hnb. destruct Hnb. by apply Hblank.
  - split.
    + intros Hblank. destruct Hnb. by apply Hblank.
    + intros a' Ha' _. rewrite Ha in Ha'. injection Ha' as <-.
      split; [done|]. rewrite Hval. by rewrite strip_nil_iff.
Qed.

Section street_round_trip.
Import ContactFinder Crawler.

Lemma before_first_app c (s t : str) :
  c ∉ s → before_first c (s ++ c :: t) = s.
Proof.
  induction s as [|a s IH]; intros Hc; simpl.
  - by rewrite bool_decide_true.
  - rewrite bool_decide_false by set_solver. f_equal. apply IH. set_solver.
Qed.

End street_round_trip.

(** X17. From the crawler to the report. When a card shows a street
    without a comma and a locality (neither reading "No encontrado"), the
    address the crawler records is the two joined by a comma, and the
    Address column of the line the conversion makes of that record, also
    of the entry the contact finder makes of it by adding its fields, is
    the trimmed street the card shows. *)
Theorem street_reaches_report (card : Crawler.listing) (page : Z) (E : Env)
    (street locality : str) :
  Crawler.element_text card Crawler.STREET_ADDRESS_SELECTOR = Some street →
  Crawler.element_text card Crawler.LOCALITY_SELECTOR = Some locality →
  strip street ≠ $"No encontrado" → strip locality ≠ $"No encontrado" →
  ","%char ∉ strip street →
  let data := Crawler.extract_listing_data card in
  Crawler.direccion data = strip street ++ $", " ++ strip locality
  ∧ ConvertCsv.col_address (ConvertCsv.record_of (Crawler.to_json (data, page)))
    = strip street
  ∧ ∀ entry,
      ContactFinder.result_entry E (Crawler.to_json (data, page))
      = ContactFinder.Returned entry →
      ConvertCsv.col_address (ConvertCsv.record_of entry) = strip street.
Proof.
  intros Hstreet Hloc Hs Hl Hcomma data.
  assert (Crawler.direccion data = strip street ++ $", " ++ strip locality) as Hdir.
  { unfold data. cbn [Crawler.direccion Crawler.extract_listing_data].
    unfold Crawler._safe_find_text. rewrite Hstreet, Hloc.
    by rewrite !bool_decide_true. }
  assert (∀ business : gmap str json,
            business !! $"direccion" = Some (JStr (Crawler.direccion data)) →
            ConvertCsv.col_address (ConvertCsv.record_of business) = strip street) as Hrec.
  { intros business Hb. unfold ConvertCsv.record_of, ConvertCsv.get.
    cbn [ConvertCsv.col_address]. rewrite Hb. cbv [default from_option id].
    assert (Crawler.direccion data ≠ []) as Hne
      by (rewrite Hdir; by destruct (strip street)).
    destruct (parse_address_spec _ Hne) as (-> & _).
    rewrite Hdir.
    change ($", " ++ strip locality) with (","%char :: " "%char :: strip locality).
    by rewrite before_first_app, strip_idemp. }
  destruct (to_json_lookup (data, page)) as (_ & Hd & _).
  split_and!; [done|by apply Hrec|]. intros entry Hentry. apply Hrec.
  rewrite (result_entry_frame E _ _ _ Hentry); [done|]. unfold NEW_KEYS. set_solver.
Qed.

Lemma street_reaches_report_witness :
  let data := Crawler.extract_listing_data Demo4.card in
  Crawler.direccion data = strip $" 1450 Post Rd " ++ $", " ++ strip $"Fairfield, CT 06824"
  ∧ ConvertCsv.col_address (ConvertCsv.record_of (Crawler.to_json (data, 1%Z)))
    = strip $" 1450 Post Rd "
  ∧ ∀ entry,
      ContactFinder.result_entry Demo.offline (Crawler.to_json (data, 1%Z))
      = ContactFinder.Returned entry →
      ConvertCsv.col_address (ConvertCsv.record_of entry) = strip $" 1450 Post Rd ".
Proof.
  apply (street_reaches_report Demo4.card 1%Z Demo.offline
           $" 1450 Post Rd " $"Fairfield, CT 06824").
  - reflexivity.
  - reflexivity.
  - vm_compute. discriminate.
  - vm_compute. discriminate.
  - apply (bool_decide_unpack _). vm_compute. exact I.
Defined.

Section orchestrator.
Import Orchestrator.
Implicit Types (sh : Shell) (paths : gset str).

Lemma stage_spec sh command output paths :
  command ≠ [] →
  (stage sh command output paths).2 = (run sh command paths).2
  ∧ ((stage sh command output paths).1 = true ↔ passes sh command output paths).
Proof.
  intros Hne. destruct command as [|script_path args]; [done|].
  unfold stage, run_script, passes.
  destruct (run sh (script_path :: args) paths) as [[[|c|c]|cause] paths']; simpl.
  - split; [done|]. rewrite bool_decide_eq_true. tauto.
  - split; [done|]. split; [done|]. by intros [? _].
  - split; [done|]. split; [done|]. by intros [? _].
  - split; [done|]. split; [done|]. by intros [? _].
Qed.

(** [main] stage by stage. *)
Lemma main_stages sh search_term location_term max_pages paths :
  let r := main sh search_term location_term max_pages paths in
  let c1 := crawler_command search_term location_term max_pages in
  let c2 := finder_command search_term location_term in
  let c3 := converter_command search_term location_term in
  let p0 := paths ∪ {[ $"results" ]} in
  let p1 := (run sh c1 p0).2 in
  let p2 := (run sh c2 p1).2 in
  let p3 := (run sh c3 p2).2 in
  let ok1 := passes sh c1 (yp_crawler_output_json search_term location_term) p0 in
  let ok2 := passes sh c2 (contact_finder_output_json search_term location_term) p1 in
  let ok3 := passes sh c3 (final_csv_output search_term location_term) p2 in
  (status r = 0%Z ↔ ok1 ∧ ok2 ∧ ok3)
  ∧ (status r = 0%Z ∨ status r = 1%Z)
  ∧ (¬ ok1 → launched r = [c1] ∧ paths_after r = p1)
  ∧ (ok1 → ¬ ok2 → launched r = [c1; c2] ∧ paths_after r = p2)
  ∧ (ok1 → ok2 → launched r = [c1; c2; c3] ∧ paths_after r = p3).
Proof.
  intros r c1 c2 c3 p0 p1 p2 p3 ok1 ok2 ok3. subst r. unfold main.
  fold c1 c2 c3 p0.
  destruct (stage_spec sh c1 (yp_crawler_output_json search_term location_term) p0)
    as [Hp1 H1]; [done|].
  destruct (stage sh c1 (yp_crawler_output_json search_term location_term) p0)
    as [b1 q1]. simpl in Hp1, H1. subst q1. fold p1. fold ok1 in H1.
  destruct b1; cbn [negb status launched paths_after].
  2:{ assert (¬ ok1) by (rewrite <-H1; done). split_and!; try tauto.
      split; [done|tauto]. }
  assert ok1 by (by apply H1).
  destruct (stage_spec sh c2 (contact_finder_output_json search_term location_term) p1)
    as [Hp2 H2]; [done|].
  destruct (stage sh c2 (contact_finder_output_json search_term location_term) p1)
    as [b2 q2]. simpl in Hp2, H2. subst q2. fold p2. fold ok2 in H2.
  destruct b2; cbn [negb status launched paths_after].
  2:{ assert (¬ ok2) by (rewrite <-H2; done). split_and!; try tauto.
      split; [done|tauto]. }
  assert ok2 by (by apply H2).
  destruct (stage_spec sh c3 (final_csv_output search_term location_term) p2)
    as [Hp3 H3]; [done|].
  destruct (stage sh c3 (final_csv_output search_term location_term) p2)
    as [b3 q3]. simpl in Hp3, H3. subst q3. fold p3. fold ok3 in H3.
  destruct b3; cbn [negb status launched paths_after].
  2:{ assert (¬ ok3) by (rewrite <-H3; done). split_and!; try tauto.
      split; [done|tauto]. }
  assert ok3 by (by apply H3). split_and!; tauto.
Qed.

(** A run of the contact finder that finds no record ends with status 0
    and leaves the output file untouched. *)
Lemma no_records_main E input_file output_file :
  no_records E input_file →
  ContactFinder.exit_status (ContactFinder.main E input_file output_file) = 0%Z
  ∧ ContactFinder.output_touched (ContactFinder.main E input_file output_file) = false.
Proof.
  intros Hno. unfold ContactFinder.output_touched, ContactFinder.main.
  assert (∃ out, ContactFinder.procesar_negocios E input_file
                 = (ContactFinder.Returned [], out)) as [out ->].
  { destruct Hno as [(cause & Hload)|(v & Hload & Hread)].
    - eexists. apply procesar_negocios_Returned. left. by exists cause.
    - eexists. apply procesar_negocios_Returned. right. exists v, [].
      split_and!; [done|done|constructor|done]. }
  done.
Qed.

(** A run of the crawler that extracts no record writes no file. *)
Lemma crawler_nothing_written B search_term location_term max_pages output_file :
  Crawler.records
    (Crawler.ejecutar_crawler_yp B search_term location_term max_pages output_file) = [] →
  Crawler.written
    (Crawler.ejecutar_crawler_yp B search_term location_term max_pages output_file) = None.
Proof.
  unfold Crawler.ejecutar_crawler_yp. destruct (Crawler.driver_starts B); [|done].
  simpl. by intros ->.
Qed.

Lemma output_not_results name : in_results name ≠ $"results".
Proof.
  unfold in_results. intros Heq. apply (f_equal length) in Heq.
  rewrite length_app in Heq. simpl in Heq. lia.
Qed.

Lemma classic_passes sh command output paths :
  passes sh command output paths ∨ ¬ passes sh command output paths.
Proof.
  unfold passes.
  destruct (decide (output ∈ (run sh command paths).2)) as [Hin|Hnot]; [|tauto].
  destruct (run sh command paths).1 as [[|c|c]|cause]; [by left|right..];
    by intros [? _].
Qed.

End orchestrator.


(** X19. When the crawler's stage passes and its file gives the contact
    finder no record (the file is missing, malformed or holds no record),
    the contact finder exits with status 0 without writing its output. The
    second stage is then decided by a file of an earlier run alone: with no
    such file the orchestrator stops with status 1 after two scripts, and
    with one it goes on to convert that older file. *)
Theorem stale_output_decides_stage_two (sh : Orchestrator.Shell) (E : Env)
    (search_term location_term : str) (max_pages : Z) (paths : gset str) :
  let r := Orchestrator.main sh search_term location_term max_pages paths in
  let c1 := Orchestrator.crawler_command search_term location_term max_pages in
  let c2 := Orchestrator.finder_command search_term location_term in
  let c3 := Orchestrator.converter_command search_term location_term in
  let out1 := Orchestrator.yp_crawler_output_json search_term location_term in
  let out2 := Orchestrator.contact_finder_output_json search_term location_term in
  let p1 := (Orchestrator.run sh c1 (paths ∪ {[ $"results" ]})).2 in
  Orchestrator.runs_contact_finder sh E →
  passes sh c1 out1 (paths ∪ {[ $"results" ]}) →
  no_records E out1 →
  (out2 ∉ p1 → Orchestrator.status r = 1%Z ∧ Orchestrator.launched r = [c1; c2]
               ∧ Orchestrator.paths_after r = p1)
  ∧ (out2 ∈ p1 → Orchestrator.launched r = [c1; c2; c3]).
Proof.
  intros r c1 c2 c3 out1 out2 p1 Hsh Hok1 Hno.
  pose proof (main_stages sh search_term location_term max_pages paths)
    as (Hst & H01 & _ & Hstop2 & Hgo3).
  cbv zeta in Hst, H01, Hstop2, Hgo3. fold r c1 c2 c3 out1 out2 p1 in Hst, H01, Hstop2, Hgo3.
  destruct (no_records_main E out1 out2 Hno) as [Hexit Hwritten].
  assert (Orchestrator.run sh c2 p1 = (Orchestrator.Exited 0, p1)) as Hrun.
  { unfold c2, Orchestrator.finder_command. fold out1 out2.
    by rewrite (Hsh out1 out2 p1), Hexit, Hwritten. }
  assert (passes sh c2 out2 p1 ↔ out2 ∈ p1) as Hok2.
  { unfold passes. rewrite Hrun. simpl. tauto. }
  split.
  - intros Hnot. destruct (Hstop2 Hok1) as [Hl Hp]; [by rewrite Hok2|].
    rewrite Hrun in Hp. simpl in Hp. split_and!; [|done|done].
    destruct H01 as [H0|H1]; [|done].
    apply Hst in H0 as (_ & Hp2 & _). by apply Hok2 in Hp2.
  - intros Hin. apply Hgo3; [done|by apply Hok2].
Qed.

Lemma stale_output_decides_stage_two_witness :
  let r := Orchestrator.main Demo5.shell $"Chiropractor" $"Fairfield County, CT" 1 ∅ in
  let c1 := Orchestrator.crawler_command $"Chiropractor" $"Fairfield County, CT" 1 in
  let c2 := Orchestrator.finder_command $"Chiropractor" $"Fairfield County, CT" in
  let c3 := Orchestrator.converter_command $"Chiropractor" $"Fairfield County, CT" in
  let out2 := Orchestrator.contact_finder_output_json $"Chiropractor" $"Fairfield County, CT" in
  let p1 := (Orchestrator.run Demo5.shell c1 (∅ ∪ {[ $"results" ]})).2 in
  (out2 ∉ p1 → Orchestrator.status r = 1%Z ∧ Orchestrator.launched r = [c1; c2]
               ∧ Orchestrator.paths_after r = p1)
  ∧ (out2 ∈ p1 → Orchestrator.launched r = [c1; c2; c3]).
Proof.
  apply (stale_output_decides_stage_two Demo5.shell Demo5.empty_input
           $"Chiropractor" $"Fairfield County, CT" 1 ∅).
  - intros input_file output_file paths. reflexivity.
  - split; [reflexivity|]. apply elem_of_union_r, elem_of_singleton. reflexivity.
  - right. exists (JArr []). split; [reflexivity|]. by left.
Defined.

(** X20. The crawler ends with code 0 whether or not it extracted
    anything, and writes its file only when it has a record. So when it
    extracts none (the browser does not start, the first page times out or
    has no card) the orchestrator's first stage is decided by a file of an
    earlier run alone: with no such file the orchestrator stops with
    status 1 after the crawler, and with one the contact finder is
    launched on that older file. *)
Theorem empty_crawl_aborts_pipeline (sh : Orchestrator.Shell) (B : Crawler.Browser)
    (search_term location_term : str) (max_pages : Z) (paths : gset str) :
  let r := Orchestrator.main sh search_term location_term max_pages paths in
  let c1 := Orchestrator.crawler_command search_term location_term max_pages in
  let c2 := Orchestrator.finder_command search_term location_term in
  let out1 := Orchestrator.yp_crawler_output_json search_term location_term in
  runs_crawler sh B →
  Crawler.records
    (Crawler.ejecutar_crawler_yp B search_term location_term max_pages out1) = [] →
  (out1 ∉ paths → Orchestrator.status r = 1%Z ∧ Orchestrator.launched r = [c1]
                  ∧ Orchestrator.paths_after r = paths ∪ {[ $"results" ]})
  ∧ (out1 ∈ paths → ∃ rest, Orchestrator.launched r = c1 :: c2 :: rest).
Proof.
  intros r c1 c2 out1 Hsh Hnone.
  pose proof (main_stages sh search_term location_term max_pages paths)
    as (Hst & H01 & Hstop1 & Hstop2 & Hgo3).
  cbv zeta in Hst, H01, Hstop1, Hstop2, Hgo3.
  fold r c1 c2 out1 in Hst, H01, Hstop1, Hstop2, Hgo3.
  assert (Orchestrator.run sh c1 (paths ∪ {[ $"results" ]})
          = (Orchestrator.Exited 0, paths ∪ {[ $"results" ]})) as Hrun.
  { unfold c1, Orchestrator.crawler_command. fold out1.
    by rewrite (Hsh search_term location_term max_pages out1),
         (crawler_nothing_written _ _ _ _ _ Hnone). }
  assert (passes sh c1 out1 (paths ∪ {[ $"results" ]}) ↔ out1 ∈ paths) as Hok1.
  { unfold passes. rewrite Hrun. simpl.
    pose proof (output_not_results
                  ($"step1_yp_data_" ++ Orchestrator.s_term_safe search_term ++ $"_in_"
                   ++ Orchestrator.l_term_safe location_term ++ $".json")) as Hne.
    fold (Orchestrator.yp_crawler_output_json search_term location_term) in Hne.
    fold out1 in Hne. set_solver. }
  rewrite Hrun in Hstop1. simpl in Hstop1. split.
  - intros Hnot. destruct Hstop1 as [Hl Hp]; [by rewrite Hok1|].
    split_and!; [|done|done].
    destruct H01 as [H0|H1]; [|done].
    apply Hst in H0 as (Hp1 & _). by apply Hok1 in Hp1.
  - intros Hin. apply Hok1 in Hin.
    destruct (classic_passes sh c2
                (Orchestrator.contact_finder_output_json search_term location_term)
                (Orchestrator.run sh c1 (paths ∪ {[ $"results" ]})).2) as [Hok2|Hno2].
    + destruct (Hgo3 Hin Hok2) as [-> _]. by eexists.
    + destruct (Hstop2 Hin Hno2) as [-> _]. by eexists.
Qed.

Lemma empty_crawl_aborts_pipeline_witness :
  let r := Orchestrator.main Demo5.crawler_shell $"Chiropractor" $"Fairfield County, CT" 1 ∅ in
  let c1 := Orchestrator.crawler_command $"Chiropractor" $"Fairfield County, CT" 1 in
  let c2 := Orchestrator.finder_command $"Chiropractor" $"Fairfield County, CT" in
  let out1 := Orchestrator.yp_crawler_output_json $"Chiropractor" $"Fairfield County, CT" in
  (out1 ∉ (∅ : gset str) → Orchestrator.status r = 1%Z ∧ Orchestrator.launched r = [c1]
                  ∧ Orchestrator.paths_after r = ∅ ∪ {[ $"results" ]})
  ∧ (out1 ∈ (∅ : gset str) → ∃ rest, Orchestrator.launched r = c1 :: c2 :: rest).
Proof.
  apply (empty_crawl_aborts_pipeline Demo5.crawler_shell Demo5.no_browser
           $"Chiropractor" $"Fairfield County, CT" 1 ∅).
  - intros search_term location_term max_pages output_file paths. reflexivity.
  - reflexivity.
Defined.

Section retry_loop.
Import ContactFinder ScrapYelp Scraper.
Implicit Types (p : DataPipeline) (w : World) (found : list (pyval * str)).

(** With [tries] at most [retries] the loop does not look at [retries]. *)
Lemma attempts_any_retries Y url retries retries' tries fuel n data_pipeline w :
  (tries ≤ retries)%Z → (tries ≤ retries')%Z →
  attempts Y url retries tries fuel n data_pipeline w
  = attempts Y url retries' tries fuel n data_pipeline w.
Proof.
  intros Hle Hle'. revert n data_pipeline w.
  induction fuel as [|fuel IH]; intros n data_pipeline w; [done|].
  cbn [attempts]. rewrite !bool_decide_true by done.
  destruct (driver_get Y url n) as [div_cards|cause|cause]; [|apply IH|done].
  destruct (parse_cards div_cards data_pipeline w) as [[[u|cause] p'] w']; [done|apply IH].
Qed.

(** An exception that leaves the loop entered with [tries] at most
    [retries] is that of a browser that could not be started. *)
Lemma attempts_raised Y url retries tries fuel n data_pipeline w cause
    (data_pipeline' : option DataPipeline) w' :
  (tries ≤ retries)%Z →
  attempts Y url retries tries fuel n data_pipeline w
  = Some (Raised cause, data_pipeline', w') →
  ∃ k, n ≤ k < n + fuel ∧ driver_get Y url k = NoDriver cause.
Proof.
  intros Hle. revert n data_pipeline w.
  induction fuel as [|fuel IH]; intros n data_pipeline w; [done|].
  cbn [attempts]. rewrite bool_decide_true by done.
  destruct (driver_get Y url n) as [div_cards|c|c] eqn:Hget.
  - destruct (parse_cards div_cards data_pipeline w) as [[[u|c] p1] w1]; [done|].
    intros (k & Hk & Hno)%IH. exists k. split; [lia|done].
  - intros (k & Hk & Hno)%IH. exists k. split; [lia|done].
  - intros [= -> <- <-]. exists n. split; [lia|done].
Qed.

Lemma attempts_all_fail Y url retries tries fuel n data_pipeline w :
  (tries ≤ retries)%Z →
  (∀ k, ∃ cause, driver_get Y url k = FetchError cause) →
  attempts Y url retries tries fuel n data_pipeline w = None.
Proof.
  intros Hle Hfail. revert n.
  induction fuel as [|fuel IH]; intros n; [done|].
  cbn [attempts]. rewrite bool_decide_true by done.
  destruct (Hfail n) as [cause ->]. apply IH.
Qed.

Lemma add_all_app items items' p w :
  add_all (items ++ items') p w
  = match add_all items p w with
    | (Returned _, p', w') => add_all items' p' w'
    | (Raised e, p', w') => (Raised e, p', w')
    end.
Proof.
  revert p w. induction items as [|item items IH]; intros p w; [done|].
  cbn [app add_all]. destruct (add_data item p w) as [[[u|e] p1] w1]; [apply IH|done].
Qed.

(** After submissions that all returned, every name submitted is seen. *)
Lemma add_all_returned_seen items p w u p' w' :
  add_all items p w = (Returned u, p', w') →
  ∀ x, x ∈ items → name x ∈ names_seen p'.
Proof.
  revert p w. induction items as [|item items IH]; intros p w Hall x Hx.
  - by apply elem_of_nil in Hx.
  - cbn [add_all] in Hall.
    pose proof (add_data_names_seen item p w) as [_ Hin].
    destruct (add_data item p w) as [[[u'|c] p2] w2]; [|done].
    simpl in Hin. apply elem_of_cons in Hx as [->|Hx].
    + pose proof (add_all_names_seen items p2 w2) as Hmono.
      rewrite Hall in Hmono. by apply Hmono.
    + by apply (IH p2 w2).
Qed.

Lemma search_data_whole x :
  search_data (Card x.1 (Some x.2))
  = Returned (new_SearchData x.1
      (PStr ($"https://www.yelp.com" ++ replace $"https://proxy.scrapeops.io" [] x.2))).
Proof. done. Qed.

(** On whole cards followed by any cards, the loop over the cards is
    [add_all] on the records of the whole ones, then the loop over the
    others. *)
Lemma parse_cards_whole found div_cards p w :
  parse_cards (whole_cards found ++ div_cards) (Some p) w
  = match add_all (items_of found) p w with
    | (Returned _, p', w') => parse_cards div_cards (Some p') w'
    | (Raised e, p', w') => (Raised e, Some p', w')
    end.
Proof.
  revert p w. induction found as [|x found IH]; intros p w; [done|].
  unfold whole_cards, items_of. cbn [fmap list_fmap app parse_cards add_all].
  rewrite search_data_whole.
  destruct (add_data _ p w) as [[[u|e] p1] w1]; [apply IH|done].
Qed.

End retry_loop.

(** X21. The bound on the retries is never reached: the loop of
    [scrape_search_results] never changes [tries], so with a bound that is
    not negative the function behaves as with any other such bound, and
    the only exception that can leave it is that of a browser that could
    not be started, never the one for the exhausted retries. *)
Theorem retries_bound_is_never_reached (Y : Scraper.Yelp) (keyword location : str)
    (page_number : Z) (data_pipeline : option ScrapYelp.DataPipeline)
    (retries retries' : Z) (w : ScrapYelp.World) (fuel : nat) :
  (0 ≤ retries)%Z → (0 ≤ retries')%Z →
  Scraper.scrape_search_results Y keyword location page_number data_pipeline retries w fuel
  = Scraper.scrape_search_results Y keyword location page_number data_pipeline retries' w fuel
  ∧ ∀ cause p' w',
      Scraper.scrape_search_results Y keyword location page_number data_pipeline retries w fuel
      = Some (ContactFinder.Raised cause, p', w') →
      ∃ k, k < fuel
           ∧ Scraper.driver_get Y
               (Scraper.get_scrapeops_url Y (Scraper.base_url keyword location page_number)) k
             = Scraper.NoDriver cause.
Proof.
  intros Hle Hle'. unfold Scraper.scrape_search_results. split.
  - by apply attempts_any_retries.
  - intros cause p' w' (k & Hk & Hno)%attempts_raised; [|done].
    exists k. split; [lia|done].
Qed.

Lemma retries_bound_is_never_reached_witness :
  Scraper.scrape_search_results Demo6.flaky $"Chiropractors" $"Fairfield County, CT" 0
    (Some (ScrapYelp.new_DataPipeline $"Chiropractors.csv" 50)) 3 Demo.blank_disk 5
  = Scraper.scrape_search_results Demo6.flaky $"Chiropractors" $"Fairfield County, CT" 0
      (Some (ScrapYelp.new_DataPipeline $"Chiropractors.csv" 50)) 0 Demo.blank_disk 5
  ∧ ∀ cause p' w',
      Scraper.scrape_search_results Demo6.flaky $"Chiropractors" $"Fairfield County, CT" 0
        (Some (ScrapYelp.new_DataPipeline $"Chiropractors.csv" 50)) 3 Demo.blank_disk 5
      = Some (ContactFinder.Raised cause, p', w') →
      ∃ k, k < 5
           ∧ Scraper.driver_get Demo6.flaky
               (Scraper.get_scrapeops_url Demo6.flaky
                  (Scraper.base_url $"Chiropractors" $"Fairfield County, CT" 0)) k
             = Scraper.NoDriver cause.
Proof.
  apply (retries_bound_is_never_reached Demo6.flaky $"Chiropractors"
           $"Fairfield County, CT" 0
           (Some (ScrapYelp.new_DataPipeline $"Chiropractors.csv" 50)) 3 0
           Demo.blank_disk 5); lia.
Defined.

(** X22. A page that fails at every attempt is asked for again without
    end: whatever the bound on the retries, as long as it is not negative,
    [scrape_search_results] has not returned nor raised after any number
    of turns of its loop. With a negative bound it raises at once, without
    asking for the page. *)
Theorem failing_page_is_retried_forever (Y : Scraper.Yelp) (keyword location : str)
    (page_number : Z) (data_pipeline : option ScrapYelp.DataPipeline)
    (retries : Z) (w : ScrapYelp.World) (fuel : nat) :
  (∀ k, ∃ cause,
     Scraper.driver_get Y
       (Scraper.get_scrapeops_url Y (Scraper.base_url keyword location page_number)) k
     = Scraper.FetchError cause) →
  ((0 ≤ retries)%Z →
   Scraper.scrape_search_results Y keyword location page_number data_pipeline retries w fuel
   = None)
  ∧ ((retries < 0)%Z →
     Scraper.scrape_search_results Y keyword location page_number data_pipeline retries w
       (S fuel)
     = Some (ContactFinder.Raised (Scraper.MAX_RETRIES_EXCEEDED retries), data_pipeline, w)).
Proof.
  intros Hfail. unfold Scraper.scrape_search_results. split.
  - intros Hle. by apply attempts_all_fail.
  - intros Hlt. cbn [Scraper.attempts]. by rewrite bool_decide_false by lia.
Qed.

Lemma failing_page_is_retried_forever_witness :
  ((0 ≤ 3)%Z →
   Scraper.scrape_search_results Demo6.down $"Chiropractors" $"Fairfield County, CT" 0
     (Some (ScrapYelp.new_DataPipeline $"Chiropractors.csv" 50)) 3 Demo.blank_disk 1000
   = None)
  ∧ ((3 < 0)%Z →
     Scraper.scrape_search_results Demo6.down $"Chiropractors" $"Fairfield County, CT" 0
       (Some (ScrapYelp.new_DataPipeline $"Chiropractors.csv" 50)) 3 Demo.blank_disk
       (S 1000)
     = Some (ContactFinder.Raised (Scraper.MAX_RETRIES_EXCEEDED 3),
             Some (ScrapYelp.new_DataPipeline $"Chiropractors.csv" 50), Demo.blank_disk)).
Proof.
  apply (failing_page_is_retried_forever Demo6.down $"Chiropractors"
           $"Fairfield County, CT" 0
           (Some (ScrapYelp.new_DataPipeline $"Chiropractors.csv" 50)) 3
           Demo.blank_disk 1000).
  intros k. exists $"TimeoutException". reflexivity.
Defined.

(** X23. A retry submits nothing twice. When the first attempt breaks off
    at a card that is not complete, after some whole cards, and the second
    attempt reads the page whole, with the same cards first, the writer
    and the files end as after a single attempt on the whole page: the
    records of the first attempt are submitted again and dropped as
    duplicates. *)
Theorem retry_submits_nothing_twice (Y : Scraper.Yelp) (keyword location : str)
    (page_number : Z) (p : ScrapYelp.DataPipeline) (retries : Z) (w : ScrapYelp.World)
    (found more : list (ScrapYelp.pyval * str)) (cause : str) (rest : list Scraper.card)
    (p' : ScrapYelp.DataPipeline) (w' : ScrapYelp.World) :
  let url := Scraper.get_scrapeops_url Y (Scraper.base_url keyword location page_number) in
  (0 ≤ retries)%Z →
  Scraper.driver_get Y url 0
  = Scraper.Fetched (Scraper.whole_cards found ++ Scraper.NoSuchElement cause :: rest) →
  Scraper.driver_get Y url 1 = Scraper.Fetched (Scraper.whole_cards (found ++ more)) →
  ScrapYelp.add_all (Scraper.items_of (found ++ more)) p w = (ContactFinder.Returned (), p', w') →
  Scraper.scrape_search_results Y keyword location page_number (Some p) retries w 2
  = Some (ContactFinder.Returned (), Some p', w').
Proof.
  intros url Hle Hfirst Hsecond Hall.
  unfold Scraper.scrape_search_results. fold url. cbn [Scraper.attempts].
  rewrite !bool_decide_true by done. rewrite Hfirst, parse_cards_whole.
  unfold Scraper.items_of in Hall. rewrite fmap_app in Hall.
  fold (Scraper.items_of found) in Hall. fold (Scraper.items_of more) in Hall.
  rewrite add_all_app in Hall.
  destruct (ScrapYelp.add_all (Scraper.items_of found) p w) as [[[u|e] p1] w1] eqn:Hfound;
    [|done].
  cbn [Scraper.parse_cards Scraper.search_data]. rewrite Hsecond.
  rewrite <-(app_nil_r (Scraper.whole_cards (found ++ more))), parse_cards_whole.
  unfold Scraper.items_of at 1. rewrite fmap_app.
  fold (Scraper.items_of found). fold (Scraper.items_of more).
  rewrite add_all_app, (add_all_seen (Scraper.items_of found) p1 w1), Hall; [done|].
  intros x Hx. by apply (add_all_returned_seen _ _ _ _ _ _ Hfound).
Qed.

Lemma retry_submits_nothing_twice_witness :
  Scraper.scrape_search_results Demo6.flaky $"Chiropractors" $"Fairfield County, CT" 0
    (Some (ScrapYelp.new_DataPipeline $"Chiropractors.csv" 50)) 3 Demo.blank_disk 2
  = Some (ContactFinder.Returned (),
          Some (ScrapYelp.add_all
                  (Scraper.items_of ([Demo6.acme_found] ++ [Demo6.bright_found]))
                  (ScrapYelp.new_DataPipeline $"Chiropractors.csv" 50) Demo.blank_disk).1.2,
          (ScrapYelp.add_all
             (Scraper.items_of ([Demo6.acme_found] ++ [Demo6.bright_found]))
             (ScrapYelp.new_DataPipeline $"Chiropractors.csv" 50) Demo.blank_disk).2).
Proof.
  apply (retry_submits_nothing_twice Demo6.flaky $"Chiropractors" $"Fairfield County, CT" 0
           (ScrapYelp.new_DataPipeline $"Chiropractors.csv" 50) 3 Demo.blank_disk
           [Demo6.acme_found] [Demo6.bright_found] $"NoSuchElementException" []).
  - lia.
  - reflexivity.
  - reflexivity.
  - vm_compute. reflexivity.
Defined.
